(** * The Gemini Live proxy of the CookAI server

    A shallow embedding of [server/gemini_live.py], [server/main.py] and
    [server/auth.py]: the session configuration translator, the client
    ingress pump, the control-forward pump, the upstream receive pump, the
    egress loop and the WebSocket endpoint that supervises them.

    Python values are modelled as they reach the code (the result of
    [json.loads]); Python exceptions are values of an error monad; the
    [config_args] dictionary of [start_session] is a [gmap]; queues are
    lists in FIFO order. *)

From Stdlib Require Import ZArith List String Ascii Bool Lia.
From Stdlib Require Import Floats.SpecFloat.
From stdpp Require Import base option list strings gmap.

Set Warnings "-register-all".
Local Open Scope string_scope.
Local Open Scope Z_scope.
Local Open Scope list_scope.

(** ** Python values and exceptions *)

Module Py.

(** What [json.loads] returns.  A [dict] keeps its members in insertion
    order, one binding per key; it is an association list looked up from
    the front.  [JNull] is Python's [None]. *)
Inductive json : Type :=
| JNull
| JBool (b : bool)
| JInt (n : Z)
| JFloat (f : spec_float)
| JStr (s : string)
| JArr (items : list json)
| JObj (members : list (string * json)).

(** The exception classes the code raises, catches or lets through.
    [ValidationError] is pydantic's (a [ValueError]); [JSONDecodeError] is a
    [ValueError] too; [CancelledError] derives from [BaseException] only;
    [OtherError] stands for any further subclass of [Exception] (transport
    and upstream failures). *)
Inductive exn : Type :=
| KeyError
| IndexError
| TypeError
| AttributeError
| ValueError (msg : string)
| ValidationError
| JSONDecodeError
| TimeoutError
| WebSocketDisconnect
| CancelledError
| OtherError (msg : string).

(** [isinstance(e, Exception)] *)
Definition is_Exception (e : exn) : bool :=
  match e with CancelledError => false | _ => true end.

(** [isinstance(e, ValueError)] *)
Definition is_ValueError (e : exn) : bool :=
  match e with
  | ValueError _ | ValidationError | JSONDecodeError => true
  | _ => false
  end.

(** [isinstance(e, (KeyError, IndexError, TypeError))] *)
Definition is_Key_Index_Type (e : exn) : bool :=
  match e with KeyError | IndexError | TypeError => true | _ => false end.

(** [isinstance(e, (KeyError, TypeError))] *)
Definition is_Key_Type (e : exn) : bool :=
  match e with KeyError | TypeError => true | _ => false end.

(** A computation that returns or raises. *)
Inductive result (A : Type) : Type :=
| Return (a : A)
| Raise (e : exn).
Arguments Return {A} a.
Arguments Raise {A} e.

#[export] Instance result_ret : MRet result := fun _ a => Return a.
#[export] Instance result_bind : MBind result := fun _ _ f m =>
  match m with Return a => f a | Raise e => Raise e end.

Definition raised {A} (r : result A) : option exn :=
  match r with Return _ => None | Raise e => Some e end.

(** [d[k]] on the members of a dict, when present *)
Fixpoint assoc (k : string) (members : list (string * json)) : option json :=
  match members with
  | [] => None
  | (k', v) :: rest => if String.eqb k k' then Some v else assoc k rest
  end.

(** [bool(v)] *)
Definition truthy (v : json) : bool :=
  match v with
  | JNull => false
  | JBool b => b
  | JInt n => negb (n =? 0)
  | JFloat f => match f with S754_zero _ => false | _ => true end
  | JStr s => negb (String.eqb s "")
  | JArr items => match items with [] => false | _ => true end
  | JObj members => match members with [] => false | _ => true end
  end.

Definition is_str (k : string) (v : json) : bool :=
  match v with JStr s => String.eqb k s | _ => false end.

(** [k in s] for two strings *)
Fixpoint is_substring (k s : string) : bool :=
  String.prefix k s ||
  match s with
  | EmptyString => false
  | String _ rest => is_substring k rest
  end.

(** The characters of a [str], each a one-character [str] *)
Fixpoint chars (s : string) : list json :=
  match s with
  | EmptyString => []
  | String c rest => JStr (String c EmptyString) :: chars rest
  end.

(** [k in v] with [k] a [str]: key of a dict, element of a list, substring
    of a str; [None], booleans and numbers are not iterable. *)
Definition contains (k : string) (v : json) : result bool :=
  match v with
  | JObj members => Return (bool_decide (is_Some (assoc k members)))
  | JArr items => Return (existsb (is_str k) items)
  | JStr s => Return (is_substring k s)
  | JNull | JBool _ | JInt _ | JFloat _ => Raise TypeError
  end.

(** [v[k]] with [k] a [str] *)
Definition getitem (v : json) (k : string) : result json :=
  match v with
  | JObj members =>
      match assoc k members with Some x => Return x | None => Raise KeyError end
  | _ => Raise TypeError
  end.

(** [v[0]]: the keys of a decoded dict are strings, so [0] is never one *)
Definition getitem0 (v : json) : result json :=
  match v with
  | JObj _ => Raise KeyError
  | JArr items =>
      match items with x :: _ => Return x | [] => Raise IndexError end
  | JStr s =>
      match s with
      | String c _ => Return (JStr (String c EmptyString))
      | EmptyString => Raise IndexError
      end
  | JNull | JBool _ | JInt _ | JFloat _ => Raise TypeError
  end.

(** [for x in v]: the items that the loop visits *)
Definition iter (v : json) : result (list json) :=
  match v with
  | JArr items => Return items
  | JObj members => Return (map (fun kv => JStr (fst kv)) members)
  | JStr s => Return (chars s)
  | JNull | JBool _ | JInt _ | JFloat _ => Raise TypeError
  end.

(** [v.get(k, dflt)]: only a dict has the method *)
Definition get (v : json) (k : string) (dflt : json) : result json :=
  match v with
  | JObj members => Return (default dflt (assoc k members))
  | _ => Raise AttributeError
  end.

(** *** Statements over a mutable object

    A statement runs on the current value of the object it updates (a
    dictionary, a queue), leaves a new value, and completes or raises; an
    update made before an exception stays. *)
Definition prog (S A : Type) : Type := S -> result A * S.

Definition pure {S A} (a : A) : prog S A := fun st => (Return a, st).
Definition seq {S A B} (m : prog S A) (k : A -> prog S B) : prog S B :=
  fun st => match m st with
            | (Return a, st') => k a st'
            | (Raise e, st') => (Raise e, st')
            end.
Definition eval {S A} (r : result A) : prog S A := fun st => (r, st).

(** [try: body  except <classes>: handler] *)
Definition try_except {S A} (body : prog S A) (classes : exn -> bool)
    (handler : exn -> prog S A) : prog S A :=
  fun st => match body st with
            | (Raise e, st') =>
                if classes e then handler e st' else (Raise e, st')
            | done => done
            end.

Module Import ProgNotations.
Notation "x <- m ;; k" := (seq m (fun x => k))
  (at level 100, m at next level, right associativity).
Notation "m ;;; k" := (seq m (fun _ => k))
  (at level 100, right associativity).
Abbreviation skip := (pure tt).
End ProgNotations.

(** [for x in xs: body x] *)
Fixpoint for_each {S A} (xs : list A) (body : A -> prog S unit) : prog S unit :=
  match xs with
  | [] => skip
  | x :: rest => body x ;;; for_each rest body
  end.

(** [[f(x) for x in xs]] *)
Fixpoint comprehension {A B} (f : A -> result B) (xs : list A)
  : result (list B) :=
  match xs with
  | [] => Return []
  | x :: rest => y ← f x; ys ← comprehension f rest; Return (y :: ys)
  end.

End Py.

(** ** [google.genai.types]: the objects the proxy builds *)

Module types.
Import Py.

(** A member of the [Modality] enumeration is a [str]. *)
Definition Modality : Type := string.
Definition AUDIO : Modality := "AUDIO".

Record Part := { text : json }.
Record Content := { parts : list Part }.
Record FunctionDeclaration :=
  { fd_name : json; fd_description : json; fd_parameters : json }.
Record Tool := { function_declarations : list FunctionDeclaration }.
Record FunctionResponse :=
  { fr_name : json; fr_id : json; fr_response : json }.

(** The values [start_session] stores in [config_args]. *)
Inductive config_value : Type :=
| Modalities (ms : list Modality)
| SystemInstruction (c : Content)
| Tools (ts : list Tool)
| SlidingWindowCompression
    (* ContextWindowCompressionConfig(sliding_window=SlidingWindow()) *)
| AudioTranscriptionConfig
| PrebuiltVoice (voice_name : json)
    (* SpeechConfig(voice_config=VoiceConfig(prebuilt_voice_config=
       PrebuiltVoiceConfig(voice_name=...))) *).

(** The library validates the arguments of a constructor (pydantic) and
    converts a value to an enumeration member.  Which non-string values it
    accepts for a field is the library's business: it is a parameter of the
    development. *)
Class Genai : Type := {
  to_Modality : json -> result Modality;               (* types.Modality(m) *)
  accepts_text : json -> bool;                         (* Part(text=t) *)
  accepts_declaration : json -> json -> json -> bool;  (* FunctionDeclaration *)
  accepts_voice_name : json -> bool;                   (* PrebuiltVoiceConfig *)
  accepts_response : json -> json -> json -> bool      (* FunctionResponse *)
}.

Section Constructors.
Context {G : Genai}.

(** [types.Part(text=t)]: a [str] is always a valid text *)
Definition mkPart (t : json) : result Part :=
  match t with
  | JStr _ => Return {| text := t |}
  | _ => if accepts_text t then Return {| text := t |}
         else Raise ValidationError
  end.

(** [types.FunctionDeclaration(name=n, description=d, parameters=p)] *)
Definition mkFunctionDeclaration (n d p : json) : result FunctionDeclaration :=
  if accepts_declaration n d p
  then Return {| fd_name := n; fd_description := d; fd_parameters := p |}
  else Raise ValidationError.

(** [types.SpeechConfig(...voice_name=v)] *)
Definition mkSpeechConfig (v : json) : result config_value :=
  match v with
  | JStr _ => Return (PrebuiltVoice v)
  | _ => if accepts_voice_name v then Return (PrebuiltVoice v)
         else Raise ValidationError
  end.

(** [types.FunctionResponse(name=n, id=i, response=r)] *)
Definition mkFunctionResponse (n i r : json) : result FunctionResponse :=
  if accepts_response n i r
  then Return {| fr_name := n; fr_id := i; fr_response := r |}
  else Raise ValidationError.

End Constructors.

(** A sample library, for the closed examples: it accepts a [str] or
    [None] where a field is declared [Optional[str]], a dict or [None]
    where it is declared [Optional[dict]], and the names of the four
    modalities as they are written.  It is not the installed library, which
    also takes the names in lower case and checks the parameters of a
    declaration as a schema; the examples use inputs on which the two
    agree. *)
Definition str_or_None (v : json) : bool :=
  match v with JStr _ | JNull => true | _ => false end.
Definition dict_or_None (v : json) : bool :=
  match v with JObj _ | JNull => true | _ => false end.

Definition strict : Genai := {|
  to_Modality m :=
    match m with
    | JStr s =>
        if existsb (String.eqb s)
             ["MODALITY_UNSPECIFIED"; "TEXT"; "IMAGE"; "AUDIO"]
        then Return s else Raise (ValueError "not a valid Modality")
    | JArr _ | JObj _ => Raise TypeError
    | _ => Raise (ValueError "not a valid Modality")
    end;
  accepts_text := str_or_None;
  accepts_declaration n d p := str_or_None n && str_or_None d && dict_or_None p;
  accepts_voice_name := str_or_None;
  accepts_response n i r := str_or_None n && str_or_None i && dict_or_None r
|}.

End types.

(** ** [gemini_live.py]: the session configuration translator

    Lines 48-138 of [GeminiLive.start_session].  The statements update the
    dictionary [config_args] in place and may raise; an assignment made
    before an exception is caught stays. *)

Module Translator.
Import Py Py.ProgNotations types.

Abbreviation config_args := (gmap string config_value).

(** [config_args[k] = v] *)
Definition assign (k : string) (v : config_value) : prog config_args unit :=
  fun d => (Return tt, <[k := v]> d).

Section WithLibrary.
Context {G : Genai}.

(** lines 56-59 *)
Definition response_modalities (setup_config : json) : prog config_args unit :=
  present <- eval (contains "responseModalities" setup_config) ;;
  if present : bool then
    v <- eval (getitem setup_config "responseModalities") ;;
    ms <- eval (items ← iter v; comprehension to_Modality items) ;;
    assign "response_modalities" (Modalities ms)
  else skip.

(** lines 62-76 *)
Definition system_instruction (setup_config : json) : prog config_args unit :=
  present <- eval (contains "systemInstruction" setup_config) ;;
  if present : bool then
    text <- eval (getitem setup_config "systemInstruction") ;;
    match text with
    | JStr _ =>
        assign "system_instruction"
          (SystemInstruction {| parts := [ {| types.text := text |} ] |})
    | JObj _ =>
        try_except
          (t <- eval (p ← getitem text "parts"; p0 ← getitem0 p;
                      getitem p0 "text") ;;
           part <- eval (mkPart t) ;;
           assign "system_instruction"
             (SystemInstruction {| parts := [part] |}))
          is_Key_Index_Type
          (fun _ => skip)
    | _ => skip
    end
  else skip.

(** lines 85-93: the declarations of one block *)
Definition declaration (fd : json) : result FunctionDeclaration :=
  n ← get fd "name" JNull;
  d ← get fd "description" JNull;
  p ← get fd "parameters" JNull;
  mkFunctionDeclaration n d p.

Definition declarations (tool_block : json) : result (list FunctionDeclaration) :=
  v ← getitem tool_block "functionDeclarations";
  items ← iter v;
  comprehension declaration items.

(** lines 84-96: the body of the loop over the blocks *)
Definition tool_block_body (tool_block : json) : prog config_args unit :=
  present <- eval (contains "functionDeclarations" tool_block) ;;
  if present : bool then
    fds <- eval (declarations tool_block) ;;
    assign "tools" (Tools [ {| function_declarations := fds |} ])
  else skip.

(** What one block contributes to [config_args["tools"]]: its declarations
    when it has the key, nothing when it has not, or the exception that
    reading it raises. *)
Definition block_declarations (tool_block : json)
  : result (option (list FunctionDeclaration)) :=
  present ← contains "functionDeclarations" tool_block;
  if present : bool then fds ← declarations tool_block; Return (Some fds)
  else Return None.

(** lines 79-98 *)
Definition tools (setup_config : json) : prog config_args unit :=
  present <- eval (contains "tools" setup_config) ;;
  if present : bool then
    try_except
      (tool_config <- eval (getitem setup_config "tools") ;;
       match tool_config with
       | JArr blocks => for_each blocks tool_block_body
       | _ => skip
       end)
      is_Exception
      (fun _ => skip)          (* logger.warning *)
  else skip.

(** lines 101-108 *)
Definition context_window_compression (setup_config : json) : prog config_args unit :=
  present <- eval (contains "contextWindowCompression" setup_config) ;;
  if present : bool then
    cwc <- eval (getitem setup_config "contextWindowCompression") ;;
    sliding <- eval (contains "slidingWindow" cwc) ;;
    if sliding : bool then
      assign "context_window_compression" SlidingWindowCompression
    else skip
  else skip.

(** lines 111-120 *)
Definition audio_transcription (setup_config : json) : prog config_args unit :=
  out <- eval (contains "outputAudioTranscription" setup_config) ;;
  (if out : bool then assign "output_audio_transcription" AudioTranscriptionConfig
   else skip) ;;;
  inp <- eval (contains "inputAudioTranscription" setup_config) ;;
  if inp : bool then assign "input_audio_transcription" AudioTranscriptionConfig
  else skip.

(** lines 123-136 *)
Definition speech_config (setup_config : json) : prog config_args unit :=
  present <- eval (contains "speechConfig" setup_config) ;;
  if present : bool then
    try_except
      (voice_name <- eval (a ← getitem setup_config "speechConfig";
                           b ← getitem a "voiceConfig";
                           c ← getitem b "prebuiltVoiceConfig";
                           getitem c "voiceName") ;;
       sc <- eval (mkSpeechConfig voice_name) ;;
       assign "speech_config" sc)
      is_Key_Type
      (fun _ => skip)
  else skip.

(** lines 48-136: [setup_config] is [None] ([JNull]) when the client sent
    no setup object.  The logging call of line 53 serialises a value that
    [json.loads] produced and is left out. *)
Definition parse_setup (setup_config : json) : prog config_args unit :=
  if truthy setup_config then
    response_modalities setup_config ;;;
    system_instruction setup_config ;;;
    tools setup_config ;;;
    context_window_compression setup_config ;;;
    audio_transcription setup_config ;;;
    speech_config setup_config
  else skip.

(** lines 48-138: the keyword arguments of [types.LiveConnectConfig], or
    the exception that leaves [start_session] before the upstream
    connection is opened. *)
Definition live_connect_config (setup_config : json) : result config_args :=
  match parse_setup setup_config {[ "response_modalities" := Modalities [AUDIO] ]} with
  | (Return _, d) => Return d
  | (Raise e, _) => Raise e
  end.

End WithLibrary.

(** *** Notions used in the statements about the translator *)

(** A computation is ordinary when all it can raise is an [Exception]. *)
Definition ordinary {A} (r : result A) : Prop :=
  forall e, r = Raise e -> is_Exception e = true.

(** The blocks that the loop of line 83 goes through: those before the
    first element that raises, which ends the loop (line 97). *)
Fixpoint reached {G : Genai} (blocks : list json) : list json :=
  match blocks with
  | [] => []
  | b :: rest =>
      match block_declarations b with
      | Raise _ => []
      | Return _ => b :: reached rest
      end
  end.

(** The declarations of a block that has the key and parses *)
Definition declared {G : Genai} (b : json) : option (list FunctionDeclaration) :=
  match block_declarations b with
  | Return (Some fds) => Some fds
  | _ => None
  end.

(** The declarations of the last block with [functionDeclarations] among
    the blocks the loop goes through *)
Definition last_declared {G : Genai} (blocks : list json)
  : option (list FunctionDeclaration) :=
  last (omap declared (reached blocks)).

(** A statement keeps the entry of [k] when it never assigns to it,
    whether it completes or raises. *)
Definition keeps {A} (k : string) (m : prog config_args A) : Prop :=
  forall d, (m d).2 !! k = d !! k.

End Translator.

(** ** [gemini_live.py]: the tasks of a session *)

Module Pumps.
Import Py Py.ProgNotations types.

Definition bytes : Type := list Byte.byte.

(** *** What is sent upstream *)

Inductive upstream_call : Type :=
| send_realtime_input (data : bytes) (rate : Z)
    (* audio=Blob(data=chunk, mime_type="audio/pcm;rate=<rate>") *)
| send (input : json) (end_of_turn : json)
| send_tool_response (function_responses : list FunctionResponse).

(** How a forwarding task ends: cancelled while it waits on its queue (or
    by a [CancelledError] anywhere, lines 159 and 196), or by an exception
    that nothing catches. *)
Inductive pump_end : Type :=
| Cancelled
| Crashed (e : exn).

Definition pump_end_of (e : exn) : pump_end :=
  match e with CancelledError => Cancelled | _ => Crashed e end.

Section Forwarding.
Context {G : Genai}.

(** lines 149-160: [chunks] are the items the task takes from
    [audio_input_queue] before it is cancelled.  The upstream connection
    has a state of its own: whether it accepts a call is not a matter of
    the call alone.  [outcome n] is how the [n]-th call of the task ends,
    counted from [first]. *)
Fixpoint send_audio_from (outcome : nat -> result unit) (first : nat)
    (input_sample_rate : Z) (chunks : list bytes)
  : list upstream_call * pump_end :=
  match chunks with
  | [] => ([], Cancelled)
  | chunk :: rest =>
      let call := send_realtime_input chunk input_sample_rate in
      match outcome first with
      | Return _ =>
          let '(calls, e) :=
            send_audio_from outcome (S first) input_sample_rate rest in
          (call :: calls, e)
      | Raise e => ([call], pump_end_of e)
      end
  end.

Definition send_audio (outcome : nat -> result unit)
    (input_sample_rate : Z) (chunks : list bytes)
  : list upstream_call * pump_end :=
  send_audio_from outcome 0 input_sample_rate chunks.

(** The upstream session accepts a call or raises. *)
Variable session : upstream_call -> result unit.

(** lines 183-192: one record of a tool response *)
Definition function_response (r : json) : result FunctionResponse :=
  n ← get r "name" JNull;
  i ← get r "id" JNull;
  p ← get r "response" (JObj [("result", JStr "ok")]);
  mkFunctionResponse n i p.

(** lines 166-195: the call that one message of [text_input_queue] leads
    to, if any *)
Definition send_text_body (msg : json) : result (option upstream_call) :=
  msg_type ← get msg "type" JNull;
  if is_str "client_content" msg_type then
    turns_text ← get msg "turns" (JStr "");
    end_of_turn ← get msg "turnComplete" (JBool false);
    Return (Some (send turns_text end_of_turn))
  else if is_str "tool_response" msg_type then
    fr ← get msg "functionResponses" JNull;
    match fr with
    | JNull => Return None                                  (* continue *)
    | _ =>
        let fr := match fr with JObj _ => JArr [fr] | _ => fr end in
        items ← iter fr;
        function_responses ← comprehension function_response items;
        Return (Some (send_tool_response function_responses))
    end
  else Return None.

(** lines 163-197: [msgs] are the items the task takes from
    [text_input_queue] before it is cancelled *)
Fixpoint send_text (msgs : list json) : list upstream_call * pump_end :=
  match msgs with
  | [] => ([], Cancelled)
  | msg :: rest =>
      match send_text_body msg with
      | Raise e => ([], pump_end_of e)
      | Return None => send_text rest
      | Return (Some call) =>
          match session call with
          | Return _ => let '(calls, e) := send_text rest in (call :: calls, e)
          | Raise e => ([call], pump_end_of e)
          end
      end
  end.

End Forwarding.

(** *** What comes from upstream: [LiveServerMessage] and its parts.
    Every field is optional in the library. *)

Record Blob := { data : option bytes }.
Record ModelPart := { inline_data : option Blob }.
Record ModelTurn := { turn_parts : option (list ModelPart) }.
Record Transcription := { transcript : option string }.
Record LiveServerContent := {
  model_turn : option ModelTurn;
  input_transcription : option Transcription;
  output_transcription : option Transcription;
  turn_complete : option bool;
  interrupted : option bool
}.
Record FunctionCall := {
  fc_name : option string;
  fc_args : option (list (string * json));
  fc_id : option string
}.
Record LiveServerToolCall := { function_calls : option (list FunctionCall) }.
Record LiveServerMessage := {
  server_content : option LiveServerContent;
  tool_call : option LiveServerToolCall
}.

(** *** The events of [event_queue] *)

Inductive event : Type :=
| Audio (payload : option bytes)       (* {"_type": "audio", "data": ...} *)
| SetupComplete                        (* {"_type": "setup_complete"} *)
| Error (error : string)               (* {"_type": "error", "error": ...} *)
| Forward (j : json).                  (* any other dict *)

(** An item of the queue: an event, or [None] for the end of the session. *)
Abbreviation item := (option event).
Abbreviation queue := (list item).

(** [await event_queue.put(x)]: the queue is unbounded *)
Definition put (x : item) : prog queue unit := fun q => (Return tt, q ++ [x]).

Definition opt_str (s : option string) : json :=
  match s with Some x => JStr x | None => JNull end.

(** [for x in xs] where [xs] may be [None] *)
Definition iter_optional {A} (xs : option (list A)) : result (list A) :=
  match xs with Some l => Return l | None => Raise TypeError end.

Definition inputTranscription (t : Transcription) : event :=
  Forward (JObj [("serverContent",
    JObj [("inputTranscription", JObj [("text", opt_str (transcript t))])])]).
Definition outputTranscription (t : Transcription) : event :=
  Forward (JObj [("serverContent",
    JObj [("outputTranscription", JObj [("text", opt_str (transcript t))])])]).
Definition turnComplete : event :=
  Forward (JObj [("serverContent", JObj [("turnComplete", JBool true)])]).
Definition interrupted_event : event :=
  Forward (JObj [("serverContent", JObj [("interrupted", JBool true)])]).

(** lines 259-265; [fc.args or {}] *)
Definition client_tool_call (fc : FunctionCall) : json :=
  JObj [("name", opt_str (fc_name fc));
        ("args", JObj (match fc_args fc with Some a => a | None => [] end));
        ("id", opt_str (fc_id fc))].
Definition toolCall (fcs : list FunctionCall) : event :=
  Forward (JObj [("toolCall",
    JObj [("functionCalls", JArr (map client_tool_call fcs))])]).

(** [if x:] on an optional object, and on an optional boolean *)
Definition when_present {A} (x : option A) (body : A -> prog queue unit)
  : prog queue unit :=
  match x with Some a => body a | None => skip end.
Definition when_true (x : option bool) (body : prog queue unit)
  : prog queue unit :=
  match x with Some true => body | _ => skip end.

(** lines 210-217: the audio of the model turn *)
Definition model_audio (mt : ModelTurn) : prog queue unit :=
  parts <- eval (iter_optional (turn_parts mt)) ;;
  for_each parts (fun part =>
    when_present (inline_data part) (fun blob =>
      put (Some (Audio (data blob))))).

(** lines 208-253: [if server_content:] *)
Definition on_server_content (sc : LiveServerContent) : prog queue unit :=
  when_present (model_turn sc) model_audio ;;;
  when_present (input_transcription sc) (fun t =>
    put (Some (inputTranscription t))) ;;;
  when_present (output_transcription sc) (fun t =>
    put (Some (outputTranscription t))) ;;;
  when_true (turn_complete sc) (put (Some turnComplete)) ;;;
  when_true (interrupted sc) (put (Some interrupted_event)).

(** lines 256-272: [if tool_call:] *)
Definition on_tool_call (tc : LiveServerToolCall) : prog queue unit :=
  fcs <- eval (iter_optional (function_calls tc)) ;;
  put (Some (toolCall fcs)).

(** lines 204-272: the body of the [async for] *)
Definition on_response (response : LiveServerMessage) : prog queue unit :=
  when_present (server_content response) on_server_content ;;;
  when_present (tool_call response) on_tool_call.

(** The events of one message in the order the specification lists them:
    one audio event per model part with inline data, then the input
    transcription, the output transcription, turn-complete, interruption,
    and the tool-call request.  A substructure that is absent gives no
    event. *)
Definition audio_of (parts : list ModelPart) : list event :=
  flat_map (fun part =>
    match inline_data part with
    | Some blob => [Audio (data blob)]
    | None => []
    end) parts.

Definition of_content (f : LiveServerContent -> list event)
    (response : LiveServerMessage) : list event :=
  match server_content response with Some sc => f sc | None => [] end.

Definition audio_events : LiveServerMessage -> list event :=
  of_content (fun sc =>
    match model_turn sc with
    | Some mt => match turn_parts mt with Some ps => audio_of ps | None => [] end
    | None => []
    end).
Definition input_events : LiveServerMessage -> list event :=
  of_content (fun sc =>
    match input_transcription sc with
    | Some t => [inputTranscription t]
    | None => []
    end).
Definition output_events : LiveServerMessage -> list event :=
  of_content (fun sc =>
    match output_transcription sc with
    | Some t => [outputTranscription t]
    | None => []
    end).
Definition turn_complete_events : LiveServerMessage -> list event :=
  of_content (fun sc =>
    match turn_complete sc with Some true => [turnComplete] | _ => [] end).
Definition interrupted_events : LiveServerMessage -> list event :=
  of_content (fun sc =>
    match interrupted sc with Some true => [interrupted_event] | _ => [] end).
Definition tool_call_events (response : LiveServerMessage) : list event :=
  match tool_call response with
  | Some tc =>
      match function_calls tc with Some fcs => [toolCall fcs] | None => [] end
  | None => []
  end.

Definition detection_order (response : LiveServerMessage) : list event :=
  audio_events response ++ input_events response ++ output_events response ++
  turn_complete_events response ++ interrupted_events response ++
  tool_call_events response.

(** One iteration over [session.receive()]: the messages it yields, then
    it is exhausted or raises. *)
Inductive stream : Type :=
| Exhausted
| Yield (response : LiveServerMessage) (rest : stream)
| Fails (e : exn).

(** line 203: [async for response in session.receive(): ...] *)
Fixpoint consume (s : stream) : prog queue unit :=
  match s with
  | Exhausted => skip
  | Yield response rest => on_response response ;;; consume rest
  | Fails e => eval (Raise e)
  end.

(** line 202: [while True] around the iteration.  [upstream n] is what the
    [n]-th call of [session.receive()] gives; [fuel] bounds the number of
    iterations the model follows.  The loop has no exit of its own: the
    result is the exception that left it, or [None] when it is still
    running after [fuel] iterations. *)
Fixpoint while_True (upstream : nat -> stream) (fuel n : nat)
  : queue -> option exn * queue :=
  fun q =>
    match fuel with
    | O => (None, q)
    | S fuel' =>
        match consume (upstream n) q with
        | (Return _, q') => while_True upstream fuel' (S n) q'
        | (Raise e, q') => (Some e, q')
        end
    end.

(** How the receive task stands. *)
Inductive receive_state : Type :=
| Receiving                  (* still in the loop *)
| Returned                   (* left through the handler of line 274 *)
| Propagated (e : exn).      (* an exception that is no [Exception] *)

Section Receive.
(** [str(e)] *)
Variable str : exn -> string.

(** lines 200-280 *)
Definition receive_loop (upstream : nat -> stream) (fuel : nat)
  : queue -> receive_state * queue :=
  fun q =>
    match while_True upstream fuel 0 q with
    | (None, q') => (Receiving, q')
    | (Some e, q') =>
        if is_Exception e
        then (Returned, q' ++ [Some (Error (str e))] ++ [None])
        else (Propagated e, q' ++ [None])
    end.

End Receive.

(** *** Notions used in the statements about the tasks *)

(** The generic marker of line 189 *)
Definition result_ok : json := JObj [("result", JStr "ok")].

(** What a record of a tool response is forwarded as: its name and id as
    they are ([None] when absent), its [response] when it has the key and
    the marker otherwise. *)
Definition forwarded (r : list (string * json)) : FunctionResponse :=
  {| fr_name := default JNull (assoc "name" r);
     fr_id := default JNull (assoc "id" r);
     fr_response := default result_ok (assoc "response" r) |}.

(** The library accepts the record as forwarded. *)
Definition acceptable {G : Genai} (r : list (string * json)) : Prop :=
  accepts_response (fr_name (forwarded r)) (fr_id (forwarded r))
    (fr_response (forwarded r)) = true.

(** The message the ingress task queues for a tool response (lines
    161-168 of [main.py]) *)
Definition tool_response_msg (fr : json) : json :=
  JObj [("type", JStr "tool_response"); ("functionResponses", fr)].

(** A statement emits [evs] when it appends these events, and nothing
    else, to the queue it runs on. *)
Definition emits {A} (m : prog queue A) (res : result A) (evs : list event)
  : Prop :=
  forall q, m q = (res, q ++ map Some evs).

(** What [on_server_content] emits after the audio. *)
Definition after_audio (sc : LiveServerContent) : list event :=
  match input_transcription sc with
  | Some t => [inputTranscription t] | None => [] end ++
  match output_transcription sc with
  | Some t => [outputTranscription t] | None => [] end ++
  match turn_complete sc with Some true => [turnComplete] | _ => [] end ++
  match interrupted sc with Some true => [interrupted_event] | _ => [] end.

(** The two loops of the body run over optional lists: the message is
    iterable when the parts of its model turn and the calls of its tool
    call are lists. *)
Definition parts_iterable (response : LiveServerMessage) : bool :=
  match server_content response with
  | Some sc =>
      match model_turn sc with
      | Some mt => bool_decide (is_Some (turn_parts mt))
      | None => true
      end
  | None => true
  end.

Definition calls_iterable (response : LiveServerMessage) : bool :=
  match tool_call response with
  | Some tc => bool_decide (is_Some (function_calls tc))
  | None => true
  end.

Definition iterable (response : LiveServerMessage) : bool :=
  parts_iterable response && calls_iterable response.

End Pumps.

(** ** [auth.py]: the token of a WebSocket connection *)

Module Auth.
Import Py.

(** What [verify_ws_token] reads of the connection.  Header names are in
    lower case, as the server hands them over. *)
Record WebSocket := {
  query_params : list (string * string);
  headers : list (string * string)
}.

(** [headers.get(k)]: the value of the first header of that name *)
Fixpoint first_value (k : string) (l : list (string * string)) : option string :=
  match l with
  | [] => None
  | (k', v) :: rest => if String.eqb k k' then Some v else first_value k rest
  end.

(** [query_params.get(k)]: a parameter that is given several times has the
    value given last *)
Fixpoint last_value (k : string) (l : list (string * string)) : option string :=
  match l with
  | [] => None
  | (k', v) :: rest =>
      match last_value k rest with
      | Some later => Some later
      | None => if String.eqb k k' then Some v else None
      end
  end.

Definition lower_char (c : ascii) : ascii :=
  let n := nat_of_ascii c in
  if ((65 <=? n) && (n <=? 90))%nat then ascii_of_nat (n + 32) else c.

(** [s.lower()] *)
Fixpoint lower (s : string) : string :=
  match s with
  | EmptyString => EmptyString
  | String c rest => String (lower_char c) (lower rest)
  end.

(** [s[n:]] *)
Fixpoint from (n : nat) (s : string) : string :=
  match n, s with
  | O, _ => s
  | S n', String _ rest => from n' rest
  | S _, EmptyString => EmptyString
  end.

(** [not token] for a token that is a [str] or [None] *)
Definition missing (token : option string) : bool :=
  match token with None => true | Some t => String.eqb t "" end.

Section Verify.
(** [verify_firebase_token] checks the signature, the issuer, the audience
    and the expiry with the JWT and X.509 libraries: it returns the decoded
    claims or raises. *)
Variable verify_firebase_token : string -> result (list (string * json)).

(** lines 159-171 *)
Definition verify_ws_token (websocket : WebSocket)
  : result (list (string * json)) :=
  let token := last_value "token" (query_params websocket) in
  let token :=
    if missing token then
      let auth_header :=
        default "" (first_value "authorization" (headers websocket)) in
      if String.prefix "bearer " (lower auth_header)
      then Some (from 7 auth_header) else token
    else token in
  match token with
  | Some t =>
      if String.eqb t "" then Raise (ValueError "Missing auth token")
      else verify_firebase_token t
  | None => Raise (ValueError "Missing auth token")
  end.

End Verify.
End Auth.

(** ** [main.py]: the WebSocket endpoint *)

Module Main.
Import Py types Translator Pumps Auth.

(** *** The client ingress task *)

(** A message of [websocket.receive()].  A text message is given by what
    [json.loads] makes of its text. *)
Inductive ws_message : Type :=
| BytesMessage (chunk : bytes)           (* message["bytes"], maybe empty *)
| TextMessage (decoded : result json)    (* a text that is not empty *)
| OtherMessage.                          (* neither bytes nor text *)

(** [list(payload.keys())]: the argument of the logging call of lines
    171-174, evaluated whatever the log level is *)
Definition keys (payload : json) : result (list json) :=
  match payload with
  | JObj members => Return (map (fun kv => JStr kv.1) members)
  | _ => Raise AttributeError
  end.

(** lines 144-177: the item put on [text_input_queue] for a text message,
    if any; only [JSONDecodeError] is caught here *)
Definition on_text (decoded : result json) : result (option json) :=
  match decoded with
  | Raise JSONDecodeError => Return None
  | Raise e => Raise e
  | Return payload =>
      is_content ← contains "clientContent" payload;
      if is_content : bool then
        cc ← getitem payload "clientContent";
        turns ← get cc "turns" (JStr "");
        turnComplete ← get cc "turnComplete" (JBool false);
        Return (Some (JObj [("type", JStr "client_content");
                            ("turns", turns);
                            ("turnComplete", turnComplete)]))
      else
        is_response ← contains "toolResponse" payload;
        if is_response : bool then
          tr ← getitem payload "toolResponse";
          fr ← get tr "functionResponses" JNull;
          Return (Some (JObj [("type", JStr "tool_response");
                              ("functionResponses", fr)]))
        else
          _ ← keys payload;                         (* logger.debug *)
          Return None
  end.

(** lines 134-182: [messages] are received one after the other, then
    [websocket.receive()] raises [last] (a disconnect, a transport error or
    the cancellation).  The result is what was put on the audio queue and
    on the text queue, and the exception that ended the loop. *)
Fixpoint receive_from_client (messages : list ws_message) (last : exn)
  : list bytes * list json * exn :=
  match messages with
  | [] => ([], [], last)
  | message :: rest =>
      match message with
      | BytesMessage chunk =>
          let '(audio, texts, e) := receive_from_client rest last in
          match chunk with
          | [] => (audio, texts, e)
          | _ => (chunk :: audio, texts, e)
          end
      | TextMessage decoded =>
          match on_text decoded with
          | Raise e => ([], [], e)
          | Return None => receive_from_client rest last
          | Return (Some msg) =>
              let '(audio, texts, e) := receive_from_client rest last in
              (audio, msg :: texts, e)
          end
      | OtherMessage => receive_from_client rest last
      end
  end.

(** The control path of one decoded text message: the item the ingress
    task puts on [text_input_queue], then the call the control-forward task
    makes for it. *)
Definition control_path {G : Genai} (payload : json)
  : result (option upstream_call) :=
  queued ← on_text (Return payload);
  match queued with
  | Some msg => send_text_body msg
  | None => Return None
  end.

(** *** What the endpoint does, as the sequence of its actions *)

Inductive task : Type :=
| Ingress | AudioForward | ControlForward | Receive | Egress.

(** Who writes on the client transport: [run_session] (the egress loop) or
    the endpoint itself. *)
Inductive writer : Type := ByEgress | BySupervisor.

Inductive frame : Type :=
| BinaryFrame (payload : option bytes)     (* send_bytes *)
| TextFrame (j : json).                    (* send_json *)

Inductive action : Type :=
| Accept                                   (* websocket.accept() *)
| CloseTransport (code : Z) (reason : string)   (* websocket.close(...) *)
| NewQueues                                (* lines 128-129 *)
| Start (t : task)                         (* create_task; wait_for(run_session()) *)
| Stop (t : task)                          (* cancel(); the coroutine ends *)
| Connect (config : config_args)           (* client.aio.live.connect(...) *)
| Disconnect                               (* the end of the [async with] *)
| Enqueue (x : item)                       (* event_queue.put(x) *)
| Finalize                                 (* aclose() of an abandoned generator *)
| Transmit (who : writer) (f : frame).

(** Close codes *)
Definition AUTH_FAILED : Z := 4001.
Definition SETUP_FAILED : Z := 4000.
Definition NORMAL_CLOSURE : Z := 1000.   (* the default of websocket.close() *)

(** *** The surroundings of one connection *)

(** The first message, within the 15 seconds of line 109. *)
Inductive first_frame : Type :=
| NoFrame                                (* asyncio.TimeoutError *)
| ReceiveFailed (e : exn)                (* receive_text raised *)
| FirstText (decoded : result json).     (* json.loads(raw) *)

Inductive connect_outcome : Type :=
| Connected
| ConnectFailed (e : exn)
| ConnectStalled.                (* the deadline passes during the connect *)

Inductive send_outcome : Type :=
| Delivered
| Broken (e : exn)
| Stalled.                       (* the deadline passes during the send *)

(** The schedule of an open session: the receive task puts an item on
    [event_queue], or the consumer of lines 286-291 runs and [run_session]
    sends what it got.  The deadline passes when the schedule is over. *)
Inductive tick : Type :=
| Produce (x : item)
| Consume (o : send_outcome).

Record environment := {
  first : first_frame;
  connecting : connect_outcome;
  ticks : list tick;
  notifying : result unit;       (* the send_json of line 222 *)
  closing : result unit          (* websocket.close() *)
}.

(** lines 200-215: the frame for an event *)
Definition frame_of (ev : event) : frame :=
  match ev with
  | Audio payload => BinaryFrame payload
  | SetupComplete => TextFrame (JObj [("setupComplete", JBool true)])
  | Error error => TextFrame (JObj [("error", JStr error)])
  | Forward j => TextFrame j
  end.

(** How [wait_for(run_session(), ...)] ends.  [abandoned] tells that the
    generator of [start_session] was left suspended at its [yield]. *)
Inductive session_end : Type :=
| Ended
| Failed (e : exn) (abandoned : bool)
| Expired (abandoned : bool).

Definition abandoned_of (e : session_end) : bool :=
  match e with Ended => false | Failed _ b => b | Expired b => b end.

(** The frame of line 222 *)
Definition time_limit_notice : frame :=
  TextFrame (JObj [("error", JStr "Session time limit reached")]).

(** [gemini_live.py], lines 292-295 and the end of the [async with] *)
Definition cleanup : list action :=
  [Stop AudioForward; Stop ControlForward; Stop Receive; Disconnect].

(** [gemini_live.py] lines 286-291 with [main.py] lines 197-215, over the
    schedule.  A consumer that finds the queue empty stays in
    [event_queue.get()]; the cancellation reaches it there and the
    [finally] of line 292 runs. *)
Fixpoint event_loop (schedule : list tick) (q : queue)
  : list action * session_end :=
  match schedule with
  | [] => (cleanup, Expired false)
  | Produce x :: rest =>
      let '(tr, e) := event_loop rest (q ++ [x]) in (Enqueue x :: tr, e)
  | Consume o :: rest =>
      match q with
      | [] => event_loop rest q
      | None :: _ => (cleanup, Ended)
      | Some ev :: q' =>
          let sent := Transmit ByEgress (frame_of ev) in
          match o with
          | Delivered => let '(tr, e) := event_loop rest q' in (sent :: tr, e)
          | Broken e => ([sent], Failed e true)
          | Stalled => ([sent], Expired true)
          end
      end
  end.

Section Endpoint.
Context {G : Genai}.
Variable str : exn -> string.
Variable verify_firebase_token : string -> result (list (string * json)).

(** [gemini_live.py] lines 48-146 and 282-284, then the loop *)
Definition run_session (setup_config : json) (env : environment)
  : list action * session_end :=
  match live_connect_config setup_config with
  | Raise e => ([], Failed e false)
  | Return config =>
      match connecting env with
      | ConnectFailed e => ([Connect config], Failed e false)
      | ConnectStalled => ([Connect config], Expired false)
      | Connected =>
          let '(tr, e) := event_loop (ticks env) [Some SetupComplete] in
          ([Connect config; Enqueue (Some SetupComplete);
            Start AudioForward; Start ControlForward; Start Receive] ++ tr, e)
      end
  end.

(** lines 108-123: the value of [setup_config], or the exception of the
    [try] *)
Definition await_setup (f : first_frame) : result json :=
  match f with
  | NoFrame => Raise TimeoutError
  | ReceiveFailed e => Raise e
  | FirstText decoded =>
      data ← decoded;
      present ← contains "setup" data;
      if present : bool then getitem data "setup" else Return JNull
  end.

(** [except Exception: pass] around a call *)
Definition swallow (r : result unit) : result unit :=
  match r with
  | Raise e => if is_Exception e then Return tt else Raise e
  | Return _ => Return tt
  end.

(** lines 229-235: the [finally]; [pending] is the exception on its way
    out, if any *)
Definition teardown (env : environment) (pending : result unit)
  : list action * result unit :=
  ([Stop Ingress; CloseTransport NORMAL_CLOSURE ""],
   match swallow (closing env) with
   | Raise e => Raise e
   | Return _ => pending
   end).

(** What the runtime does with an abandoned generator: it closes it, which
    runs the [finally] of [start_session].  When it does so is up to the
    runtime; the sequence of actions has it after the endpoint's own
    teardown.  The end of the [async with] is taken to return. *)
Definition finalizer (abandoned : bool) : list action :=
  if abandoned then Finalize :: cleanup else [].

(** lines 219-226, then the [finally]: the handler of
    [asyncio.TimeoutError] *)
Definition time_limit (env : environment) : list action * result unit :=
  let '(td, r) := teardown env (swallow (notifying env)) in
  (Transmit BySupervisor time_limit_notice :: td, r).

(** lines 217-235.  [asyncio.TimeoutError] is the built-in [TimeoutError]:
    the first handler also takes a [TimeoutError] that [run_session]
    raised itself.  [GeminiLive(...)] of line 189 is taken to return. *)
Definition after_session (e : session_end) (env : environment)
  : list action * result unit :=
  match e with
  | Ended => teardown env (Return tt)
  | Expired _ | Failed TimeoutError _ => time_limit env
  | Failed e _ =>
      teardown env (if is_Exception e then Return tt else Raise e)
  end.

Definition supervise (setup_config : json) (env : environment)
  : list action * result unit :=
  let '(tr, e) := run_session setup_config env in
  let '(handled, r) := after_session e env in
  (Start Egress :: tr ++ Stop Egress :: handled ++ finalizer (abandoned_of e),
   r).

(** lines 70-235 *)
Definition websocket_endpoint (websocket : WebSocket) (env : environment)
  : list action * result unit :=
  match verify_ws_token verify_firebase_token websocket with
  | Raise e =>
      if is_ValueError e
      then ([Accept; CloseTransport AUTH_FAILED ("Auth failed: " +:+ str e)],
            closing env)
      else ([], Raise e)
  | Return claims =>
      match await_setup (first env) with
      | Raise e =>
          match e with
          | TimeoutError =>
              ([Accept; CloseTransport SETUP_FAILED "Setup timeout"],
               closing env)
          | _ =>
              if is_Exception e
              then ([Accept; CloseTransport SETUP_FAILED "Invalid setup"],
                    closing env)
              else ([Accept], Raise e)
          end
      | Return setup_config =>
          let '(tr, r) := supervise setup_config env in
          (Accept :: NewQueues :: Start Ingress :: tr, r)
      end
  end.

End Endpoint.

(** The tasks still running after a sequence of actions. *)
Definition task_eqb (a b : task) : bool :=
  match a, b with
  | Ingress, Ingress | AudioForward, AudioForward
  | ControlForward, ControlForward | Receive, Receive | Egress, Egress => true
  | _, _ => false
  end.

Fixpoint running (live : list task) (tr : list action) : list task :=
  match tr with
  | [] => live
  | Start t :: rest => running (t :: live) rest
  | Stop t :: rest =>
      running (List.filter (fun x => negb (task_eqb x t)) live) rest
  | _ :: rest => running live rest
  end.

(** The frames a writer put on the transport, in order. *)
Fixpoint written (who : writer) (tr : list action) : list frame :=
  match tr with
  | [] => []
  | Transmit w f :: rest =>
      match w, who with
      | ByEgress, ByEgress | BySupervisor, BySupervisor => f :: written who rest
      | _, _ => written who rest
      end
  | _ :: rest => written who rest
  end.

(** *** Notions used in the statements about the endpoint *)

(** The events of a queue up to the sentinel *)
Fixpoint events_before_sentinel (q : queue) : list event :=
  match q with
  | Some ev :: rest => ev :: events_before_sentinel rest
  | _ => []
  end.

(** The items the receive task puts during a schedule *)
Fixpoint produced (schedule : list tick) : queue :=
  match schedule with
  | [] => []
  | Produce x :: rest => x :: produced rest
  | Consume _ :: rest => produced rest
  end.

(** The setup-complete frame, as the client gets it *)
Definition setupComplete : frame :=
  TextFrame (JObj [("setupComplete", JBool true)]).

(** The reason given with code 4000 *)
Definition setup_reason (e : exn) : string :=
  match e with TimeoutError => "Setup timeout" | _ => "Invalid setup" end.

Definition is_enqueue (a : action) : bool :=
  match a with Enqueue _ => true | _ => false end.

Definition starts_pump (a : action) : bool :=
  match a with
  | Start AudioForward | Start ControlForward | Start Receive => true
  | _ => false
  end.

(** Neither a [put] on the event queue nor the start of one of the three
    tasks of [start_session] *)
Definition quiet (a : action) : Prop :=
  is_enqueue a = false /\ starts_pump a = false.

(** All the frames put on the transport, in order *)
Fixpoint transmitted (tr : list action) : list frame :=
  match tr with
  | [] => []
  | Transmit _ f :: rest => f :: transmitted rest
  | _ :: rest => transmitted rest
  end.

End Main.

(** ** Sample connections and surroundings, for the closed runs *)

Module Samples.

(** A message that only completes a turn *)
Definition turn_done : Pumps.LiveServerMessage :=
  {| Pumps.server_content := Some
       {| Pumps.model_turn := None;
          Pumps.input_transcription := None;
          Pumps.output_transcription := None;
          Pumps.turn_complete := Some true;
          Pumps.interrupted := None |};
     Pumps.tool_call := None |}.

Definition sample_str (e : Py.exn) : string :=
  match e with
  | Py.ValueError m | Py.OtherError m => m
  | _ => "error"
  end.

Definition sample_verify (token : string)
  : Py.result (list (string * Py.json)) :=
  if String.eqb token "good" then Py.Return [("sub", Py.JStr "user-1")]
  else Py.Raise (Py.ValueError "Invalid token").

Definition client : Auth.WebSocket :=
  {| Auth.query_params := [("token", "good")]; Auth.headers := [] |}.

Definition anonymous : Auth.WebSocket :=
  {| Auth.query_params := []; Auth.headers := [] |}.

(** The client sends an object without [setup]; the upstream connects,
    the setup-complete event is delivered, and the session is idle until
    the deadline. *)
Definition env_without_setup : Main.environment :=
  {| Main.first :=
       Main.FirstText (Py.Return (Py.JObj [("hello", Py.JStr "world")]));
     Main.connecting := Main.Connected;
     Main.ticks := [Main.Consume Main.Delivered];
     Main.notifying := Py.Return tt;
     Main.closing := Py.Return tt |}.

(** The client sends nothing in time. *)
Definition env_silent : Main.environment :=
  {| Main.first := Main.NoFrame;
     Main.connecting := Main.Connected;
     Main.ticks := [];
     Main.notifying := Py.Return tt;
     Main.closing := Py.Return tt |}.

(** A session that is idle until the deadline; the client has gone, so
    the notice cannot be sent. *)
Definition env_deadline : Main.environment :=
  {| Main.first := Main.FirstText (Py.Return (Py.JObj [("setup", Py.JObj [])]));
     Main.connecting := Main.Connected;
     Main.ticks := [Main.Consume Main.Delivered];
     Main.notifying := Py.Raise (Py.OtherError "connection closed");
     Main.closing := Py.Return tt |}.

Definition default_config : gmap string types.config_value :=
  {[ "response_modalities" := types.Modalities [types.AUDIO] ]}.

End Samples.

(** ** [auth.py]: the certificate cache and the verification of a token *)

Module Firebase.
Import Py.

(** [len(v)]: the number is only logged; [None], a boolean and a number
    have no length. *)
Definition len (v : json) : result unit :=
  match v with
  | JStr _ | JArr _ | JObj _ => Return tt
  | JNull | JBool _ | JInt _ | JFloat _ => Raise TypeError
  end.

(** *** The cache of Google's certificates *)

Section Cache.
(** The readings of [time.time()] are floats; the code only compares them
    and adds the time to live. *)
Variable time : Type.
Variable before : time -> time -> bool.       (* a < b *)
Variable after_ttl : time -> time.            (* t + _CERT_CACHE_TTL *)

(** The two globals of lines 34-35 *)
Record cache := { _certs : json; _certs_expiry : time }.

(** lines 39-62, one call at a time.  [now], [again] and [stamp] are the
    readings of the clock at lines 42, 48 and 53; [fetched] is what
    [urlopen], [read] and [json.loads] give at lines 51-52.  The result is
    what the call returns or raises, and the globals after it. *)
Definition _fetch_google_certs (now again stamp : time)
    (fetched : result json) (c : cache) : result json * cache :=
  if truthy (_certs c) && before now (_certs_expiry c)
  then (Return (_certs c), c)
  else if truthy (_certs c) && before again (_certs_expiry c)
  then (Return (_certs c), c)
  else
    match fetched with
    | Return v =>
        let c' := {| _certs := v; _certs_expiry := after_ttl stamp |} in
        match len v with                       (* the argument of line 55 *)
        | Return _ => (Return v, c')
        | Raise e => if truthy v then (Return v, c') else (Raise e, c')
        end
    | Raise e =>
        if is_Exception e && truthy (_certs c)
        then (Return (_certs c), c)            (* stale is better than nothing *)
        else (Raise e, c)
    end.

End Cache.
Arguments _certs {time} c.
Arguments _certs_expiry {time} c.

(** *** The verification of a token *)

(** What the JWT library raises, with the text of the exception: the
    classes of the [InvalidTokenError] family that the code tells apart
    (each with its subclasses), any other member of the family, and
    anything else. *)
Inductive jwt_error : Type :=
| DecodeError (msg : string)
| ExpiredSignatureError (msg : string)
| InvalidAudienceError (msg : string)
| InvalidIssuerError (msg : string)
| InvalidTokenError (msg : string)
| NotOfTheFamily (e : exn).

(** The exception as it goes on when no handler takes it: a member of
    the family is an [Exception] and no [ValueError]. *)
Definition unhandled (err : jwt_error) : exn :=
  match err with
  | NotOfTheFamily e => e
  | DecodeError msg | ExpiredSignatureError msg | InvalidAudienceError msg
  | InvalidIssuerError msg | InvalidTokenError msg => OtherError msg
  end.

Section Verify.
(** The libraries: the header of a token without verification, the public
    key of a PEM certificate, and the decoding of a token under a key with
    the checks of lines 102-109 (RS256, audience, issuer, required
    claims). *)
Variable key : Type.
Variable get_unverified_header : string -> jwt_error + list (string * json).
Variable public_key : string -> result key.
Variable decode : string -> key -> jwt_error + list (string * json).

(** lines 91-93: [not kid or kid not in certs], for a table of
    certificates that is a dict.  A list or a dict is not hashable; a
    number or a boolean is, and is not a key of the table. *)
Definition unknown_key (kid : json) (certs : list (string * json))
  : result bool :=
  if negb (truthy kid) then Return true
  else
    match kid with
    | JStr k => Return (negb (bool_decide (is_Some (assoc k certs))))
    | JArr _ | JObj _ => Raise TypeError
    | JNull | JBool _ | JInt _ | JFloat _ => Return true
    end.

(** [certs[kid]] *)
Definition subscript (certs : list (string * json)) (kid : json)
  : result json :=
  match kid with
  | JStr k => getitem (JObj certs) k
  | JArr _ | JObj _ => Raise TypeError
  | JNull | JBool _ | JInt _ | JFloat _ => Raise KeyError
  end.

(** lines 83-122.  [certs] is what [_fetch_google_certs()] gives at line
    83: a dict (as the function is annotated) or an exception. *)
Definition verify_firebase_token (certs : result (list (string * json)))
    (id_token : string) : result (list (string * json)) :=
  certs ← certs;
  header ← match get_unverified_header id_token with
           | inr h => Return h
           | inl (DecodeError msg) =>
               Raise (ValueError ("Malformed token header: " +:+ msg))
           | inl err => Raise (unhandled err)
           end;
  let kid := default JNull (assoc "kid" header) in
  unknown ← unknown_key kid certs;
  if unknown : bool then Raise (ValueError "Token signed with unknown key")
  else
    cert_pem ← subscript certs kid;
    pem ← match cert_pem with
          | JStr s => Return s
          | _ => Raise AttributeError               (* cert_pem.encode() *)
          end;
    k ← public_key pem;
    decoded ← match decode id_token k with
              | inr claims => Return claims
              | inl (ExpiredSignatureError _) =>
                  Raise (ValueError "Token has expired")
              | inl (InvalidAudienceError _) =>
                  Raise (ValueError "Token audience mismatch")
              | inl (InvalidIssuerError _) =>
                  Raise (ValueError "Token issuer mismatch")
              | inl (InvalidTokenError msg) | inl (DecodeError msg) =>
                  Raise (ValueError ("Invalid token: " +:+ msg))
              | inl (NotOfTheFamily e) => Raise e
              end;
    if truthy (default JNull (assoc "sub" decoded))
    then Return decoded
    else Raise (ValueError "Token missing subject (uid)").

(** The token passed the check of its signature and of its standard
    claims under a certificate of Google: the table of certificates was
    obtained, the header of the token names a key of the table by a string
    that is not empty, the certificate of that key gave a public key,
    [jwt.decode] returned the claims under that key, and the claims have a
    subject that is not empty. *)
Definition checked (certs : result (list (string * json)))
    (id_token : string) (claims : list (string * json)) : Prop :=
  exists table header kid pem k,
    certs = Return table /\
    get_unverified_header id_token = inr header /\
    assoc "kid" header = Some (JStr kid) /\ kid <> "" /\
    assoc kid table = Some (JStr pem) /\
    public_key pem = Return k /\
    decode id_token k = inr claims /\
    truthy (default JNull (assoc "sub" claims)) = true.


(** What [require_auth] gives to the route: the claims, an HTTP error
    (raised with the header [WWW-Authenticate: Bearer]), or an exception
    that goes on. *)
Inductive dependency : Type :=
| Claims (claims : list (string * json))
| HTTPException (status_code : Z) (detail : string)
| Uncaught (e : exn).

(** lines 132-156.  [credentials] is the token of the [Authorization:
    Bearer] header, if the request has one; [str] is [str(e)]. *)
Definition require_auth (str : exn -> string)
    (certs : result (list (string * json))) (credentials : option string)
  : dependency :=
  match credentials with
  | None => HTTPException 401 "Missing authentication token"
  | Some token =>
      if String.eqb token ""
      then HTTPException 401 "Missing authentication token"
      else
        match verify_firebase_token certs token with
        | Return claims => Claims claims
        | Raise e =>
            if is_ValueError e then HTTPException 401 (str e) else Uncaught e
        end
  end.

End Verify.
End Firebase.

(** ** Further notions about the translator *)

Module Fields.
Import Py Py.ProgNotations types Translator.

(** The fields of the setup object that lines 56-136 read *)
Definition setup_fields : list string :=
  ["responseModalities"; "systemInstruction"; "tools";
   "contextWindowCompression"; "outputAudioTranscription";
   "inputAudioTranscription"; "speechConfig"].

(** Two setup objects agree on a list of fields. *)
Definition agree_on (fields : list string) (m1 m2 : list (string * json))
  : Prop :=
  Forall (fun k => assoc k m1 = assoc k m2) fields.

(** The fields but one *)
Definition fields_but (k : string) : list string :=
  List.filter (fun f => negb (String.eqb f k)) setup_fields.

(** The keyword of [types.LiveConnectConfig] that a value is meant for,
    with the shape the translator gives it: one [Part], one [Tool]. *)
Definition kind_ok (k : string) (v : config_value) : Prop :=
  match v with
  | Modalities _ => k = "response_modalities"
  | SystemInstruction c => k = "system_instruction" /\ length (parts c) = 1%nat
  | Tools ts => k = "tools" /\ length ts = 1%nat
  | SlidingWindowCompression => k = "context_window_compression"
  | AudioTranscriptionConfig =>
      k = "output_audio_transcription" \/ k = "input_audio_transcription"
  | PrebuiltVoice _ => k = "speech_config"
  end.

Definition well_formed (d : config_args) : Prop :=
  forall k v, d !! k = Some v -> kind_ok k v.

(** A statement maintains a property of the dictionary, whether it
    completes or raises. *)
Definition maintains {A} (P : config_args -> Prop) (m : prog config_args A)
  : Prop :=
  forall d, P d -> P (m d).2.

(** A statement does not read the dictionary: how it ends does not depend
    on it, and two dictionaries that agree on a key still agree on it
    afterwards. *)
Definition blind {A} (m : prog config_args A) : Prop :=
  forall d1 d2,
    (m d1).1 = (m d2).1 /\
    forall k, d1 !! k = d2 !! k -> (m d1).2 !! k = (m d2).2 !! k.

(** The path of lines 125-127 *)
Definition voice_name (setup_config : json) : result json :=
  a ← getitem setup_config "speechConfig";
  b ← getitem a "voiceConfig";
  c ← getitem b "prebuiltVoiceConfig";
  getitem c "voiceName".

(** [isinstance(v, dict)] *)
Definition is_dict (v : json) : bool :=
  match v with JObj _ => true | _ => false end.

End Fields.

(** ** [main.py]: notions about the ingress task *)

Module Ingress.
Import Py Pumps Main.

(** The task of lines 134-182 *)
Abbreviation on_text := Main.on_text.
Abbreviation receive_from_client := Main.receive_from_client.

(** The binary payloads among the messages, in order *)
Fixpoint chunks_of (messages : list ws_message) : list bytes :=
  match messages with
  | [] => []
  | BytesMessage chunk :: rest => chunk :: chunks_of rest
  | _ :: rest => chunks_of rest
  end.

Definition nonempty (chunk : bytes) : bool :=
  match chunk with [] => false | _ => true end.

(** A message for which the loop does nothing: neither bytes nor text, an
    empty binary payload, a text that is not JSON, an object without the
    two keys. *)
Definition ignored (message : ws_message) : Prop :=
  message = OtherMessage \/
  message = BytesMessage [] \/
  message = TextMessage (Raise JSONDecodeError) \/
  exists members,
    message = TextMessage (Return (JObj members)) /\
    assoc "clientContent" members = None /\
    assoc "toolResponse" members = None.

End Ingress.

(** ** The token that a connection carries *)

Module Tokens.
Import Py Auth.

(** The connection carries the token [t]: it is the [token] of the query
    (the one given last, when there are several); or the query has none,
    or an empty one, and [t] is what follows the first seven characters of
    the first [authorization] header, which starts with [bearer ] in any
    letter case. *)
Definition carries (websocket : WebSocket) (t : string) : Prop :=
  last_value "token" (query_params websocket) = Some t \/
  missing (last_value "token" (query_params websocket)) = true /\
  exists h,
    first_value "authorization" (headers websocket) = Some h /\
    String.prefix "bearer " (lower h) = true /\ t = from 7 h.

End Tokens.

(** ** Further observations of a run of the endpoint *)

Module Observers.
Import Py Main.

(** The calls of [websocket.close], in order *)
Fixpoint closes (tr : list action) : list (Z * string) :=
  match tr with
  | [] => []
  | CloseTransport code reason :: rest => (code, reason) :: closes rest
  | _ :: rest => closes rest
  end.

(** What happens after the first close *)
Fixpoint after_close (tr : list action) : list action :=
  match tr with
  | [] => []
  | CloseTransport _ _ :: rest => rest
  | _ :: rest => after_close rest
  end.

(** The upstream connections that are opened *)
Fixpoint connects (tr : list action) : list Translator.config_args :=
  match tr with
  | [] => []
  | Connect config :: rest => config :: connects rest
  | _ :: rest => connects rest
  end.

End Observers.

(** ** [gemini_api.py]: the list of ingredients of a scan

    Lines 109-111 of [scan_ingredients], on the text of the model's
    response.  A [str] is the sequence of its code points. *)

Module Ingredients.

Section Text.
(** [str.isspace] on one code point: the table is Unicode's. *)
Variable isspace : N -> bool.

Definition comma : N := 44%N.

(** [s.split(",")] *)
Fixpoint split (s : list N) : list (list N) :=
  match s with
  | [] => [[]]
  | c :: rest =>
      if (c =? comma)%N then [] :: split rest
      else
        match split rest with
        | part :: parts => (c :: part) :: parts
        | [] => [[c]]
        end
  end.

(** [s.lstrip()], [s.rstrip()] and [s.strip()] *)
Fixpoint lstrip (s : list N) : list N :=
  match s with
  | [] => []
  | c :: rest => if isspace c then lstrip rest else s
  end.

Fixpoint rstrip (s : list N) : list N :=
  match s with
  | [] => []
  | c :: rest =>
      match rstrip rest with
      | [] => if isspace c then [] else [c]
      | kept => c :: kept
      end
  end.

Definition strip (s : list N) : list N := rstrip (lstrip s).

(** [bool(s)] *)
Definition nonempty (s : list N) : bool :=
  match s with [] => false | _ => true end.

(** lines 109-110: [text] is [response.text], which may be [None];
    [text or ""] is the text, or the empty string for [None] *)
Definition ingredients (text : option (list N)) : list (list N) :=
  let text := default [] text in
  map strip (List.filter (fun s => nonempty (strip s)) (split text)).

(** A name as a client wants it: not empty, without a comma, and
    without white space at either end. *)
Definition clean (s : list N) : Prop :=
  s <> [] /\ ~ In comma s /\
  (forall c, head s = Some c -> isspace c = false) /\
  (forall c, last s = Some c -> isspace c = false).

(** [",".join(names)] *)
Fixpoint join (names : list (list N)) : list N :=
  match names with
  | [] => []
  | [name] => name
  | name :: rest => name ++ comma :: join rest
  end.

End Text.

(** The white space of ASCII, for the closed examples *)
Definition ascii_space (c : N) : bool :=
  ((c =? 32) || ((9 <=? c) && (c <=? 13)) || ((28 <=? c) && (c <=? 31)))%N.

End Ingredients.

(** ** Sample libraries and a sample clock, for the closed examples *)

Module AuthSamples.
Import Py Firebase.

(** A token is its own header here: the token ["good"] names the key
    ["k1"] and verifies under the key of the certificate ["pem-1"]; the
    token ["old"] names the same key and has expired; anything else is no
    token. *)
Definition sample_header (id_token : string)
  : jwt_error + list (string * json) :=
  if String.eqb id_token "good" || String.eqb id_token "old"
  then inr [("alg", JStr "RS256"); ("kid", JStr "k1")]
  else inl (DecodeError "Not enough segments").

Definition sample_public_key (pem : string) : result string := Return pem.

Definition sample_decode (id_token : string) (k : string)
  : jwt_error + list (string * json) :=
  if String.eqb id_token "good" && String.eqb k "pem-1"
  then inr [("sub", JStr "user-1"); ("aud", JStr "cookingai-ec043")]
  else if String.eqb id_token "old"
  then inl (ExpiredSignatureError "Signature has expired")
  else inl (InvalidTokenError "Signature verification failed").

Definition sample_certs : list (string * json) := [("k1", JStr "pem-1")].

(** The same library, which refuses a key id that is no string as the
    installed one does: the token ["list-kid"] has the header
    [{"alg": "RS256", "kid": ["x"]}]. *)
Definition validating_header (id_token : string)
  : jwt_error + list (string * json) :=
  if String.eqb id_token "list-kid"
  then inl (InvalidTokenError "Key ID header parameter must be a string")
  else sample_header id_token.

(** A connection with that token *)
Definition intruder : Auth.WebSocket :=
  {| Auth.query_params := [("token", "list-kid")]; Auth.headers := [] |}.

(** Seconds as integers *)
Definition sample_after_ttl (t : Z) : Z := t + 3600.

Definition cold : cache Z := {| _certs := JObj []; _certs_expiry := 0 |}.

End AuthSamples.

Module RunSamples.
Import Py Main.

(** The setup object asks for a compression that is no object. *)
Definition env_bad_setup : environment :=
  {| first := FirstText (Return (JObj [("setup",
                JObj [("contextWindowCompression", JBool true)])]));
     connecting := Connected;
     ticks := [];
     notifying := Return tt;
     closing := Return tt |}.

(** The upstream completes a turn and its stream then fails: the receive
    task queues the event, the error and the sentinel; every frame is
    delivered. *)
Definition env_ended : environment :=
  {| first := FirstText (Return (JObj [("setup", JObj [])]));
     connecting := Connected;
     ticks := [Produce (Some Pumps.turnComplete);
               Consume Delivered; Consume Delivered;
               Produce (Some (Pumps.Error "upstream closed"));
               Produce None;
               Consume Delivered; Consume Delivered];
     notifying := Return tt;
     closing := Return tt |}.

End RunSamples.

(** * Properties *)

Import Py Py.ProgNotations types Translator Pumps Auth Main Samples.

(** * Properties of the session configuration translator *)

Section TranslatorFacts.
Context {G : Genai}.

Lemma keeps_pure {A} k (a : A) : keeps k (pure a).
Proof. intros d. reflexivity. Qed.

Lemma keeps_eval {A} k (r : result A) : keeps k (eval r).
Proof. intros d. reflexivity. Qed.

Lemma keeps_assign k k' v : k' <> k -> keeps k (assign k' v).
Proof. intros Hne d. cbn. by rewrite lookup_insert_ne. Qed.

Lemma keeps_seq {A B} k (m : prog config_args A) (f : A -> prog config_args B) :
  keeps k m -> (forall a, keeps k (f a)) -> keeps k (seq m f).
Proof.
  intros Hm Hf d. unfold seq. specialize (Hm d).
  destruct (m d) as [[a|e] d1]; cbn in *.
  - rewrite <- Hm. apply Hf.
  - exact Hm.
Qed.

Lemma keeps_try_except {A} k (body : prog config_args A) classes handler :
  keeps k body -> (forall e, keeps k (handler e)) ->
  keeps k (try_except body classes handler).
Proof.
  intros Hb Hh d. unfold try_except. specialize (Hb d).
  destruct (body d) as [[a|e] d1]; cbn in *; [exact Hb|].
  destruct (classes e); cbn; [|exact Hb].
  rewrite <- Hb. apply Hh.
Qed.

Lemma keeps_if {A} k (b : bool) (m1 m2 : prog config_args A) :
  keeps k m1 -> keeps k m2 -> keeps k (if b then m1 else m2).
Proof. by destruct b. Qed.

Create HintDb frame.
#[local] Hint Resolve keeps_pure keeps_eval keeps_seq keeps_try_except keeps_if : frame.
#[local] Hint Extern 1 (keeps _ (assign _ _)) =>
  apply keeps_assign; discriminate : frame.
#[local] Hint Extern 2 (forall _, keeps _ _) => intro : frame.

Lemma keeps_context_window_compression sc :
  keeps "tools" (context_window_compression sc).
Proof. unfold context_window_compression. eauto 12 with frame. Qed.

Lemma keeps_audio_transcription sc : keeps "tools" (audio_transcription sc).
Proof. unfold audio_transcription. eauto 12 with frame. Qed.

Lemma keeps_speech_config sc : keeps "tools" (speech_config sc).
Proof. unfold speech_config. eauto 12 with frame. Qed.

(** The body of the loop, read through [block_declarations]. *)
Lemma tool_block_body_spec b d :
  tool_block_body b d =
  match block_declarations b with
  | Return (Some fds) =>
      (Return tt, <["tools" := Tools [ {| function_declarations := fds |} ]]> d)
  | Return None => (Return tt, d)
  | Raise e => (Raise e, d)
  end.
Proof.
  unfold tool_block_body, block_declarations, seq, eval.
  destruct (contains "functionDeclarations" b) as [[|]|e]; cbn; try reflexivity.
  destruct (declarations b); reflexivity.
Qed.

Lemma for_each_app {S A} (xs ys : list A) (body : A -> prog S unit) d :
  for_each (xs ++ ys) body d = seq (for_each xs body) (fun _ => for_each ys body) d.
Proof.
  revert d. induction xs as [|x xs IH]; intros d; cbn.
  - reflexivity.
  - unfold seq in *. destruct (body x d) as [[[]|e] d1]; [apply IH|reflexivity].
Qed.

(** Blocks that parse never stop the loop. *)
Lemma for_each_blocks_complete pre d :
  Forall (fun x => raised (block_declarations x) = None) pre ->
  exists d', for_each pre tool_block_body d = (Return tt, d').
Proof.
  intros H. revert d. induction H as [|x pre Hx _ IH]; intros d; cbn.
  - by exists d.
  - unfold seq. rewrite tool_block_body_spec.
    destruct (block_declarations x) as [[fds|]|e]; [apply IH|apply IH|discriminate].
Qed.

(** Blocks without the key leave the dictionary as it is. *)
Lemma for_each_blocks_silent post d :
  Forall (fun x => block_declarations x = Return None) post ->
  for_each post tool_block_body d = (Return tt, d).
Proof.
  intros H. revert d. induction H as [|x post Hx _ IH]; intros d; cbn.
  - reflexivity.
  - unfold seq. rewrite tool_block_body_spec, Hx. apply IH.
Qed.

Lemma tools_last_block members pre b post fds d :
  assoc "tools" members = Some (JArr (pre ++ b :: post)) ->
  Forall (fun x => raised (block_declarations x) = None) pre ->
  block_declarations b = Return (Some fds) ->
  Forall (fun x => block_declarations x = Return None) post ->
  exists d', tools (JObj members) d = (Return tt, d') /\
    d' !! "tools" = Some (Tools [ {| function_declarations := fds |} ]).
Proof.
  intros Ha Hpre Hb Hpost.
  destruct (for_each_blocks_complete pre d Hpre) as [d1 Hd1].
  exists (<["tools" := Tools [ {| function_declarations := fds |} ]]> d1).
  split; [|apply lookup_insert_eq].
  unfold tools, seq, eval, try_except; cbn. rewrite Ha; cbn.
  rewrite for_each_app. unfold seq. rewrite Hd1. cbn. unfold seq.
  rewrite tool_block_body_spec, Hb.
  by rewrite for_each_blocks_silent.
Qed.

(** *** The guard around [tools] *)

Lemma ordinary_bind {A B} (m : result A) (f : A -> result B) :
  ordinary m -> (forall a, ordinary (f a)) -> ordinary (m ≫= f).
Proof.
  intros Hm Hf e. destruct m as [a|e']; cbn.
  - apply Hf.
  - intros [= <-]. by apply Hm.
Qed.

Lemma ordinary_Return {A} (a : A) : ordinary (Return a).
Proof. intros e. discriminate. Qed.

Lemma ordinary_contains k v : ordinary (contains k v).
Proof. intros e. destruct v; cbn; intros [= <-]; reflexivity. Qed.

Lemma ordinary_getitem v k : ordinary (getitem v k).
Proof.
  intros e. destruct v as [| | | | | |members]; cbn;
    try (intros [= <-]; reflexivity).
  destruct (assoc k members); intros [= <-]; reflexivity.
Qed.

Lemma ordinary_iter v : ordinary (iter v).
Proof. intros e. destruct v; cbn; intros [= <-]; reflexivity. Qed.

Lemma ordinary_get v k dflt : ordinary (get v k dflt).
Proof. intros e. destruct v; cbn; intros [= <-]; reflexivity. Qed.

Lemma ordinary_comprehension {A B} (f : A -> result B) xs :
  (forall x, ordinary (f x)) -> ordinary (comprehension f xs).
Proof.
  intros Hf. induction xs as [|x xs IH]; cbn.
  - apply ordinary_Return.
  - apply ordinary_bind; [apply Hf|intros y].
    apply ordinary_bind; [exact IH|intros ys]. apply ordinary_Return.
Qed.

Lemma ordinary_declaration fd : ordinary (declaration fd).
Proof.
  unfold declaration.
  repeat (apply ordinary_bind; [apply ordinary_get|intros ?]).
  unfold mkFunctionDeclaration. intros e.
  destruct (accepts_declaration _ _ _); intros [= <-]; reflexivity.
Qed.

Lemma ordinary_block_declarations b : ordinary (block_declarations b).
Proof.
  unfold block_declarations.
  apply ordinary_bind; [apply ordinary_contains|intros [|]];
    [|apply ordinary_Return].
  apply ordinary_bind; [|intros ?; apply ordinary_Return].
  unfold declarations.
  apply ordinary_bind; [apply ordinary_getitem|intros ?].
  apply ordinary_bind; [apply ordinary_iter|intros ?].
  apply ordinary_comprehension, ordinary_declaration.
Qed.

Lemma for_each_blocks_ordinary blocks d e d' :
  for_each blocks tool_block_body d = (Raise e, d') -> is_Exception e = true.
Proof.
  revert d. induction blocks as [|b blocks IH]; intros d; cbn; [discriminate|].
  unfold seq. rewrite tool_block_body_spec.
  pose proof (ordinary_block_declarations b) as Hb.
  destruct (block_declarations b) as [[fds|]|e0]; [apply IH..|].
  intros [= <- _]. by apply Hb.
Qed.

Lemma keeps_for_each {A} k xs (body : A -> prog config_args unit) :
  (forall x, keeps k (body x)) -> keeps k (for_each xs body).
Proof.
  intros Hb. induction xs as [|x xs IH]; cbn; auto with frame.
Qed.

Lemma keeps_tools k sc : k <> "tools" -> keeps k (tools sc).
Proof.
  intros Hk. unfold tools.
  apply keeps_seq; [apply keeps_eval|intros [|]; [|apply keeps_pure]].
  apply keeps_try_except; [|intros; apply keeps_pure].
  apply keeps_seq; [apply keeps_eval|intros v].
  destruct v; try apply keeps_pure.
  apply keeps_for_each. intros b. unfold tool_block_body.
  apply keeps_seq; [apply keeps_eval|intros [|]; [|apply keeps_pure]].
  apply keeps_seq; [apply keeps_eval|intros fds].
  apply keeps_assign. congruence.
Qed.

(** Whatever the value of [tools] in a setup object, reading it completes
    and touches no other entry of the configuration. *)
Lemma tools_guarded members d :
  exists d', tools (JObj members) d = (Return tt, d') /\
    forall k, k <> "tools" -> d' !! k = d !! k.
Proof.
  pose proof (fun k Hk => keeps_tools k (JObj members) Hk d) as Hkeep.
  assert (exists d', tools (JObj members) d = (Return tt, d')) as [d' Hd'].
  { unfold tools, seq, eval, try_except. cbn.
    destruct (bool_decide _); [|by eexists].
    destruct (assoc "tools" members) as [v|]; [|by eexists].
    destruct v as [| | | | |blocks|]; try by eexists.
    destruct (for_each blocks tool_block_body d) as [[[]|e] d1] eqn:Hloop;
      [by eexists|].
    rewrite (for_each_blocks_ordinary _ _ _ _ Hloop). by eexists. }
  exists d'. split; [exact Hd'|].
  intros k Hk. specialize (Hkeep k Hk). by rewrite Hd' in Hkeep.
Qed.

(** A malformed [tools] is skipped and the other fields are honoured:
    here the output transcription, for any value of [tools]. *)
Lemma malformed_tools_skipped v :
  exists cfg,
    live_connect_config
      (JObj [("tools", v); ("outputAudioTranscription", JObj [])]) = Return cfg /\
    cfg !! "output_audio_transcription" = Some AudioTranscriptionConfig /\
    cfg !! "response_modalities" = Some (Modalities [AUDIO]).
Proof.
  unfold live_connect_config, parse_setup. cbn [truthy].
  set (sc := JObj [("tools", v); ("outputAudioTranscription", JObj [])]).
  set (d0 := {[ "response_modalities" := Modalities [AUDIO] ]}).
  unfold seq at 1. change (response_modalities sc d0) with (Return tt, d0).
  unfold seq at 1. change (system_instruction sc d0) with (Return tt, d0).
  unfold seq at 1.
  destruct (tools_guarded [("tools", v); ("outputAudioTranscription", JObj [])] d0)
    as (d1 & Hrun & Hd1).
  change (tools sc d0 = (Return tt, d1)) in Hrun. rewrite Hrun.
  eexists. split; [reflexivity|]. cbn.
  split.
  - apply lookup_insert_eq.
  - rewrite lookup_insert_ne by discriminate. rewrite Hd1 by discriminate.
    reflexivity.
Qed.

Lemma keeps_after_tools sc :
  keeps "tools" (context_window_compression sc ;;; audio_transcription sc ;;;
                 speech_config sc).
Proof.
  auto using keeps_context_window_compression, keeps_audio_transcription,
    keeps_speech_config with frame.
Qed.

(** When every element of the [tools] list before the last block with
    [functionDeclarations] parses, and that block parses, the upstream
    configuration carries one [Tool] with the declarations of that block
    only: the assignment of line 94 replaces the entry built from the
    earlier blocks, it does not extend it. *)
Lemma tools_last_block_wins members pre b post fds :
  assoc "tools" members = Some (JArr (pre ++ b :: post)) ->
  Forall (fun x => raised (block_declarations x) = None) pre ->
  block_declarations b = Return (Some fds) ->
  Forall (fun x => block_declarations x = Return None) post ->
  (forall d, exists d',
     tools (JObj members) d = (Return tt, d') /\
     d' !! "tools" = Some (Tools [ {| function_declarations := fds |} ])) /\
  (forall cfg, live_connect_config (JObj members) = Return cfg ->
     cfg !! "tools" = Some (Tools [ {| function_declarations := fds |} ])).
Proof.
  intros Ha Hpre Hb Hpost.
  split; [intros d; by apply (tools_last_block members pre b post)|].
  intros cfg. unfold live_connect_config, parse_setup.
  assert (truthy (JObj members) = true) as -> by (by destruct members).
  set (d0 := {[ "response_modalities" := Modalities [AUDIO] ]}).
  unfold seq at 1.
  destruct (response_modalities (JObj members) d0) as [[[]|e] d1];
    [|discriminate].
  unfold seq at 1.
  destruct (system_instruction (JObj members) d1) as [[[]|e] d2];
    [|discriminate].
  unfold seq at 1.
  destruct (tools_last_block members pre b post fds d2 Ha Hpre Hb Hpost)
    as (d3 & -> & Hd3).
  pose proof (keeps_after_tools (JObj members) d3) as Hk.
  destruct ((context_window_compression (JObj members) ;;;
             audio_transcription (JObj members) ;;;
             speech_config (JObj members)) d3) as [[[]|e] d4];
    [|discriminate].
  intros [= <-]. cbn in Hk. by rewrite Hk.
Qed.

End TranslatorFacts.

(** A setup object with two declaring blocks and one block without the
    key: the entry holds the second block's declaration alone. *)
Lemma tools_last_block_wins_witness :
  let block n := Py.JObj [("functionDeclarations",
                   Py.JArr [Py.JObj [("name", Py.JStr n)]])] in
  let members := [("tools", Py.JArr [block "scan"; block "timer"; Py.JObj []])] in
  let fds := [ {| types.fd_name := Py.JStr "timer";
                  types.fd_description := Py.JNull;
                  types.fd_parameters := Py.JNull |} ] in
  let cfg := <["tools" := types.Tools [ {| types.function_declarations := fds |} ]]>
             {[ "response_modalities" := types.Modalities [types.AUDIO] ]} in
  Translator.live_connect_config (G := types.strict) (Py.JObj members) = Py.Return cfg /\
  cfg !! "tools" = Some (types.Tools [ {| types.function_declarations := fds |} ]).
Proof.
  intros block members fds cfg.
  assert (@Translator.live_connect_config types.strict (Py.JObj members)
          = Py.Return cfg) as Hrun by (vm_compute; reflexivity).
  split; [exact Hrun|].
  apply (proj2 (tools_last_block_wins (G := types.strict) members
           [block "scan"] (block "timer") [Py.JObj []] fds
           eq_refl ltac:(repeat constructor) eq_refl ltac:(repeat constructor))
         cfg Hrun).
Defined.

(** C1. The translator is not total.  The fields [contextWindowCompression]
    and [responseModalities] are read outside any [try] (lines 56-59 and
    101-108): a setup object whose [contextWindowCompression] is a boolean
    makes [start_session] raise [TypeError] at line 103, whatever the
    library accepts, and no configuration is built. *)
Theorem translator_raises_on_scalar_compression (G : types.Genai) :
  Translator.live_connect_config
    (Py.JObj [("contextWindowCompression", Py.JBool true)])
  = Py.Raise Py.TypeError.
Proof. reflexivity. Qed.

(** The same for a [responseModalities] that is a number (line 58). *)
Lemma translator_raises_on_scalar_modalities (G : types.Genai) :
  Translator.live_connect_config
    (Py.JObj [("responseModalities", Py.JInt 5)])
  = Py.Raise Py.TypeError.
Proof. reflexivity. Qed.

(** * Properties of the control-forward path *)

Section ForwardingFacts.
Context {G : Genai}.

Lemma function_response_record item out :
  function_response item = Return out ->
  exists r, item = JObj r /\ out = forwarded r.
Proof.
  destruct item as [| | | | |items|r]; try discriminate.
  intros H. exists r. split; [reflexivity|].
  unfold function_response in H. cbn in H.
  unfold mkFunctionResponse in H.
  destruct (accepts_response _ _ _); [|discriminate].
  by injection H as <-.
Qed.

Lemma function_response_acceptable r :
  acceptable r -> function_response (JObj r) = Return (forwarded r).
Proof.
  unfold acceptable, forwarded, function_response, mkFunctionResponse,
    result_ok. cbn.
  by intros ->.
Qed.

Lemma comprehension_function_response items frs :
  comprehension function_response items = Return frs ->
  exists records, items = map JObj records /\ frs = map forwarded records.
Proof.
  revert frs. induction items as [|item items IH]; intros frs H; cbn in H.
  - injection H as <-. by exists [].
  - destruct (function_response item) as [out|e] eqn:Hitem; [|discriminate].
    cbn in H.
    destruct (comprehension function_response items) as [outs|e] eqn:Hrest;
      [|discriminate].
    cbn in H. injection H as <-.
    destruct (function_response_record _ _ Hitem) as (r & -> & ->).
    destruct (IH outs eq_refl) as (records & -> & ->).
    by exists (r :: records).
Qed.

Lemma comprehension_acceptable records :
  Forall acceptable records ->
  comprehension function_response (map JObj records)
  = Return (map forwarded records).
Proof.
  induction 1 as [|r records Hr _ IH]; [reflexivity|].
  cbn [map comprehension]. rewrite (function_response_acceptable r Hr).
  cbn. by rewrite IH.
Qed.

(** C7. A tool response whose [functionResponses] is a single object gives
    the same upstream call as the one-element list holding that object:
    for the payload as the client sends it (whatever else the payload and
    its [toolResponse] hold), for the queued message, and for the whole
    run of the control-forward task. *)
Theorem single_object_as_singleton_list
    (o other rest : list (string * json)) :
  control_path
    (JObj (("toolResponse", JObj (("functionResponses", JObj o) :: other)) :: rest))
  = control_path
    (JObj (("toolResponse", JObj (("functionResponses", JArr [JObj o]) :: other)) :: rest))
  /\ send_text_body (tool_response_msg (JObj o))
     = send_text_body (tool_response_msg (JArr [JObj o]))
  /\ forall session msgs,
       send_text session (tool_response_msg (JObj o) :: msgs)
       = send_text session (tool_response_msg (JArr [JObj o]) :: msgs).
Proof.
  split; [|split].
  - unfold control_path, on_text. cbn.
    destruct (bool_decide _); reflexivity.
  - reflexivity.
  - intros session msgs. reflexivity.
Qed.

(** C8. In the call made for a tool response, every record is forwarded
    with its own [response] when it has the key, and with
    [{"result": "ok"}] in its place when the key is absent; name and id go
    through as they are.  The call is made whenever the library accepts
    the records so forwarded; and whenever a call is made, the records are
    the elements of [functionResponses] (or the single object), forwarded
    in this way. *)
Theorem absent_response_defaults_to_ok :
  (forall r, assoc "response" r = None ->
     fr_response (forwarded r) = JObj [("result", JStr "ok")]) /\
  (forall r v, assoc "response" r = Some v -> fr_response (forwarded r) = v) /\
  (forall records, Forall acceptable records ->
     send_text_body (tool_response_msg (JArr (map JObj records)))
     = Return (Some (send_tool_response (map forwarded records)))) /\
  (forall fr frs,
     send_text_body (tool_response_msg fr)
       = Return (Some (send_tool_response frs)) ->
     exists records,
       iter (match fr with JObj _ => JArr [fr] | _ => fr end)
         = Return (map JObj records) /\
       frs = map forwarded records).
Proof.
  split; [|split; [|split]].
  - intros r H. unfold forwarded. cbn. by rewrite H.
  - intros r v H. unfold forwarded. cbn. by rewrite H.
  - intros records H. unfold send_text_body, tool_response_msg. cbn.
    by rewrite (comprehension_acceptable records H).
  - intros fr frs. unfold send_text_body, tool_response_msg. cbn.
    destruct fr as [| | | |s|items|r]; cbn; try discriminate.
    + (* a str: its characters have no [get] *)
      destruct (comprehension function_response (chars s)) as [outs|e] eqn:Hc;
        cbn; [|discriminate].
      intros [= <-].
      destruct (comprehension_function_response _ _ Hc) as (records & Hi & Hr).
      exists records. by rewrite Hi.
    + destruct (comprehension function_response items) as [outs|e] eqn:Hc;
        cbn; [|discriminate].
      intros [= <-].
      destruct (comprehension_function_response _ _ Hc) as (records & -> & Hr).
      by exists records.
    + unfold mkFunctionResponse.
      destruct (accepts_response _ _ _); cbn; [|discriminate].
      intros [= <-]. by exists [r].
Qed.

End ForwardingFacts.

(** Two records, the first without a [response]: it is forwarded with the
    marker, the second with its own payload. *)
Lemma absent_response_defaults_to_ok_witness :
  let r1 := [("name", Py.JStr "set_timer"); ("id", Py.JStr "c1")] in
  let r2 := [("name", Py.JStr "next_step"); ("id", Py.JStr "c2");
             ("response", Py.JObj [("step", Py.JInt 3)])] in
  Pumps.send_text_body (G := types.strict)
    (Pumps.tool_response_msg (Py.JArr [Py.JObj r1; Py.JObj r2]))
  = Py.Return (Some (Pumps.send_tool_response
      [ {| types.fr_name := Py.JStr "set_timer"; types.fr_id := Py.JStr "c1";
           types.fr_response := Py.JObj [("result", Py.JStr "ok")] |};
        {| types.fr_name := Py.JStr "next_step"; types.fr_id := Py.JStr "c2";
           types.fr_response := Py.JObj [("step", Py.JInt 3)] |} ])).
Proof.
  intros r1 r2.
  apply (proj1 (proj2 (proj2 (absent_response_defaults_to_ok (G := types.strict))))
           [r1; r2]).
  repeat constructor.
Defined.

(** * Properties of the upstream receive task *)

Section ReceiveFacts.

Lemma emits_skip : emits skip (Return tt) [].
Proof. intros q. cbn. by rewrite app_nil_r. Qed.

Lemma emits_put ev : emits (put (Some ev)) (Return tt) [ev].
Proof. intros q. reflexivity. Qed.

Lemma emits_raise {A} e : emits (A := A) (eval (Raise e)) (Raise e) [].
Proof. intros q. cbn. by rewrite app_nil_r. Qed.

Lemma emits_seq {A B} (m : prog queue A) (k : A -> prog queue B) a res evs1 evs2 :
  emits m (Return a) evs1 -> emits (k a) res evs2 ->
  emits (seq m k) res (evs1 ++ evs2).
Proof.
  intros Hm Hk q. unfold seq. rewrite Hm, Hk.
  by rewrite map_app, app_assoc.
Qed.

Lemma emits_seq_raise {A B} (m : prog queue A) (k : A -> prog queue B) e evs :
  emits m (Raise e) evs -> emits (seq m k) (Raise e) evs.
Proof. intros Hm q. unfold seq. by rewrite Hm. Qed.

Lemma emits_for_each_audio ps :
  emits (for_each ps (fun part =>
           when_present (inline_data part) (fun blob =>
             put (Some (Audio (data blob))))))
        (Return tt) (audio_of ps).
Proof.
  induction ps as [|part ps IH]; cbn [for_each audio_of flat_map].
  - apply emits_skip.
  - eapply emits_seq; [|exact IH].
    destruct (inline_data part); [apply emits_put|apply emits_skip].
Qed.

Lemma emits_model_audio mt ps :
  turn_parts mt = Some ps -> emits (model_audio mt) (Return tt) (audio_of ps).
Proof.
  intros H. unfold model_audio. rewrite H.
  change (audio_of ps) with ([] ++ audio_of ps).
  eapply emits_seq; [|apply emits_for_each_audio].
  intros q. cbn. by rewrite app_nil_r.
Qed.

Lemma emits_model_audio_None mt :
  turn_parts mt = None -> emits (model_audio mt) (Raise TypeError) [].
Proof.
  intros H. unfold model_audio. rewrite H.
  apply emits_seq_raise. apply emits_raise.
Qed.

Lemma emits_eq {A} (m : prog queue A) res evs evs' :
  emits m res evs -> evs = evs' -> emits m res evs'.
Proof. by intros H <-. Qed.

Lemma emits_after_audio sc :
  emits (when_present (input_transcription sc) (fun t =>
           put (Some (inputTranscription t))) ;;;
         when_present (output_transcription sc) (fun t =>
           put (Some (outputTranscription t))) ;;;
         when_true (turn_complete sc) (put (Some turnComplete)) ;;;
         when_true (interrupted sc) (put (Some interrupted_event)))
        (Return tt) (after_audio sc).
Proof.
  unfold after_audio.
  eapply emits_seq;
    [destruct (input_transcription sc); [apply emits_put|apply emits_skip]|].
  eapply emits_seq;
    [destruct (output_transcription sc); [apply emits_put|apply emits_skip]|].
  eapply emits_seq;
    [destruct (turn_complete sc) as [[|]|]; [apply emits_put|apply emits_skip..]|].
  destruct (interrupted sc) as [[|]|]; [apply emits_put|apply emits_skip..].
Qed.

Lemma on_server_content_no_turn sc :
  model_turn sc = None ->
  emits (on_server_content sc) (Return tt) (after_audio sc).
Proof.
  intros H. unfold on_server_content. rewrite H.
  change (after_audio sc) with ([] ++ after_audio sc).
  eapply emits_seq; [apply emits_skip|apply emits_after_audio].
Qed.

Lemma on_server_content_turn sc mt ps :
  model_turn sc = Some mt -> turn_parts mt = Some ps ->
  emits (on_server_content sc) (Return tt) (audio_of ps ++ after_audio sc).
Proof.
  intros H Hps. unfold on_server_content. rewrite H.
  eapply emits_seq; [by apply emits_model_audio|apply emits_after_audio].
Qed.

Lemma on_server_content_not_iterable sc mt :
  model_turn sc = Some mt -> turn_parts mt = None ->
  emits (on_server_content sc) (Raise TypeError) [].
Proof.
  intros H Hps. unfold on_server_content. rewrite H.
  apply emits_seq_raise. by apply emits_model_audio_None.
Qed.

Lemma on_tool_call_calls tc fcs :
  function_calls tc = Some fcs ->
  emits (on_tool_call tc) (Return tt) [toolCall fcs].
Proof. intros H q. unfold on_tool_call. by rewrite H. Qed.

Lemma on_tool_call_not_iterable tc :
  function_calls tc = None -> emits (on_tool_call tc) (Raise TypeError) [].
Proof.
  intros H. unfold on_tool_call. rewrite H.
  apply emits_seq_raise. apply emits_raise.
Qed.

(** The events of the server content, and whether reading it completes. *)
Lemma content_spec response :
  let evs := audio_events response ++ input_events response ++
             output_events response ++ turn_complete_events response ++
             interrupted_events response in
  (parts_iterable response = true /\
   emits (when_present (server_content response) on_server_content)
     (Return tt) evs)
  \/ (parts_iterable response = false /\
      emits (when_present (server_content response) on_server_content)
        (Raise TypeError) []).
Proof.
  unfold audio_events, input_events, output_events, turn_complete_events,
    interrupted_events, of_content, parts_iterable.
  destruct (server_content response) as [sc|]; cbn [when_present].
  - destruct (model_turn sc) as [mt|] eqn:Hmt.
    + destruct (turn_parts mt) as [ps|] eqn:Hps.
      * left. split; [reflexivity|]. by eapply on_server_content_turn.
      * right. split; [reflexivity|]. by eapply on_server_content_not_iterable.
    + left. split; [reflexivity|]. by apply on_server_content_no_turn.
  - left. split; [reflexivity|]. apply emits_skip.
Qed.

Lemma tool_call_spec response :
  (calls_iterable response = true /\
   emits (when_present (tool_call response) on_tool_call)
     (Return tt) (tool_call_events response))
  \/ (calls_iterable response = false /\ tool_call_events response = [] /\
      emits (when_present (tool_call response) on_tool_call)
        (Raise TypeError) []).
Proof.
  unfold tool_call_events, calls_iterable.
  destruct (tool_call response) as [tc|]; cbn [when_present].
  - destruct (function_calls tc) as [fcs|] eqn:Hf.
    + left. split; [reflexivity|]. by apply on_tool_call_calls.
    + right. repeat split. by apply on_tool_call_not_iterable.
  - left. split; [reflexivity|]. apply emits_skip.
Qed.

(** The body of the loop appends the events of the message in the order
    of [detection_order]: all of them when the message is iterable, and
    otherwise the ones before the loop that raises. *)
Lemma on_response_spec response :
  (iterable response = true /\
   emits (on_response response) (Return tt) (detection_order response))
  \/
  (iterable response = false /\
   exists evs, emits (on_response response) (Raise TypeError) evs /\
     evs `prefix_of` detection_order response).
Proof.
  unfold iterable, on_response, detection_order.
  destruct (content_spec response) as [[-> Hc]|[-> Hc]]; cbn zeta in Hc.
  - destruct (tool_call_spec response) as [[-> Ht]|(-> & Hnil & Ht)].
    + left. split; [reflexivity|].
      eapply emits_eq; [eapply emits_seq; [exact Hc|exact Ht]|].
      by rewrite <- !app_assoc.
    + right. split; [reflexivity|]. eexists. split.
      * eapply emits_seq; [exact Hc|exact Ht].
      * rewrite Hnil, !app_nil_r. reflexivity.
  - right. split; [reflexivity|]. exists []. split; [|apply prefix_nil].
    by apply emits_seq_raise.
Qed.

(** C5. For every upstream message, the events the receive task puts on
    the queue are those of [detection_order], in that order: the audio of
    each model part with inline data, the input transcription, the output
    transcription, turn-complete, interruption, the tool-call request, and
    nothing for an absent substructure.  When one of the two loops meets
    [None] instead of a list, the body raises and what it has put so far is
    a prefix of that sequence. *)
Theorem events_in_detection_order response q :
  (iterable response = true /\
   on_response response q
     = (Return tt, q ++ map Some (detection_order response)))
  \/
  (iterable response = false /\
   exists evs,
     on_response response q = (Raise TypeError, q ++ map Some evs) /\
     evs `prefix_of` detection_order response).
Proof.
  destruct (on_response_spec response) as [[Hi H]|(Hi & evs & H & Hp)].
  - left. split; [exact Hi|apply H].
  - right. split; [exact Hi|]. exists evs. split; [apply H|exact Hp].
Qed.

(** *** The loop *)

(** The task only appends events to the queue: the sentinel [None] is
    never put by the loop itself. *)
Lemma consume_appends s q :
  exists evs, (consume s q).2 = q ++ map Some evs.
Proof.
  revert q. induction s as [|response rest IH|e]; intros q; cbn.
  - exists []. by rewrite app_nil_r.
  - unfold seq.
    destruct (on_response_spec response) as [[_ H]|(_ & evs & H & _)];
      rewrite H.
    + destruct (IH (q ++ map Some (detection_order response))) as [evs' ->].
      exists (detection_order response ++ evs').
      by rewrite map_app, app_assoc.
    + by exists evs.
  - exists []. by rewrite app_nil_r.
Qed.

Lemma while_True_appends upstream fuel n q :
  exists evs, (while_True upstream fuel n q).2 = q ++ map Some evs.
Proof.
  revert n q. induction fuel as [|fuel IH]; intros n q; cbn.
  - exists []. by rewrite app_nil_r.
  - destruct (consume_appends (upstream n) q) as [evs Hevs].
    destruct (consume (upstream n) q) as [[[]|e] q1]; cbn in Hevs; subst q1.
    + destruct (IH (S n) (q ++ map Some evs)) as [evs' ->].
      exists (evs ++ evs'). by rewrite map_app, app_assoc.
    + by exists evs.
Qed.

(** Following the loop for [a + b] iterations is following it for [a]
    and, if it is still running, for [b] more. *)
Lemma while_True_add upstream a b n q :
  while_True upstream (a + b) n q =
  match while_True upstream a n q with
  | (None, q1) => while_True upstream b (n + a) q1
  | stopped => stopped
  end.
Proof.
  revert n q. induction a as [|a IH]; intros n q; cbn.
  - by rewrite Nat.add_0_r.
  - destruct (consume (upstream n) q) as [[[]|e] q1]; [|reflexivity].
    rewrite IH. by rewrite Nat.add_succ_r.
Qed.

(** C2, as the code has it.  An iteration over the upstream stream that
    is exhausted cleanly ends nothing: after [n] such iterations the task
    is still receiving and has put events only.  When the next iteration
    raises an [Exception], the task puts one [Error] event and then the
    end-of-session sentinel, and returns; when it is cancelled there, it
    puts the sentinel alone.  Following the task longer changes nothing
    (no retry). *)
Theorem receive_loop_stops_on_exception_only
    (str : exn -> string) upstream n e q q1 q2 :
  while_True upstream n 0 q = (None, q1) ->
  consume (upstream n) q1 = (Raise e, q2) ->
  receive_loop str upstream n q = (Receiving, q1) /\
  (exists evs1 evs2, q1 = q ++ map Some evs1 /\ q2 = q1 ++ map Some evs2) /\
  forall fuel, (n < fuel)%nat ->
    receive_loop str upstream fuel q
    = if is_Exception e
      then (Returned, q2 ++ [Some (Error (str e)); None])
      else (Propagated e, q2 ++ [None]).
Proof.
  intros Hclean Hraise. split; [|split].
  - unfold receive_loop. by rewrite Hclean.
  - destruct (while_True_appends upstream n 0 q) as [evs1 H1].
    destruct (consume_appends (upstream n) q1) as [evs2 H2].
    rewrite Hclean in H1. rewrite Hraise in H2. cbn in H1, H2.
    by exists evs1, evs2.
  - intros fuel Hlt. unfold receive_loop.
    replace fuel with (n + S (fuel - S n))%nat by lia.
    rewrite while_True_add, Hclean. cbn. by rewrite Hraise.
Qed.

End ReceiveFacts.

Example detection_order_full :
  let blob := {| Pumps.data := Some [] |} in
  let said s := {| Pumps.transcript := Some s |} in
  let call := {| Pumps.fc_name := Some "set_timer"; Pumps.fc_args := None;
                 Pumps.fc_id := Some "c1" |} in
  let response :=
    {| Pumps.server_content := Some
         {| Pumps.model_turn := Some {| Pumps.turn_parts := Some
              [ {| Pumps.inline_data := Some blob |};
                {| Pumps.inline_data := None |} ] |};
            Pumps.input_transcription := Some (said "hi");
            Pumps.output_transcription := Some (said "hello");
            Pumps.turn_complete := Some true;
            Pumps.interrupted := Some false |};
       Pumps.tool_call := Some {| Pumps.function_calls := Some [call] |} |} in
  Pumps.on_response response []
  = (Py.Return tt,
     [Some (Pumps.Audio (Some [])); Some (Pumps.inputTranscription (said "hi"));
      Some (Pumps.outputTranscription (said "hello")); Some Pumps.turnComplete;
      Some (Pumps.toolCall [call])]).
Proof. reflexivity. Qed.

(** C2, counterexample.  Each iteration over the upstream yields one
    message and is then exhausted cleanly.  After three of them the task
    has put no end-of-session sentinel on the queue and has not stopped:
    it has opened the iteration again each time.  And when the first
    iteration raises, the task puts two closing items, the [Error] event
    and then the end-of-session sentinel. *)
Lemma receive_loop_reopens_after_exhaustion :
  Pumps.receive_loop sample_str
    (fun _ => Pumps.Yield turn_done Pumps.Exhausted) 3 []
  = (Pumps.Receiving,
     [Some Pumps.turnComplete; Some Pumps.turnComplete; Some Pumps.turnComplete])
  /\
  Pumps.receive_loop sample_str
    (fun _ => Pumps.Fails (Py.OtherError "connection lost")) 3 []
  = (Pumps.Returned, [Some (Pumps.Error "connection lost"); None]).
Proof. split; reflexivity. Qed.

(** The second iteration raises after one message: one [Error] event, the
    sentinel, and the task has returned. *)
Lemma receive_loop_stops_on_exception_only_witness :
  let upstream (n : nat) :=
    match n with
    | O => Pumps.Yield turn_done Pumps.Exhausted
    | _ => Pumps.Yield turn_done (Pumps.Fails (Py.OtherError "connection lost"))
    end in
  Pumps.receive_loop sample_str upstream 5 []
  = (Pumps.Returned,
     [Some Pumps.turnComplete; Some Pumps.turnComplete;
      Some (Pumps.Error "connection lost"); None]).
Proof.
  intros upstream.
  apply (proj2 (proj2 (receive_loop_stops_on_exception_only
    sample_str upstream 1 (Py.OtherError "connection lost")
    [] [Some Pumps.turnComplete]
    [Some Pumps.turnComplete; Some Pumps.turnComplete]
    eq_refl eq_refl)) 5%nat).
  lia.
Defined.

(** * Properties of the endpoint *)

Section EndpointFacts.
Context {G : Genai}.
Variable str : exn -> string.
Variable verify_firebase_token : string -> result (list (string * json)).

Lemma written_app who a b :
  written who (a ++ b) = written who a ++ written who b.
Proof.
  induction a as [|x a IH]; [reflexivity|].
  destruct x as [ | | | | | | | | |w f]; cbn; try exact IH.
  destruct w, who; cbn; by rewrite ?IH.
Qed.

Lemma running_app live a b :
  running live (a ++ b) = running (running live a) b.
Proof.
  revert live. induction a as [|x a IH]; intros live; [reflexivity|].
  destruct x; cbn; apply IH.
Qed.

(** The queue is first-in first-out: what the egress loop writes is, in
    order, a prefix of the frames of the queued events followed by those
    the receive task puts, up to the sentinel. *)
Lemma event_loop_fifo schedule q :
  written ByEgress (event_loop schedule q).1
  `prefix_of` map frame_of (events_before_sentinel (q ++ produced schedule)).
Proof.
  revert q. induction schedule as [|t schedule IH]; intros q.
  - apply prefix_nil.
  - destruct t as [x|o]; cbn [event_loop produced].
    + specialize (IH (q ++ [x])). rewrite <- app_assoc in IH. cbn in IH.
      destruct (event_loop schedule (q ++ [x])) as [tr e]. exact IH.
    + destruct q as [|[ev|] q']; [apply IH|..].
      * specialize (IH q').
        destruct o; cbn.
        -- destruct (event_loop schedule q') as [tr e]. cbn in *.
           by apply prefix_cons.
        -- apply prefix_cons, prefix_nil.
        -- apply prefix_cons, prefix_nil.
      * apply prefix_nil.
Qed.

(** Only the egress loop writes during the session. *)
Lemma event_loop_supervisor_silent schedule q :
  written BySupervisor (event_loop schedule q).1 = [].
Proof.
  revert q. induction schedule as [|t schedule IH]; intros q; [reflexivity|].
  destruct t as [x|o]; cbn [event_loop].
  - specialize (IH (q ++ [x])).
    destruct (event_loop schedule (q ++ [x])) as [tr e]. exact IH.
  - destruct q as [|[ev|] q']; [apply IH| |reflexivity].
    specialize (IH q'). destruct o; cbn; try reflexivity.
    destruct (event_loop schedule q') as [tr e]. exact IH.
Qed.

(** The loop stops the three tasks it was started with, unless it leaves
    the generator suspended. *)
Lemma event_loop_running schedule q live :
  running live (event_loop schedule q).1 =
  if abandoned_of (event_loop schedule q).2 then live
  else running live cleanup.
Proof.
  revert q. induction schedule as [|t schedule IH]; intros q; [reflexivity|].
  destruct t as [x|o]; cbn [event_loop].
  - specialize (IH (q ++ [x])).
    destruct (event_loop schedule (q ++ [x])) as [tr e]. exact IH.
  - destruct q as [|[ev|] q']; [apply IH| |reflexivity].
    specialize (IH q'). destruct o; cbn; try reflexivity.
    destruct (event_loop schedule q') as [tr e]. exact IH.
Qed.

Lemma run_session_supervisor_silent setup_config env :
  written BySupervisor (run_session setup_config env).1 = [].
Proof.
  unfold run_session.
  destruct (live_connect_config setup_config) as [config|e]; [|reflexivity].
  destruct (connecting env); try reflexivity.
  pose proof (event_loop_supervisor_silent (ticks env) [Some SetupComplete]) as H.
  destruct (event_loop (ticks env) [Some SetupComplete]) as [tr e]. exact H.
Qed.

Lemma written_finalizer who abandoned : written who (finalizer abandoned) = [].
Proof. by destruct abandoned. Qed.

(** After the session, the endpoint writes nothing for the egress loop
    and stops the ingress task. *)
Lemma after_session_written_egress e env :
  written ByEgress (after_session e env).1 = [].
Proof. destruct e as [|e ab|ab]; [|destruct e|]; reflexivity. Qed.

Lemma after_session_running e env live :
  running live (after_session e env).1 = running live [Stop Ingress].
Proof. destruct e as [|e ab|ab]; [|destruct e|]; reflexivity. Qed.

Lemma supervise_written_egress setup_config env :
  written ByEgress (supervise setup_config env).1
  = written ByEgress (run_session setup_config env).1.
Proof.
  unfold supervise. destruct (run_session setup_config env) as [tr e].
  pose proof (after_session_written_egress e env) as H.
  destruct (after_session e env) as [handled r]. cbn in *.
  rewrite written_app. cbn. rewrite written_app, H, written_finalizer.
  by rewrite app_nil_r.
Qed.

Lemma run_session_fifo setup_config env :
  written ByEgress (run_session setup_config env).1
  `prefix_of`
  setupComplete :: map frame_of (events_before_sentinel (produced (ticks env))).
Proof.
  unfold run_session.
  destruct (live_connect_config setup_config) as [config|e]; [|apply prefix_nil].
  destruct (connecting env); try apply prefix_nil.
  pose proof (event_loop_fifo (ticks env) [Some SetupComplete]) as H.
  destruct (event_loop (ticks env) [Some SetupComplete]) as [tr e]. exact H.
Qed.

Lemma transmitted_app a b : transmitted (a ++ b) = transmitted a ++ transmitted b.
Proof.
  induction a as [|x a IH]; [reflexivity|].
  destruct x; cbn; by rewrite ?IH.
Qed.

Lemma event_loop_transmitted schedule q :
  transmitted (event_loop schedule q).1 = written ByEgress (event_loop schedule q).1.
Proof.
  revert q. induction schedule as [|t schedule IH]; intros q; [reflexivity|].
  destruct t as [x|o]; cbn [event_loop].
  - specialize (IH (q ++ [x])).
    destruct (event_loop schedule (q ++ [x])) as [tr e]. exact IH.
  - destruct q as [|[ev|] q']; [apply IH| |reflexivity].
    specialize (IH q'). destruct o; cbn; try reflexivity.
    destruct (event_loop schedule q') as [tr e]. cbn in *. by rewrite IH.
Qed.

Lemma run_session_transmitted setup_config env :
  transmitted (run_session setup_config env).1
  = written ByEgress (run_session setup_config env).1.
Proof.
  unfold run_session.
  destruct (live_connect_config setup_config) as [config|e]; [|reflexivity].
  destruct (connecting env); try reflexivity.
  pose proof (event_loop_transmitted (ticks env) [Some SetupComplete]) as H.
  destruct (event_loop (ticks env) [Some SetupComplete]) as [tr e]. exact H.
Qed.

(** On the transport, what the egress loop wrote comes before anything
    the endpoint writes itself. *)
Lemma supervise_transmitted setup_config env :
  exists later,
    transmitted (supervise setup_config env).1
    = written ByEgress (supervise setup_config env).1 ++ later.
Proof.
  rewrite supervise_written_egress. unfold supervise.
  pose proof (run_session_transmitted setup_config env) as H.
  destruct (run_session setup_config env) as [tr e].
  destruct (after_session e env) as [handled r]. cbn in *.
  rewrite transmitted_app, H. by eexists.
Qed.

Lemma quiet_finalizer abandoned : Forall quiet (finalizer abandoned).
Proof. destruct abandoned; repeat constructor. Qed.

Lemma quiet_after_session e env : Forall quiet (after_session e env).1.
Proof. destruct e as [|e ab|ab]; [|destruct e|]; repeat constructor. Qed.

(** The session puts nothing on the event queue, starts none of its
    tasks and writes nothing, or its first [put] is the setup-complete
    event, right after the connection. *)
Lemma run_session_first_put setup_config env :
  (Forall quiet (run_session setup_config env).1 /\
   written ByEgress (run_session setup_config env).1 = [])
  \/
  exists config post,
    (run_session setup_config env).1
    = Connect config :: Enqueue (Some SetupComplete) :: post.
Proof.
  unfold run_session.
  destruct (live_connect_config setup_config) as [config|e];
    [|left; split; [constructor|reflexivity]].
  destruct (connecting env);
    [|left; split; [repeat constructor|reflexivity]..].
  destruct (event_loop (ticks env) [Some SetupComplete]) as [tr e].
  right. by eexists _, _.
Qed.

Lemma supervise_first_put setup_config env :
  (Forall quiet (supervise setup_config env).1 /\
   written ByEgress (supervise setup_config env).1 = [])
  \/
  exists config post,
    (supervise setup_config env).1
    = Start Egress :: Connect config :: Enqueue (Some SetupComplete) :: post.
Proof.
  rewrite supervise_written_egress. unfold supervise.
  pose proof (run_session_first_put setup_config env) as H.
  destruct (run_session setup_config env) as [tr e].
  pose proof (quiet_after_session e env) as Ha.
  destruct (after_session e env) as [handled r]. cbn in *.
  destruct H as [[H Hw]|(config & post & ->)].
  - left. split; [|exact Hw]. constructor; [by split|].
    apply Forall_app. split; [exact H|].
    constructor; [by split|].
    apply Forall_app. split; [exact Ha|apply quiet_finalizer].
  - right. by eexists _, _.
Qed.

Lemma run_session_running setup_config env :
  running [Egress; Ingress] (run_session setup_config env).1 =
  if abandoned_of (run_session setup_config env).2
  then [Receive; ControlForward; AudioForward; Egress; Ingress]
  else [Egress; Ingress].
Proof.
  unfold run_session.
  destruct (live_connect_config setup_config) as [config|e]; [|reflexivity].
  destruct (connecting env); try reflexivity.
  pose proof (event_loop_running (ticks env) [Some SetupComplete]
                [Receive; ControlForward; AudioForward; Egress; Ingress]) as H.
  destruct (event_loop (ticks env) [Some SetupComplete]) as [tr e].
  cbn in *. rewrite H. by destruct (abandoned_of e).
Qed.

(** Every task the endpoint or the session started is stopped in the
    end, however the session ends. *)
Lemma supervise_running setup_config env :
  running [Ingress] (supervise setup_config env).1 = [].
Proof.
  unfold supervise.
  pose proof (run_session_running setup_config env) as H.
  destruct (run_session setup_config env) as [tr e].
  pose proof (after_session_running e env) as Ha.
  destruct (after_session e env) as [handled r]. cbn in *.
  rewrite running_app, H. cbn. rewrite running_app, Ha.
  destruct e as [|e ab|ab]; cbn; try reflexivity; by destruct ab.
Qed.

(** C4. When the deadline of an open session passes, the endpoint sends
    the time-limit error once; whether that send fails or not, it then
    cancels the ingress task and closes the transport with the normal
    code.  A failure of the send is swallowed: the outcome of the endpoint
    does not depend on it.  No task is left running. *)
Theorem deadline_notice_then_teardown ws env claims setup_config tr abandoned :
  verify_ws_token verify_firebase_token ws = Return claims ->
  await_setup (first env) = Return setup_config ->
  run_session setup_config env = (tr, Expired abandoned) ->
  let out := websocket_endpoint str verify_firebase_token ws env in
  out.1 = (Accept :: NewQueues :: Start Ingress :: Start Egress :: tr) ++
          [Stop Egress; Transmit BySupervisor time_limit_notice;
           Stop Ingress; CloseTransport NORMAL_CLOSURE ""] ++
          finalizer abandoned /\
  written BySupervisor out.1 = [time_limit_notice] /\
  running [] out.1 = [] /\
  (forall e, notifying env = Raise e -> is_Exception e = true ->
     out.2 = swallow (closing env)).
Proof.
  intros Hv Hs Hr out. subst out. unfold websocket_endpoint.
  rewrite Hv, Hs.
  pose proof (supervise_running setup_config env) as Hrun.
  pose proof (run_session_supervisor_silent setup_config env) as Hsil.
  unfold supervise in *. rewrite Hr in *. cbn in *.
  split; [|split; [|split]].
  - reflexivity.
  - rewrite written_app, Hsil. cbn. by rewrite written_finalizer.
  - exact Hrun.
  - intros e -> He. cbn. rewrite He. by destruct (swallow (closing env)) as [[]|].
Qed.

(** The failure that the endpoint handles: when the verification raises
    a [ValueError], the connection is accepted and closed at once with code
    4001 and the reason of the failure; nothing else happens: no setup is
    awaited, no queue, task or upstream connection exists.  The code
    differs from the one of a failed setup (4000) and from the normal one
    (1000). *)
Lemma auth_failure_closes_with_4001 ws env e :
  verify_ws_token verify_firebase_token ws = Raise e ->
  is_ValueError e = true ->
  (websocket_endpoint str verify_firebase_token ws env).1
    = [Accept; CloseTransport AUTH_FAILED ("Auth failed: " +:+ str e)] /\
  AUTH_FAILED <> SETUP_FAILED /\ AUTH_FAILED <> NORMAL_CLOSURE.
Proof.
  intros Hv He. unfold websocket_endpoint. rewrite Hv, He.
  repeat split; discriminate.
Qed.

(** A connection without a token, in the query or in the header *)
Lemma verify_ws_token_missing ws :
  last_value "token" (query_params ws) = None ->
  first_value "authorization" (headers ws) = None ->
  verify_ws_token verify_firebase_token ws
  = Raise (ValueError "Missing auth token").
Proof. intros Hq Hh. unfold verify_ws_token. by rewrite Hq, Hh. Qed.

(** C3, as the code has it.  After a successful verification: a first
    frame that does not come in time, cannot be received or decoded, or
    whose decoded value does not support the lookup of ["setup"], closes
    the connection with code 4000 and nothing else happens (no queue, no
    task, no upstream connection).  Every other first frame starts the
    session; in particular a decoded object does, whether it has the key
    or not: without it the session runs on the default configuration
    ([setup_config] is [None]). *)
Theorem setup_handshake_outcomes ws env claims :
  verify_ws_token verify_firebase_token ws = Return claims ->
  let tr := (websocket_endpoint str verify_firebase_token ws env).1 in
  (forall e, await_setup (first env) = Raise e -> is_Exception e = true ->
     tr = [Accept; CloseTransport SETUP_FAILED (setup_reason e)]) /\
  (forall setup_config, await_setup (first env) = Return setup_config ->
     tr = Accept :: NewQueues :: Start Ingress ::
          (supervise setup_config env).1) /\
  (first env = NoFrame -> await_setup (first env) = Raise TimeoutError) /\
  (forall e, first env = ReceiveFailed e \/ first env = FirstText (Raise e) ->
     await_setup (first env) = Raise e) /\
  (forall v, first env = FirstText (Return v) ->
     match v with
     | JNull | JBool _ | JInt _ | JFloat _ =>
         await_setup (first env) = Raise TypeError
     | JObj members =>
         await_setup (first env) = Return (default JNull (assoc "setup" members))
     | _ => True
     end).
Proof.
  intros Hv tr. subst tr. unfold websocket_endpoint. rewrite Hv.
  split; [|split; [|split; [|split]]].
  - intros e -> He. destruct e; try reflexivity; discriminate.
  - intros setup_config ->. by destruct (supervise setup_config env).
  - by intros ->.
  - by intros e [-> | ->].
  - intros v ->. destruct v as [| | | | | |members]; try done.
    cbn. by destruct (assoc "setup" members).
Qed.

(** C9. In every run of the endpoint, either nothing is ever put on the
    event queue (no session was opened, and the egress loop writes
    nothing), or the first [put] is the one of the setup-complete event
    and it comes before the start of the audio-forward, control-forward
    and receive tasks.  The frames of the egress loop are, in order, a
    prefix of [{"setupComplete": true}] followed by the frames of the
    events the receive task puts; and as soon as the egress loop has
    written anything, the first frame on the transport is
    [{"setupComplete": true}]. *)
Theorem setup_complete_comes_first ws env :
  let tr := (websocket_endpoint str verify_firebase_token ws env).1 in
  ((Forall quiet tr /\ written ByEgress tr = [])
   \/ exists pre post,
        tr = pre ++ Enqueue (Some SetupComplete) :: post /\ Forall quiet pre)
  /\ written ByEgress tr
     `prefix_of`
     setupComplete :: map frame_of (events_before_sentinel (produced (ticks env)))
  /\ (written ByEgress tr = [] \/
      exists rest, transmitted tr = setupComplete :: rest).
Proof.
  intros tr. subst tr. unfold websocket_endpoint.
  destruct (verify_ws_token verify_firebase_token ws) as [claims|e].
  2: { destruct (is_ValueError e); cbn;
         (split; [left; split; [repeat constructor|reflexivity]
                 |split; [apply prefix_nil|by left]]). }
  destruct (await_setup (first env)) as [setup_config|e].
  2: { destruct e; cbn;
         (split; [left; split; [repeat constructor|reflexivity]
                 |split; [apply prefix_nil|by left]]). }
  pose proof (supervise_written_egress setup_config env) as Hw.
  pose proof (run_session_fifo setup_config env) as Hfifo.
  pose proof (supervise_transmitted setup_config env) as [later Hall].
  pose proof (supervise_first_put setup_config env) as Hput.
  rewrite <- Hw in Hfifo. clear Hw.
  destruct (supervise setup_config env) as [tr r]. cbn in *.
  split; [|split].
  - destruct Hput as [[Hq Hnone]|(config & post & ->)].
    + left. split; [repeat constructor; exact Hq|exact Hnone].
    + right.
      exists [Accept; NewQueues; Start Ingress; Start Egress; Connect config].
      eexists. split; [reflexivity|repeat constructor].
  - exact Hfifo.
  - rewrite Hall. destruct (written ByEgress tr) as [|f fs]; [by left|right].
    destruct Hfifo as [k Hk]. injection Hk as <- _. by eexists.
Qed.

End EndpointFacts.

(** ** Closed runs of the endpoint *)

(** C3, counterexample.  The first frame is a JSON object without the
    [setup] key.  The connection is not closed with code 4000: queues are
    made, the ingress task is started, the upstream connection is opened
    with the default configuration and the client gets the setup-complete
    frame; the transport is closed with the normal code when the deadline
    of the session has passed. *)
Lemma missing_setup_starts_a_session :
  Main.websocket_endpoint (G := types.strict) sample_str sample_verify
    client env_without_setup
  = ([Main.Accept; Main.NewQueues; Main.Start Main.Ingress;
      Main.Start Main.Egress; Main.Connect default_config;
      Main.Enqueue (Some Pumps.SetupComplete);
      Main.Start Main.AudioForward; Main.Start Main.ControlForward;
      Main.Start Main.Receive;
      Main.Transmit Main.ByEgress setupComplete;
      Main.Stop Main.AudioForward; Main.Stop Main.ControlForward;
      Main.Stop Main.Receive; Main.Disconnect;
      Main.Stop Main.Egress;
      Main.Transmit Main.BySupervisor time_limit_notice;
      Main.Stop Main.Ingress;
      Main.CloseTransport Main.NORMAL_CLOSURE ""],
     Py.Return tt).
Proof. vm_compute. reflexivity. Qed.

(** No frame in time: the connection is closed with code 4000. *)
Lemma setup_handshake_outcomes_witness :
  (Main.websocket_endpoint (G := types.strict) sample_str sample_verify
     client env_silent).1
  = [Main.Accept; Main.CloseTransport Main.SETUP_FAILED "Setup timeout"].
Proof.
  exact (proj1 (setup_handshake_outcomes (G := types.strict) sample_str
                  sample_verify client env_silent
                  [("sub", Py.JStr "user-1")] eq_refl)
           Py.TimeoutError eq_refl eq_refl).
Defined.

(** A connection without a token is closed with code 4001. *)
Lemma auth_failure_closes_with_4001_witness :
  (Main.websocket_endpoint (G := types.strict) sample_str sample_verify
     anonymous env_silent).1
  = [Main.Accept;
     Main.CloseTransport Main.AUTH_FAILED "Auth failed: Missing auth token"].
Proof.
  exact (proj1 (auth_failure_closes_with_4001 (G := types.strict) sample_str
                  sample_verify anonymous env_silent
                  (Py.ValueError "Missing auth token") eq_refl eq_refl)).
Defined.

(** An idle session at its deadline, with a client that has gone: the
    notice is attempted once, the failure is swallowed, no task is left. *)
Lemma deadline_notice_then_teardown_witness :
  let out := Main.websocket_endpoint (G := types.strict) sample_str
               sample_verify client env_deadline in
  Main.written Main.BySupervisor out.1 = [time_limit_notice] /\
  Main.running [] out.1 = [] /\
  out.2 = Py.Return tt.
Proof.
  pose proof (deadline_notice_then_teardown (G := types.strict) sample_str
    sample_verify client env_deadline [("sub", Py.JStr "user-1")]
    (Py.JObj [])
    [Main.Connect default_config; Main.Enqueue (Some Pumps.SetupComplete);
     Main.Start Main.AudioForward; Main.Start Main.ControlForward;
     Main.Start Main.Receive; Main.Transmit Main.ByEgress setupComplete;
     Main.Stop Main.AudioForward; Main.Stop Main.ControlForward;
     Main.Stop Main.Receive; Main.Disconnect]
    false eq_refl eq_refl eq_refl) as (_ & Hw & Hr & Hs).
  split; [exact Hw|split; [exact Hr|]].
  exact (Hs (Py.OtherError "connection closed") eq_refl eq_refl).
Defined.

(** * Further properties of the session configuration translator *)

Section TranslatorFields.
Context {G : Genai}.
Import Fields.

(** ** What each statement assigns to *)

Ltac frame_step :=
  first [ apply keeps_pure | apply keeps_eval
        | apply keeps_assign; congruence
        | apply keeps_seq | apply keeps_try_except | apply keeps_if
        | apply keeps_for_each
        | intro ].

Lemma keeps_response_modalities k sc :
  k <> "response_modalities" -> keeps k (response_modalities sc).
Proof. intros Hk. unfold response_modalities. repeat frame_step. Qed.

Lemma keeps_system_instruction k sc :
  k <> "system_instruction" -> keeps k (system_instruction sc).
Proof.
  intros Hk. unfold system_instruction.
  apply keeps_seq; [apply keeps_eval|intros [|]; [|apply keeps_pure]].
  apply keeps_seq; [apply keeps_eval|intros text].
  destruct text; repeat frame_step.
Qed.

Lemma keeps_compression k sc :
  k <> "context_window_compression" -> keeps k (context_window_compression sc).
Proof. intros Hk. unfold context_window_compression. repeat frame_step. Qed.

Lemma keeps_transcription k sc :
  k <> "output_audio_transcription" -> k <> "input_audio_transcription" ->
  keeps k (audio_transcription sc).
Proof. intros Ho Hi. unfold audio_transcription. repeat frame_step. Qed.

Lemma keeps_speech k sc :
  k <> "speech_config" -> keeps k (speech_config sc).
Proof. intros Hk. unfold speech_config. repeat frame_step. Qed.

(** ** The statements that a configuration has gone through *)

Lemma live_connect_config_falsy sc :
  truthy sc = false -> live_connect_config sc = Return default_config.
Proof. intros H. unfold live_connect_config, parse_setup. by rewrite H. Qed.

Lemma live_connect_config_stages sc cfg :
  live_connect_config sc = Return cfg -> truthy sc = true ->
  exists d1 d2 d3 d4 d5,
    response_modalities sc default_config = (Return tt, d1) /\
    system_instruction sc d1 = (Return tt, d2) /\
    tools sc d2 = (Return tt, d3) /\
    context_window_compression sc d3 = (Return tt, d4) /\
    audio_transcription sc d4 = (Return tt, d5) /\
    speech_config sc d5 = (Return tt, cfg).
Proof.
  unfold live_connect_config, parse_setup, default_config. intros H Ht.
  rewrite Ht in H. revert H. unfold seq.
  destruct (response_modalities sc _) as [[[]|e] d1] eqn:H1; [|discriminate].
  destruct (system_instruction sc d1) as [[[]|e] d2] eqn:H2; [|discriminate].
  destruct (tools sc d2) as [[[]|e] d3] eqn:H3; [|discriminate].
  destruct (context_window_compression sc d3) as [[[]|e] d4] eqn:H4;
    [|discriminate].
  destruct (audio_transcription sc d4) as [[[]|e] d5] eqn:H5; [|discriminate].
  destruct (speech_config sc d5) as [[[]|e] d6] eqn:H6; [|discriminate].
  intros [= <-]. by exists d1, d2, d3, d4, d5.
Qed.

(** ** The shape of the configuration *)

Lemma maintains_pure {A} P (a : A) : maintains P (pure a).
Proof. intros d Hd. exact Hd. Qed.

Lemma maintains_eval_seq {A B} P (r : result A) (f : A -> prog config_args B) :
  (forall a, r = Return a -> maintains P (f a)) -> maintains P (seq (eval r) f).
Proof.
  intros Hf d Hd. unfold seq, eval. destruct r as [a|e]; [|exact Hd].
  by apply Hf.
Qed.

Lemma maintains_seq {A B} P (m : prog config_args A) (f : A -> prog config_args B) :
  maintains P m -> (forall a, maintains P (f a)) -> maintains P (seq m f).
Proof.
  intros Hm Hf d Hd. unfold seq. specialize (Hm d Hd).
  destruct (m d) as [[a|e] d1]; cbn in *; [by apply Hf|exact Hm].
Qed.

Lemma maintains_try_except {A} P (body : prog config_args A) classes handler :
  maintains P body -> (forall e, maintains P (handler e)) ->
  maintains P (try_except body classes handler).
Proof.
  intros Hb Hh d Hd. unfold try_except. specialize (Hb d Hd).
  destruct (body d) as [[a|e] d1]; cbn in *; [exact Hb|].
  destruct (classes e); cbn; [by apply Hh|exact Hb].
Qed.

Lemma maintains_if {A} P (b : bool) (m1 m2 : prog config_args A) :
  maintains P m1 -> maintains P m2 -> maintains P (if b then m1 else m2).
Proof. by destruct b. Qed.

Lemma maintains_for_each {A} P xs (body : A -> prog config_args unit) :
  (forall x, maintains P (body x)) -> maintains P (for_each xs body).
Proof.
  intros Hb. induction xs as [|x xs IH]; cbn.
  - apply maintains_pure.
  - apply maintains_seq; [apply Hb|intros _; exact IH].
Qed.

Lemma well_formed_assign k v :
  kind_ok k v -> maintains well_formed (assign k v).
Proof.
  intros Hk d Hd k' v'. cbn. destruct (decide (k = k')) as [<-|Hne].
  - rewrite lookup_insert_eq. by intros [= <-].
  - rewrite lookup_insert_ne by done. apply Hd.
Qed.

Lemma mkSpeechConfig_kind v sc :
  mkSpeechConfig v = Return sc -> sc = PrebuiltVoice v.
Proof.
  unfold mkSpeechConfig.
  destruct v; try (destruct (accepts_voice_name _)); congruence.
Qed.

Ltac shape_step :=
  first [ apply maintains_pure
        | apply well_formed_assign; cbn; auto
        | apply maintains_eval_seq; intros ? ?
        | apply maintains_seq | apply maintains_try_except | apply maintains_if
        | apply maintains_for_each
        | intro ].

Lemma well_formed_parse_setup sc : maintains well_formed (parse_setup sc).
Proof.
  unfold parse_setup. apply maintains_if; [|apply maintains_pure].
  apply maintains_seq; [|intros _; apply maintains_seq;
    [|intros _; apply maintains_seq;
      [|intros _; apply maintains_seq;
        [|intros _; apply maintains_seq; [|intros _]]]]].
  - unfold response_modalities. repeat shape_step.
  - unfold system_instruction.
    apply maintains_eval_seq. intros [|] _; [|apply maintains_pure].
    apply maintains_eval_seq. intros text _.
    destruct text; repeat shape_step.
  - unfold tools.
    apply maintains_eval_seq. intros [|] _; [|apply maintains_pure].
    apply maintains_try_except; [|intros; apply maintains_pure].
    apply maintains_eval_seq. intros v _.
    destruct v; try apply maintains_pure.
    apply maintains_for_each. intros b. unfold tool_block_body.
    repeat shape_step.
  - unfold context_window_compression. repeat shape_step.
  - unfold audio_transcription. repeat shape_step.
  - unfold speech_config.
    apply maintains_eval_seq. intros [|] _; [|apply maintains_pure].
    apply maintains_try_except; [|intros; apply maintains_pure].
    apply maintains_eval_seq. intros v _.
    apply maintains_eval_seq. intros sc' Hsc.
    rewrite (mkSpeechConfig_kind _ _ Hsc).
    by apply well_formed_assign.
Qed.

Lemma keeps_parse_setup_modalities sc d :
  (exists ms, d !! "response_modalities" = Some (Modalities ms)) ->
  exists ms, (parse_setup sc d).2 !! "response_modalities"
             = Some (Modalities ms).
Proof.
  intros Hd. unfold parse_setup. destruct (truthy sc); [|exact Hd].
  assert (exists ms, (response_modalities sc d).2 !! "response_modalities"
                     = Some (Modalities ms)) as H1.
  { unfold response_modalities, seq, eval.
    destruct (contains _ _) as [[|]|e]; cbn; try exact Hd.
    destruct (getitem _ _) as [v|e]; cbn; [|exact Hd].
    destruct (_ ≫= _) as [ms|e]; cbn; [|exact Hd].
    exists ms. apply lookup_insert_eq. }
  unfold seq at 1.
  assert (keeps "response_modalities"
            (system_instruction sc ;;; tools sc ;;;
             context_window_compression sc ;;; audio_transcription sc ;;;
             speech_config sc)) as Hk.
  { apply keeps_seq; [by apply keeps_system_instruction|intros _].
    apply keeps_seq; [by apply keeps_tools|intros _].
    apply keeps_seq; [by apply keeps_compression|intros _].
    apply keeps_seq; [by apply keeps_transcription|intros _].
    by apply keeps_speech. }
  destruct (response_modalities sc d) as [[[]|e] d1]; cbn in *; [|exact H1].
  by rewrite Hk.
Qed.

(** X1. Whatever the setup object is, a configuration that the translator
    builds holds the response modalities, and every entry it holds is one of
    the seven keywords the translator knows, with a value of its kind: one
    [Content] of one [Part], one [Tool], the sliding window, a transcription
    configuration, a prebuilt voice.  No field of the client can add another
    keyword. *)
Theorem configuration_is_well_formed sc cfg :
  live_connect_config sc = Return cfg ->
  well_formed cfg /\
  exists ms, cfg !! "response_modalities" = Some (Modalities ms).
Proof.
  unfold live_connect_config. intros H.
  pose proof (well_formed_parse_setup sc
                {[ "response_modalities" := Modalities [AUDIO] ]}) as Hw.
  pose proof (keeps_parse_setup_modalities sc
                {[ "response_modalities" := Modalities [AUDIO] ]}) as Hm.
  destruct (parse_setup sc _) as [[[]|e] d]; [|discriminate].
  injection H as <-. cbn in *. split.
  - apply Hw. intros k v Hkv.
    apply lookup_singleton_Some in Hkv as [<- <-]. reflexivity.
  - apply Hm. by exists [AUDIO].
Qed.

(** ** The fields the translator reads *)

Lemma seq_ext {S A B} (m1 m2 : prog S A) (k1 k2 : A -> prog S B) :
  (forall d, m1 d = m2 d) -> (forall a d, k1 a d = k2 a d) ->
  forall d, seq m1 k1 d = seq m2 k2 d.
Proof.
  intros Hm Hk d. unfold seq. rewrite Hm.
  destruct (m2 d) as [[a|e] d1]; [apply Hk|reflexivity].
Qed.

Lemma response_modalities_ext m1 m2 d :
  assoc "responseModalities" m1 = assoc "responseModalities" m2 ->
  response_modalities (JObj m1) d = response_modalities (JObj m2) d.
Proof. intros H. unfold response_modalities, contains, getitem. by rewrite H. Qed.

Lemma system_instruction_ext m1 m2 d :
  assoc "systemInstruction" m1 = assoc "systemInstruction" m2 ->
  system_instruction (JObj m1) d = system_instruction (JObj m2) d.
Proof. intros H. unfold system_instruction, contains, getitem. by rewrite H. Qed.

Lemma tools_ext m1 m2 d :
  assoc "tools" m1 = assoc "tools" m2 ->
  tools (JObj m1) d = tools (JObj m2) d.
Proof. intros H. unfold tools, contains, getitem. by rewrite H. Qed.

Lemma compression_ext m1 m2 d :
  assoc "contextWindowCompression" m1 = assoc "contextWindowCompression" m2 ->
  context_window_compression (JObj m1) d
  = context_window_compression (JObj m2) d.
Proof.
  intros H. unfold context_window_compression, contains, getitem.
  by rewrite H.
Qed.

Lemma transcription_ext m1 m2 d :
  assoc "outputAudioTranscription" m1 = assoc "outputAudioTranscription" m2 ->
  assoc "inputAudioTranscription" m1 = assoc "inputAudioTranscription" m2 ->
  audio_transcription (JObj m1) d = audio_transcription (JObj m2) d.
Proof. intros Ho Hi. unfold audio_transcription, contains. by rewrite Ho, Hi. Qed.

Lemma speech_ext m1 m2 d :
  assoc "speechConfig" m1 = assoc "speechConfig" m2 ->
  speech_config (JObj m1) d = speech_config (JObj m2) d.
Proof.
  intros H. unfold speech_config, contains, getitem. by rewrite H.
Qed.

(** The statements run on a setup object even when it is empty: on [{}]
    each of them finds its field absent. *)
Lemma parse_setup_object m d :
  parse_setup (JObj m) d =
  (response_modalities (JObj m) ;;; system_instruction (JObj m) ;;;
   tools (JObj m) ;;; context_window_compression (JObj m) ;;;
   audio_transcription (JObj m) ;;; speech_config (JObj m)) d.
Proof. by destruct m. Qed.

Lemma parse_setup_ext m1 m2 :
  (forall d, response_modalities (JObj m1) d = response_modalities (JObj m2) d) ->
  (forall d, system_instruction (JObj m1) d = system_instruction (JObj m2) d) ->
  (forall d, tools (JObj m1) d = tools (JObj m2) d) ->
  (forall d, context_window_compression (JObj m1) d
             = context_window_compression (JObj m2) d) ->
  (forall d, audio_transcription (JObj m1) d = audio_transcription (JObj m2) d) ->
  (forall d, speech_config (JObj m1) d = speech_config (JObj m2) d) ->
  live_connect_config (JObj m1) = live_connect_config (JObj m2).
Proof.
  intros H1 H2 H3 H4 H5 H6. unfold live_connect_config.
  rewrite !parse_setup_object.
  assert (forall d,
    (response_modalities (JObj m1) ;;; system_instruction (JObj m1) ;;;
     tools (JObj m1) ;;; context_window_compression (JObj m1) ;;;
     audio_transcription (JObj m1) ;;; speech_config (JObj m1)) d =
    (response_modalities (JObj m2) ;;; system_instruction (JObj m2) ;;;
     tools (JObj m2) ;;; context_window_compression (JObj m2) ;;;
     audio_transcription (JObj m2) ;;; speech_config (JObj m2)) d) as ->;
    [|reflexivity].
  repeat (apply seq_ext; [assumption|intros _]). assumption.
Qed.

Ltac fields H :=
  unfold agree_on, fields_but, setup_fields in H; cbn in H;
  repeat (apply Forall_cons in H; destruct H as [? H]); clear H.

(** X2. The translator reads seven fields of the setup object and nothing
    else: two setup objects that agree on them give the same configuration,
    or raise the same exception.  Any other member, and the order of the
    members, is ignored. *)
Theorem translator_reads_only_its_fields m1 m2 :
  agree_on setup_fields m1 m2 ->
  live_connect_config (JObj m1) = live_connect_config (JObj m2).
Proof.
  intros H. fields H.
  apply parse_setup_ext; intros d;
    auto using response_modalities_ext, system_instruction_ext, tools_ext,
      compression_ext, transcription_ext, speech_ext.
Qed.

(** X3. The two forms of [systemInstruction] are the same to the upstream: a
    string, and an object whose [parts] is a list that starts with an object
    whose [text] is that string.  Whatever else the object, the list and the
    part hold is dropped. *)
Theorem system_instruction_forms_agree m1 m2 s o p0 others :
  agree_on (fields_but "systemInstruction") m1 m2 ->
  assoc "systemInstruction" m1 = Some (JStr s) ->
  assoc "systemInstruction" m2 = Some (JObj o) ->
  assoc "parts" o = Some (JArr (JObj p0 :: others)) ->
  assoc "text" p0 = Some (JStr s) ->
  live_connect_config (JObj m1) = live_connect_config (JObj m2).
Proof.
  intros H Hs Ho Hp Ht. fields H.
  apply parse_setup_ext; intros d;
    auto using response_modalities_ext, tools_ext,
      compression_ext, transcription_ext, speech_ext.
  unfold system_instruction, contains, getitem. rewrite Hs, Ho. cbn.
  unfold try_except, seq, eval, getitem. rewrite Hp. cbn. by rewrite Ht.
Qed.

(** ** The guard around [tools] isolates the field *)

Lemma blind_pure {A} (a : A) : blind (pure a).
Proof. intros d1 d2. by split. Qed.

Lemma blind_eval {A} (r : result A) : blind (eval r).
Proof. intros d1 d2. by split. Qed.

Lemma blind_assign k v : blind (assign k v).
Proof.
  intros d1 d2. split; [reflexivity|]. intros k' H. cbn.
  destruct (decide (k = k')) as [<-|Hne].
  - by rewrite !lookup_insert_eq.
  - by rewrite !lookup_insert_ne.
Qed.

Lemma blind_seq {A B} (m : prog config_args A) (f : A -> prog config_args B) :
  blind m -> (forall a, blind (f a)) -> blind (seq m f).
Proof.
  intros Hm Hf d1 d2. destruct (Hm d1 d2) as [Hr Hk]. unfold seq.
  destruct (m d1) as [[a|e] d1'], (m d2) as [[a'|e'] d2']; cbn in *;
    try discriminate.
  - injection Hr as <-. destruct (Hf a d1' d2') as [Hr' Hk'].
    split; [exact Hr'|]. intros k H. apply Hk', Hk, H.
  - injection Hr as <-. split; [reflexivity|exact Hk].
Qed.

Lemma blind_try_except {A} (body : prog config_args A) classes handler :
  blind body -> (forall e, blind (handler e)) ->
  blind (try_except body classes handler).
Proof.
  intros Hb Hh d1 d2. destruct (Hb d1 d2) as [Hr Hk]. unfold try_except.
  destruct (body d1) as [[a|e] d1'], (body d2) as [[a'|e'] d2']; cbn in *;
    try discriminate.
  - split; [exact Hr|exact Hk].
  - injection Hr as <-. destruct (classes e); [|split; [reflexivity|exact Hk]].
    destruct (Hh e d1' d2') as [Hr' Hk'].
    split; [exact Hr'|]. intros k H. apply Hk', Hk, H.
Qed.

Lemma blind_if {A} (b : bool) (m1 m2 : prog config_args A) :
  blind m1 -> blind m2 -> blind (if b then m1 else m2).
Proof. by destruct b. Qed.

Ltac blind_step :=
  first [ apply blind_pure | apply blind_eval | apply blind_assign
        | apply blind_seq | apply blind_try_except | apply blind_if
        | intro ].

Lemma blind_after_tools sc :
  blind (context_window_compression sc ;;; audio_transcription sc ;;;
         speech_config sc).
Proof.
  unfold context_window_compression, audio_transcription, speech_config.
  repeat blind_step.
Qed.

Lemma live_connect_config_object m :
  live_connect_config (JObj m) =
  match response_modalities (JObj m) default_config with
  | (Raise e, _) => Raise e
  | (Return _, d1) =>
      match system_instruction (JObj m) d1 with
      | (Raise e, _) => Raise e
      | (Return _, d2) =>
          match tools (JObj m) d2 with
          | (Raise e, _) => Raise e
          | (Return _, d3) =>
              match (context_window_compression (JObj m) ;;;
                     audio_transcription (JObj m) ;;;
                     speech_config (JObj m)) d3 with
              | (Raise e, _) => Raise e
              | (Return _, d) => Return d
              end
          end
      end
  end.
Proof.
  unfold live_connect_config. rewrite parse_setup_object.
  unfold default_config. unfold seq at 1.
  destruct (response_modalities _ _) as [[[]|e] d1]; [|reflexivity].
  unfold seq at 1.
  destruct (system_instruction _ _) as [[[]|e] d2]; [|reflexivity].
  unfold seq at 1.
  destruct (tools _ _) as [[[]|e] d3]; reflexivity.
Qed.

(** X4. Whatever a setup object has in [tools], it changes neither whether
    the translator completes nor any other entry of the configuration: two
    setup objects that differ in [tools] only both give a configuration, the
    same but for the entry [tools], or both raise the same exception. *)
Theorem tools_field_is_isolated m1 m2 :
  agree_on (fields_but "tools") m1 m2 ->
  match live_connect_config (JObj m1), live_connect_config (JObj m2) with
  | Return c1, Return c2 => forall k, k <> "tools" -> c1 !! k = c2 !! k
  | Raise e1, Raise e2 => e1 = e2
  | _, _ => False
  end.
Proof.
  intros H. fields H. rewrite !live_connect_config_object.
  rewrite (response_modalities_ext m1 m2) by assumption.
  destruct (response_modalities (JObj m2) default_config) as [[[]|e] d1];
    [|reflexivity].
  rewrite (system_instruction_ext m1 m2) by assumption.
  destruct (system_instruction (JObj m2) d1) as [[[]|e] d2]; [|reflexivity].
  destruct (tools_guarded m1 d2) as (d31 & -> & K1).
  destruct (tools_guarded m2 d2) as (d32 & -> & K2).
  assert (forall d,
    (context_window_compression (JObj m1) ;;; audio_transcription (JObj m1) ;;;
     speech_config (JObj m1)) d =
    (context_window_compression (JObj m2) ;;; audio_transcription (JObj m2) ;;;
     speech_config (JObj m2)) d) as ->.
  { repeat (apply seq_ext; [|intros _]); intros d;
      auto using compression_ext, transcription_ext, speech_ext. }
  destruct (blind_after_tools (JObj m2) d31 d32) as [Hr Hk].
  destruct ((context_window_compression (JObj m2) ;;; _) d31) as [[[]|e1] c1],
           ((context_window_compression (JObj m2) ;;; _) d32) as [[[]|e2] c2];
    cbn in *; try discriminate.
  - intros k Hne. apply Hk. by rewrite K1, K2.
  - congruence.
Qed.

(** ** The entries of the configuration, field by field *)

Lemma default_config_lookup k :
  k <> "response_modalities" -> default_config !! k = None.
Proof. intros Hk. unfold default_config. by rewrite lookup_singleton_ne. Qed.

Lemma falsy_has_no_key k sc :
  truthy sc = false -> k <> "" -> contains k sc <> Return true.
Proof.
  intros Ht Hk. destruct sc as [| | | |s|items|members]; try discriminate.
  - destruct s; [|discriminate]. cbn. destruct k; [done|discriminate].
  - by destruct items.
  - by destruct members.
Qed.

(** X5. The transcription of either direction is switched on by the presence
    of its field, whatever the value of the field is ([false] and [null]
    switch it on too), and is off when the field is absent. *)
Theorem transcription_enabled_by_presence sc cfg :
  live_connect_config sc = Return cfg ->
  cfg !! "output_audio_transcription" =
    match contains "outputAudioTranscription" sc with
    | Return true => Some AudioTranscriptionConfig
    | _ => None
    end /\
  cfg !! "input_audio_transcription" =
    match contains "inputAudioTranscription" sc with
    | Return true => Some AudioTranscriptionConfig
    | _ => None
    end.
Proof.
  intros H. destruct (truthy sc) eqn:Ht.
  2: { rewrite (live_connect_config_falsy sc Ht) in H. injection H as <-.
       rewrite !default_config_lookup by discriminate.
       pose proof (falsy_has_no_key "outputAudioTranscription" sc Ht) as Ho.
       pose proof (falsy_has_no_key "inputAudioTranscription" sc Ht) as Hi.
       destruct (contains "outputAudioTranscription" sc) as [[|]|];
         destruct (contains "inputAudioTranscription" sc) as [[|]|];
         try (by exfalso; apply Ho); try (by exfalso; apply Hi); by split. }
  destruct (live_connect_config_stages sc cfg H Ht)
    as (d1 & d2 & d3 & d4 & d5 & H1 & H2 & H3 & H4 & H5 & H6).
  assert (forall k, k <> "response_modalities" -> k <> "system_instruction" ->
            k <> "tools" -> k <> "context_window_compression" ->
            d4 !! k = None) as Hnone.
  { intros k Ha Hb Hc Hd.
    pose proof (keeps_compression k sc Hd d3) as K4. rewrite H4 in K4.
    pose proof (keeps_tools k sc Hc d2) as K3. rewrite H3 in K3.
    pose proof (keeps_system_instruction k sc Hb d1) as K2. rewrite H2 in K2.
    pose proof (keeps_response_modalities k sc Ha default_config) as K1.
    rewrite H1 in K1. cbn in *.
    rewrite K4, K3, K2, K1. by apply default_config_lookup. }
  pose proof (keeps_speech "output_audio_transcription" sc
                ltac:(discriminate) d5) as Ko.
  pose proof (keeps_speech "input_audio_transcription" sc
                ltac:(discriminate) d5) as Ki.
  rewrite H6 in Ko, Ki. cbn in Ko, Ki. rewrite Ko, Ki. clear Ko Ki H6.
  revert H5. unfold audio_transcription, seq, eval.
  destruct (contains "outputAudioTranscription" sc) as [[|]|e]; cbn;
    [| |discriminate];
    (destruct (contains "inputAudioTranscription" sc) as [[|]|e']; cbn;
     [| |discriminate]);
    intros [= <-];
    rewrite ?lookup_insert_eq, ?(lookup_insert_ne _ _ _ _),
            ?lookup_insert_eq, ?Hnone by discriminate; by split.
Qed.

Lemma getitem_raises v k e : getitem v k = Raise e -> is_Key_Type e = true.
Proof.
  destruct v as [| | | | | |members]; cbn; try by intros [= <-].
  destruct (assoc k members); [discriminate|]. by intros [= <-].
Qed.

Lemma mkSpeechConfig_raises v e :
  mkSpeechConfig v = Raise e -> e = ValidationError.
Proof.
  unfold mkSpeechConfig.
  destruct v; try destruct (accepts_voice_name _); congruence.
Qed.

(** The statement of lines 123-136 on a setup object: it completes
    without a change when the path does not resolve, and otherwise sets the
    voice found there or raises what the library raises for it. *)
Lemma speech_config_object members d :
  speech_config (JObj members) d =
  match voice_name (JObj members) with
  | Raise _ => (Return tt, d)
  | Return v =>
      match mkSpeechConfig v with
      | Return x => (Return tt, <["speech_config" := x]> d)
      | Raise e => (Raise e, d)
      end
  end.
Proof.
  unfold speech_config, voice_name, seq, eval, try_except. cbn.
  destruct (assoc "speechConfig" members) as [a|]; cbn; [|reflexivity].
  destruct (getitem a "voiceConfig") as [b|e1] eqn:H1; cbn;
    [|by rewrite (getitem_raises _ _ _ H1)].
  destruct (getitem b "prebuiltVoiceConfig") as [c|e2] eqn:H2; cbn;
    [|by rewrite (getitem_raises _ _ _ H2)].
  destruct (getitem c "voiceName") as [v|e3] eqn:H3; cbn;
    [|by rewrite (getitem_raises _ _ _ H3)].
  destruct (mkSpeechConfig v) as [x|e4] eqn:H4; cbn; [reflexivity|].
  by rewrite (mkSpeechConfig_raises _ _ H4).
Qed.

Lemma voice_entry sc cfg :
  live_connect_config sc = Return cfg ->
  cfg !! "speech_config" =
    match voice_name sc with
    | Return v => Some (PrebuiltVoice v)
    | Raise _ => None
    end.
Proof.
  intros H. destruct (truthy sc) eqn:Ht.
  2: { rewrite (live_connect_config_falsy sc Ht) in H. injection H as <-.
       rewrite default_config_lookup by discriminate.
       unfold voice_name.
       destruct sc as [| | | |s|items|members]; try reflexivity.
       destruct members; [reflexivity|discriminate]. }
  destruct (live_connect_config_stages sc cfg H Ht)
    as (d1 & d2 & d3 & d4 & d5 & H1 & H2 & H3 & H4 & H5 & H6).
  assert (d5 !! "speech_config" = None) as Hnone.
  { pose proof (keeps_transcription "speech_config" sc
                  ltac:(discriminate) ltac:(discriminate) d4) as K5.
    rewrite H5 in K5.
    pose proof (keeps_compression "speech_config" sc
                  ltac:(discriminate) d3) as K4. rewrite H4 in K4.
    pose proof (keeps_tools "speech_config" sc ltac:(discriminate) d2) as K3.
    rewrite H3 in K3.
    pose proof (keeps_system_instruction "speech_config" sc
                  ltac:(discriminate) d1) as K2. rewrite H2 in K2.
    pose proof (keeps_response_modalities "speech_config" sc
                  ltac:(discriminate) default_config) as K1.
    rewrite H1 in K1. cbn in *.
    rewrite K5, K4, K3, K2, K1. by apply default_config_lookup. }
  revert H6. unfold speech_config, voice_name, seq, eval, try_except.
  destruct sc as [| | | |s|items|members]; try discriminate.
  - (* a string *)
    cbn. destruct (is_substring _ _); intros [= <-]; exact Hnone.
  - (* a list *)
    cbn. destruct (existsb _ _); intros [= <-]; exact Hnone.
  - (* an object *)
    cbn. destruct (assoc "speechConfig" members) as [a|]; cbn;
      [|intros [= <-]; exact Hnone].
    destruct (getitem a "voiceConfig") as [b|e1]; cbn;
      [|destruct e1; try discriminate; intros [= <-]; exact Hnone].
    destruct (getitem b "prebuiltVoiceConfig") as [c|e2]; cbn;
      [|destruct e2; try discriminate; intros [= <-]; exact Hnone].
    destruct (getitem c "voiceName") as [v|e3] eqn:Hv; cbn;
      [|destruct e3; try discriminate; intros [= <-]; exact Hnone].
    destruct (mkSpeechConfig v) as [x|e4] eqn:Hx; cbn.
    + intros [= <-]. rewrite (mkSpeechConfig_kind _ _ Hx).
      apply lookup_insert_eq.
    + assert (e4 = ValidationError) as ->; [|discriminate].
      unfold mkSpeechConfig in Hx.
      destruct v; try destruct (accepts_voice_name _); congruence.
Qed.

(** X6. The voice is set exactly when the whole path
    [speechConfig.voiceConfig.prebuiltVoiceConfig.voiceName] resolves, to
    the value found there; a [speechConfig] with a missing key or with a
    value that is no object on the way is left out without an error.  On
    such a setup object the statement of lines 123-136 completes and leaves
    the dictionary as it is; the translator then does exactly what it does
    on the same setup object without [speechConfig]; and every
    configuration that is built has the voice of the path, or none when the
    path does not resolve. *)
Theorem voice_is_set_when_the_path_resolves :
  (forall members d e,
     voice_name (JObj members) = Raise e ->
     speech_config (JObj members) d = (Return tt, d)) /\
  (forall m1 m2 e,
     agree_on (fields_but "speechConfig") m1 m2 ->
     voice_name (JObj m1) = Raise e ->
     assoc "speechConfig" m2 = None ->
     live_connect_config (JObj m1) = live_connect_config (JObj m2)) /\
  (forall sc cfg,
     live_connect_config sc = Return cfg ->
     cfg !! "speech_config" =
       match voice_name sc with
       | Return v => Some (PrebuiltVoice v)
       | Raise _ => None
       end).
Proof.
  split; [|split; [|apply voice_entry]].
  - intros members d e H. by rewrite speech_config_object, H.
  - intros m1 m2 e H Hbroken Habsent. fields H.
    apply parse_setup_ext; intros d;
      auto using response_modalities_ext, system_instruction_ext, tools_ext,
        compression_ext, transcription_ext.
    rewrite !speech_config_object, Hbroken.
    unfold voice_name. cbn. by rewrite Habsent.
Qed.

(** X7. The responses are audio unless the setup object asks for something
    else: without [responseModalities] the configuration has the audio
    modality alone; with it, it has the members of the list the client gave,
    in the order of the list, and not the audio default. *)
Theorem audio_is_the_default_modality sc cfg :
  live_connect_config sc = Return cfg ->
  match contains "responseModalities" sc with
  | Return true =>
      exists v items ms,
        getitem sc "responseModalities" = Return v /\
        iter v = Return items /\
        comprehension to_Modality items = Return ms /\
        cfg !! "response_modalities" = Some (Modalities ms)
  | _ => cfg !! "response_modalities" = Some (Modalities [AUDIO])
  end.
Proof.
  intros H. destruct (truthy sc) eqn:Ht.
  2: { rewrite (live_connect_config_falsy sc Ht) in H. injection H as <-.
       pose proof (falsy_has_no_key "responseModalities" sc Ht) as Hno.
       destruct (contains "responseModalities" sc) as [[|]|];
         try (by exfalso; apply Hno); reflexivity. }
  destruct (live_connect_config_stages sc cfg H Ht)
    as (d1 & d2 & d3 & d4 & d5 & H1 & H2 & H3 & H4 & H5 & H6).
  assert (cfg !! "response_modalities" = d1 !! "response_modalities") as ->.
  { pose proof (keeps_speech "response_modalities" sc
                  ltac:(discriminate) d5) as K6. rewrite H6 in K6.
    pose proof (keeps_transcription "response_modalities" sc
                  ltac:(discriminate) ltac:(discriminate) d4) as K5.
    rewrite H5 in K5.
    pose proof (keeps_compression "response_modalities" sc
                  ltac:(discriminate) d3) as K4. rewrite H4 in K4.
    pose proof (keeps_tools "response_modalities" sc
                  ltac:(discriminate) d2) as K3. rewrite H3 in K3.
    pose proof (keeps_system_instruction "response_modalities" sc
                  ltac:(discriminate) d1) as K2. rewrite H2 in K2.
    cbn in *. by rewrite K6, K5, K4, K3, K2. }
  revert H1. unfold response_modalities, seq, eval.
  destruct (contains "responseModalities" sc) as [[|]|e]; cbn;
    [| |discriminate].
  - destruct (getitem sc "responseModalities") as [v|e]; cbn; [|discriminate].
    destruct (iter v) as [items|e] eqn:Hi; cbn; [|discriminate].
    destruct (comprehension to_Modality items) as [ms|e] eqn:Hc; cbn;
      [|discriminate].
    intros [= <-]. exists v, items, ms.
    repeat split; first [done|apply lookup_insert_eq].
  - by intros [= <-].
Qed.

(** ** The entry of [tools] *)

Lemma for_each_blocks_tools blocks d :
  (for_each blocks tool_block_body d).2 !! "tools" =
  match last_declared blocks with
  | Some fds => Some (Tools [ {| function_declarations := fds |} ])
  | None => d !! "tools"
  end.
Proof.
  revert d. induction blocks as [|b blocks IH]; intros d; [reflexivity|].
  cbn [for_each]. unfold seq. rewrite tool_block_body_spec.
  unfold last_declared in *. cbn [reached].
  assert (forall l, omap declared (b :: l) =
            match declared b with
            | Some fds => fds :: omap declared l
            | None => omap declared l
            end) as Hcons by reflexivity.
  destruct (block_declarations b) as [[fds|]|e] eqn:Hb.
  - rewrite Hcons. unfold declared at 1. rewrite Hb, last_cons, IH.
    destruct (last _); [reflexivity|]. apply lookup_insert_eq.
  - rewrite Hcons. unfold declared at 1. rewrite Hb. apply IH.
  - reflexivity.
Qed.

Lemma tools_list_entry members blocks d :
  assoc "tools" members = Some (JArr blocks) ->
  exists d',
    tools (JObj members) d = (Return tt, d') /\
    d' !! "tools" =
      match last_declared blocks with
      | Some fds => Some (Tools [ {| function_declarations := fds |} ])
      | None => d !! "tools"
      end.
Proof.
  intros Ha. pose proof (for_each_blocks_tools blocks d) as Hloop.
  unfold tools, contains, getitem, seq, eval, try_except. rewrite Ha. cbn.
  destruct (for_each blocks tool_block_body d) as [[[]|e] d1] eqn:Hrun.
  - by exists d1.
  - rewrite (for_each_blocks_ordinary _ _ _ _ Hrun). by exists d1.
Qed.

(** C10, as the code has it.  The loop over the [tools] list goes
    through the elements up to the first one that raises (an element that
    is no object, a block whose declarations cannot be read or are
    refused), which ends it; what was assigned before stays.  Among the
    blocks it goes through, each block with [functionDeclarations]
    replaces the entry: the upstream configuration carries one [Tool] with
    the declarations of the last such block, and no [tools] at all when
    there is none.  Reading [tools] always completes. *)
Theorem tools_last_reached_block_wins members blocks :
  assoc "tools" members = Some (JArr blocks) ->
  (forall d, exists d',
     tools (JObj members) d = (Return tt, d') /\
     d' !! "tools" =
       match last_declared blocks with
       | Some fds => Some (Tools [ {| function_declarations := fds |} ])
       | None => d !! "tools"
       end) /\
  (forall cfg, live_connect_config (JObj members) = Return cfg ->
     cfg !! "tools" =
       match last_declared blocks with
       | Some fds => Some (Tools [ {| function_declarations := fds |} ])
       | None => None
       end).
Proof.
  intros Ha. split; [intros d; by apply tools_list_entry|].
  intros cfg H.
  assert (truthy (JObj members) = true) as Ht
    by (destruct members; [discriminate|reflexivity]).
  destruct (live_connect_config_stages _ cfg H Ht)
    as (d1 & d2 & d3 & d4 & d5 & H1 & H2 & H3 & H4 & H5 & H6).
  assert (d2 !! "tools" = None) as Hnone.
  { pose proof (keeps_system_instruction "tools" (JObj members)
                  ltac:(discriminate) d1) as K2. rewrite H2 in K2.
    pose proof (keeps_response_modalities "tools" (JObj members)
                  ltac:(discriminate) default_config) as K1.
    rewrite H1 in K1. cbn in *. rewrite K2, K1.
    by apply default_config_lookup. }
  destruct (tools_list_entry members blocks d2 Ha) as (d3' & Hrun & Hentry).
  rewrite Hrun in H3. injection H3 as ->.
  pose proof (keeps_after_tools (JObj members) d3) as Hk.
  unfold seq in Hk. rewrite H4, H5, H6 in Hk. cbn in Hk.
  rewrite Hk, Hentry, Hnone. reflexivity.
Qed.

End TranslatorFields.

(** * Further properties of the client-to-upstream paths *)

Section PathFacts.
Context {G : Genai}.
Variable session : upstream_call -> result unit.
Import Fields.

(** ** The audio path *)

Lemma send_audio_from_accepted outcome first rate chunks :
  (forall i, (i < length chunks)%nat ->
     raised (outcome (first + i)%nat) = None) ->
  send_audio_from outcome first rate chunks
  = (map (fun c => send_realtime_input c rate) chunks, Cancelled).
Proof.
  revert first. induction chunks as [|c chunks IH]; intros first H;
    [reflexivity|].
  cbn. pose proof (H 0%nat ltac:(cbn; lia)) as H0.
  rewrite Nat.add_0_r in H0.
  destruct (outcome first) as [[]|e]; [|discriminate].
  rewrite IH; [reflexivity|].
  intros i Hi. rewrite Nat.add_succ_comm. apply H. cbn. lia.
Qed.

Lemma send_audio_from_refused outcome first rate chunks n e :
  (n < length chunks)%nat ->
  (forall i, (i < n)%nat -> raised (outcome (first + i)%nat) = None) ->
  outcome (first + n)%nat = Raise e ->
  send_audio_from outcome first rate chunks
  = (map (fun c => send_realtime_input c rate) (take (S n) chunks),
     pump_end_of e).
Proof.
  revert first n. induction chunks as [|c chunks IH]; intros first n Hn H He;
    [cbn in Hn; lia|].
  destruct n as [|n].
  - rewrite Nat.add_0_r in He. cbn. rewrite He. by rewrite take_0.
  - pose proof (H 0%nat ltac:(lia)) as H0. rewrite Nat.add_0_r in H0.
    cbn [send_audio_from]. destruct (outcome first) as [[]|e']; [|discriminate].
    rewrite (IH (S first) n).
    + reflexivity.
    + cbn in Hn. lia.
    + intros i Hi. rewrite Nat.add_succ_comm. apply H. lia.
    + by rewrite Nat.add_succ_comm.
Qed.

(** X8. The audio-forward task makes one call for each chunk it takes from
    its queue, in the order of the queue and with the sample rate it was
    given, whatever the chunks are and however the upstream connection
    decides.  When the upstream accepts every call, every chunk is
    forwarded and the task ends only by its cancellation; the first call
    that the upstream refuses is the last one: the task ends with that
    exception (the task catches its cancellation only) and the chunks
    behind it are not forwarded. *)
Theorem send_audio_forwards_in_order outcome rate chunks :
  let call c := send_realtime_input c rate in
  ((forall i, (i < length chunks)%nat -> raised (outcome i) = None) ->
     send_audio outcome rate chunks = (map call chunks, Cancelled)) /\
  (forall n e,
     (n < length chunks)%nat ->
     (forall i, (i < n)%nat -> raised (outcome i) = None) ->
     outcome n = Raise e ->
     send_audio outcome rate chunks
     = (map call (take (S n) chunks), pump_end_of e)).
Proof.
  intros call. unfold send_audio. split.
  - intros H. by apply send_audio_from_accepted.
  - intros n e Hn H He. by apply send_audio_from_refused.
Qed.

(** ** The ingress task *)

Lemma receive_from_client_cong pre r1 r2 l1 l2 :
  Ingress.receive_from_client r1 l1 = Ingress.receive_from_client r2 l2 ->
  Ingress.receive_from_client (pre ++ r1) l1
  = Ingress.receive_from_client (pre ++ r2) l2.
Proof.
  intros H. induction pre as [|m pre IH]; [exact H|].
  cbn. destruct m as [chunk|decoded|].
  - by rewrite IH.
  - destruct (Ingress.on_text decoded) as [[msg|]|e]; [by rewrite IH|exact IH|reflexivity].
  - exact IH.
Qed.

(** X9. What the ingress task puts on the audio queue is, in order, the
    binary payloads it received that are not empty: an empty payload is
    never queued, none is queued twice or out of order.  All of them are
    queued when no text message ends the task, which then ends with the
    exception of [websocket.receive()]. *)
Theorem audio_queue_holds_the_nonempty_chunks messages last :
  let out := Ingress.receive_from_client messages last in
  Forall (fun c => c <> []) out.1.1 /\
  out.1.1 `prefix_of` List.filter Ingress.nonempty (Ingress.chunks_of messages) /\
  (Forall (fun m => forall d, m = TextMessage d ->
                      raised (Ingress.on_text d) = None) messages ->
   out.1.1 = List.filter Ingress.nonempty (Ingress.chunks_of messages) /\
   out.2 = last).
Proof.
  cbn zeta. induction messages as [|m messages IH]; cbn.
  - repeat split; [constructor|apply prefix_nil].
  - destruct IH as (Hne & Hpre & Hall).
    destruct m as [chunk|decoded|]; cbn.
    + destruct (Ingress.receive_from_client messages last) as [[audio texts] e].
      cbn in *. destruct chunk as [|b chunk]; cbn.
      * split; [exact Hne|split; [exact Hpre|]].
        intros H. apply Hall. by apply Forall_inv_tail in H.
      * split; [by constructor|split; [by apply prefix_cons|]].
        intros H. apply Forall_inv_tail in H.
        destruct (Hall H) as [-> ->]. by split.
    + destruct (Ingress.on_text decoded) as [[msg|]|e] eqn:Hd.
      * destruct (Ingress.receive_from_client messages last)
          as [[audio texts] e]. cbn in *.
        split; [exact Hne|split; [exact Hpre|]].
        intros H. apply Hall. by apply Forall_inv_tail in H.
      * split; [exact Hne|split; [exact Hpre|]].
        intros H. apply Hall. by apply Forall_inv_tail in H.
      * cbn. split; [constructor|split; [apply prefix_nil|]].
        intros H. apply Forall_inv in H. specialize (H decoded eq_refl).
        rewrite Hd in H. discriminate.
    + split; [exact Hne|split; [exact Hpre|]].
      intros H. apply Hall. by apply Forall_inv_tail in H.
Qed.

Lemma on_text_not_a_dict payload :
  is_dict payload = false ->
  exists e, Ingress.on_text (Return payload) = Raise e /\
            (e = TypeError \/ e = AttributeError).
Proof.
  intros H. destruct payload as [| | | |s|items|members]; try discriminate;
    try (by exists TypeError; split; [reflexivity|left]).
  - cbn. destruct (is_substring "clientContent" s); cbn;
      [by exists TypeError; split; [|left]|].
    destruct (is_substring "toolResponse" s); cbn;
      [by exists TypeError; split; [|left]|].
    by exists AttributeError; split; [|right].
  - cbn. destruct (existsb (is_str "clientContent") items); cbn;
      [by exists TypeError; split; [|left]|].
    destruct (existsb (is_str "toolResponse") items); cbn;
      [by exists TypeError; split; [|left]|].
    by exists AttributeError; split; [|right].
Qed.

(** X10. A text message whose JSON value is not an object ends the ingress
    task: a number, a boolean, [null], a string or a list makes the loop
    raise [TypeError] or [AttributeError], which only the handler around the
    whole loop takes.  From then on nothing of what the client sends is
    read: the queues hold what was received before that message, whatever
    comes after it. *)
Theorem non_object_text_ends_ingress payload :
  is_dict payload = false ->
  exists e,
    Ingress.on_text (Return payload) = Raise e /\
    (e = TypeError \/ e = AttributeError) /\
    is_Exception e = true /\
    forall pre post last,
      Ingress.receive_from_client (pre ++ TextMessage (Return payload) :: post) last
      = Ingress.receive_from_client pre e.
Proof.
  intros H. destruct (on_text_not_a_dict payload H) as (e & He & Hcls).
  exists e. split; [exact He|split; [exact Hcls|split]].
  - by destruct Hcls as [-> | ->].
  - intros pre post last.
    rewrite <- (app_nil_r pre) at 2.
    apply receive_from_client_cong. cbn [Ingress.receive_from_client].
    by rewrite He.
Qed.

(** X11. The messages the loop has no use for leave no trace: a message that
    is neither bytes nor text, an empty binary payload, a text that is not
    JSON and an object without [clientContent] and [toolResponse] can be
    taken out of what the client sends without any change to what is queued
    and to how the task ends. *)
Theorem dropped_messages_leave_no_trace pre m post last :
  Ingress.ignored m ->
  Ingress.receive_from_client (pre ++ m :: post) last
  = Ingress.receive_from_client (pre ++ post) last.
Proof.
  intros H. apply receive_from_client_cong.
  destruct H as [-> | [-> | [-> | (members & -> & Hc & Hr)]]]; try reflexivity.
  - cbn. by destruct (Ingress.receive_from_client post last) as [[audio texts] e].
  - cbn. by rewrite Hc, Hr.
Qed.

(** ** The control path, from the client's payload to the upstream call *)

(** X12. A content turn is forwarded as one [send] call with the [turns] and
    the [turnComplete] of the payload as they are, whatever their types: an
    absent [turns] goes as the empty string, an absent [turnComplete] as
    [False].  A [toolResponse] beside the [clientContent] is not looked at. *)
Theorem content_turn_is_forwarded_as_sent members cc :
  assoc "clientContent" members = Some (JObj cc) ->
  control_path (JObj members)
  = Return (Some (send (default (JStr "") (assoc "turns" cc))
                       (default (JBool false) (assoc "turnComplete" cc)))).
Proof.
  intros H. unfold control_path, on_text. cbn. rewrite H. reflexivity.
Qed.

(** X13. A tool response without records: when [functionResponses] is absent
    or [null] no upstream call is made at all; when it is the empty list, a
    call is made, with no record in it. *)
Theorem tool_response_without_records members tr :
  assoc "clientContent" members = None ->
  assoc "toolResponse" members = Some (JObj tr) ->
  (assoc "functionResponses" tr = None \/
   assoc "functionResponses" tr = Some JNull ->
   control_path (JObj members) = Return None) /\
  (assoc "functionResponses" tr = Some (JArr []) ->
   control_path (JObj members) = Return (Some (send_tool_response []))).
Proof.
  intros Hc Hr. unfold control_path, on_text. cbn. rewrite Hc, Hr. cbn.
  split.
  - by intros [-> | ->].
  - by intros ->.
Qed.

Lemma comprehension_bad_record pre r post :
  Forall (fun x => raised (function_response x) = None) pre ->
  is_dict r = false ->
  comprehension function_response (pre ++ r :: post) = Raise AttributeError.
Proof.
  intros Hpre Hr. induction Hpre as [|x pre Hx _ IH]; cbn.
  - by destruct r.
  - destruct (function_response x); [|discriminate]. cbn. by rewrite IH.
Qed.

(** X14. One malformed tool response ends the control-forward task.  When a
    record of the list is not an object (the records before it being
    accepted), the loop raises [AttributeError]; when [functionResponses] is
    a number or a boolean, it raises [TypeError].  Nothing catches either:
    no call is made for that message, and the messages behind it (tool
    responses and content turns alike) are never forwarded. *)
Theorem bad_record_ends_control_forwarding msgs :
  (forall pre r post,
     Forall (fun x => raised (function_response x) = None) pre ->
     is_dict r = false ->
     send_text session (tool_response_msg (JArr (pre ++ r :: post)) :: msgs)
     = ([], Crashed AttributeError)) /\
  (forall fr,
     match fr with JBool _ | JInt _ | JFloat _ => True | _ => False end ->
     send_text session (tool_response_msg fr :: msgs)
     = ([], Crashed TypeError)).
Proof.
  split.
  - intros pre r post Hpre Hr. cbn.
    by rewrite (comprehension_bad_record pre r post Hpre Hr).
  - intros fr Hfr. by destruct fr.
Qed.

End PathFacts.

(** * Further properties of the endpoint *)

Section EndpointRuns.
Context {G : Genai}.
Variable str : exn -> string.
Variable verify_firebase_token : string -> result (list (string * json)).
Import Observers.

Lemma closes_app a b : closes (a ++ b) = closes a ++ closes b.
Proof.
  induction a as [|x a IH]; [reflexivity|].
  destruct x; cbn; by rewrite ?IH.
Qed.

Lemma connects_app a b : connects (a ++ b) = connects a ++ connects b.
Proof.
  induction a as [|x a IH]; [reflexivity|].
  destruct x; cbn; by rewrite ?IH.
Qed.

Lemma after_close_app a b : closes a = [] -> after_close (a ++ b) = after_close b.
Proof.
  induction a as [|x a IH]; [reflexivity|].
  destruct x; cbn; try exact IH. discriminate.
Qed.

Lemma event_loop_closes schedule q : closes (event_loop schedule q).1 = [].
Proof.
  revert q. induction schedule as [|t schedule IH]; intros q; [reflexivity|].
  destruct t as [x|o]; cbn [event_loop].
  - specialize (IH (q ++ [x])).
    destruct (event_loop schedule (q ++ [x])) as [tr e]. exact IH.
  - destruct q as [|[ev|] q']; [apply IH| |reflexivity].
    specialize (IH q'). destruct o; cbn; try reflexivity.
    destruct (event_loop schedule q') as [tr e]. exact IH.
Qed.

Lemma run_session_closes setup_config env :
  closes (run_session setup_config env).1 = [].
Proof.
  unfold run_session.
  destruct (live_connect_config setup_config) as [config|e]; [|reflexivity].
  destruct (connecting env); try reflexivity.
  pose proof (event_loop_closes (ticks env) [Some SetupComplete]) as H.
  destruct (event_loop (ticks env) [Some SetupComplete]) as [tr e]. exact H.
Qed.

Lemma after_session_closes e env :
  closes (after_session e env).1 = [(NORMAL_CLOSURE, "")] /\
  transmitted (after_close (after_session e env).1) = [].
Proof. destruct e as [|e ab|ab]; [|destruct e|]; by split. Qed.

Lemma finalizer_silent abandoned :
  closes (finalizer abandoned) = [] /\ transmitted (finalizer abandoned) = [].
Proof. by destruct abandoned. Qed.

Lemma supervise_closes setup_config env :
  closes (supervise setup_config env).1 = [(NORMAL_CLOSURE, "")] /\
  transmitted (after_close (supervise setup_config env).1) = [].
Proof.
  unfold supervise.
  pose proof (run_session_closes setup_config env) as Hrun.
  destruct (run_session setup_config env) as [tr e].
  destruct (after_session_closes e env) as [Hc Ht].
  destruct (after_session e env) as [handled r]. cbn in *.
  destruct (finalizer_silent (abandoned_of e)) as [Hfc Hft].
  split.
  - rewrite closes_app, Hrun. cbn. by rewrite closes_app, Hc, Hfc.
  - rewrite after_close_app by exact Hrun. cbn.
    destruct handled as [|a handled]; [discriminate|].
    revert Hc Ht. generalize (a :: handled). intros l Hc Ht.
    induction l as [|x l IH]; [discriminate|].
    destruct x; cbn in *; try (by apply IH).
    by rewrite transmitted_app, Ht, Hft.
Qed.

(** X15. However a connection goes (refused, closed at the handshake, a
    session that ends, fails or runs into its deadline, a client that has
    gone), every task that the endpoint or the session started has been
    stopped at the end of the run.  The tasks of a session that was left
    suspended at its [yield] are stopped by the finalization of its
    generator. *)
Theorem no_task_outlives_the_endpoint ws env :
  running [] (websocket_endpoint str verify_firebase_token ws env).1 = [].
Proof.
  unfold websocket_endpoint.
  destruct (verify_ws_token verify_firebase_token ws) as [claims|e].
  2: { by destruct (is_ValueError e). }
  destruct (await_setup (first env)) as [setup_config|e].
  2: { by destruct e. }
  pose proof (supervise_running setup_config env) as H.
  destruct (supervise setup_config env) as [tr r]. exact H.
Qed.

(** X16. The transport is closed at most once, and nothing is written on it
    after the close.  The code tells what happened: 4001 for a refused
    token, 4000 for a failed handshake, and the normal code exactly for the
    connections on which a session was started.  The only runs without a
    close are those that an exception left: before the accept (a
    verification that raises something else than [ValueError]) or right
    after it. *)
Theorem transport_is_closed_once ws env :
  let tr := (websocket_endpoint str verify_firebase_token ws env).1 in
  ((closes tr = [] /\ (tr = [] \/ tr = [Accept])) \/
   exists code reason,
     closes tr = [(code, reason)] /\
     (code = AUTH_FAILED \/ code = SETUP_FAILED \/ code = NORMAL_CLOSURE) /\
     (code = NORMAL_CLOSURE <-> In (Start Egress) tr)) /\
  transmitted (after_close tr) = [].
Proof.
  cbn zeta. unfold websocket_endpoint.
  destruct (verify_ws_token verify_firebase_token ws) as [claims|e].
  2: { destruct (is_ValueError e); cbn.
       - split; [right|reflexivity]. eexists _, _. split; [reflexivity|].
         split; [by left|]. split; [discriminate|].
         intros [H|[H|[]]]; discriminate.
       - split; [left|reflexivity]. split; [reflexivity|by left]. }
  destruct (await_setup (first env)) as [setup_config|e].
  2: { assert (forall reason,
         ((closes [Accept; CloseTransport SETUP_FAILED reason] = [] /\
           ([Accept; CloseTransport SETUP_FAILED reason] = [] \/
            [Accept; CloseTransport SETUP_FAILED reason] = [Accept])) \/
          exists code reason',
            closes [Accept; CloseTransport SETUP_FAILED reason]
              = [(code, reason')] /\
            (code = AUTH_FAILED \/ code = SETUP_FAILED \/ code = NORMAL_CLOSURE) /\
            (code = NORMAL_CLOSURE <->
             In (Start Egress) [Accept; CloseTransport SETUP_FAILED reason])) /\
         transmitted (after_close [Accept; CloseTransport SETUP_FAILED reason])
           = []) as Hfail.
       { intros reason. split; [right|reflexivity].
         eexists _, _. split; [reflexivity|].
         split; [by right; left|]. split; [discriminate|].
         intros [H|[H|[]]]; discriminate. }
       destruct e; cbn; try apply Hfail.
       split; [left|reflexivity]. split; [reflexivity|by right]. }
  destruct (supervise_closes setup_config env) as [Hc Ht].
  assert (exists tr', (supervise setup_config env).1 = Start Egress :: tr')
    as [tr' Hstart].
  { unfold supervise. destruct (run_session setup_config env) as [tr1 e1].
    destruct (after_session e1 env) as [handled r]. by eexists. }
  destruct (supervise setup_config env) as [tr r]. cbn in *.
  split; [right|exact Ht].
  exists NORMAL_CLOSURE, "". split; [exact Hc|].
  split; [by right; right|]. split; [|done].
  intros _. rewrite Hstart. right. right. right. by left.
Qed.

(** X17. A session that fails before it is set up ends without a word.  When
    the translator raises on the setup object, or the upstream connection
    cannot be opened, the endpoint writes no frame at all (no
    [setupComplete], no error message) and closes the transport with the
    normal code; the client cannot tell the failure from a normal end. When
    the translator raises, no upstream connection is attempted. *)
Theorem early_failure_is_a_silent_normal_close ws env claims setup_config e :
  verify_ws_token verify_firebase_token ws = Return claims ->
  await_setup (first env) = Return setup_config ->
  live_connect_config setup_config = Raise e \/
    (raised (live_connect_config setup_config) = None /\
     connecting env = ConnectFailed e) ->
  e <> TimeoutError ->
  let tr := (websocket_endpoint str verify_firebase_token ws env).1 in
  transmitted tr = [] /\
  closes tr = [(NORMAL_CLOSURE, "")] /\
  running [] tr = [] /\
  (live_connect_config setup_config = Raise e -> connects tr = []).
Proof.
  intros Hv Hs Hfail Hne. cbn zeta. unfold websocket_endpoint.
  rewrite Hv, Hs. unfold supervise, run_session.
  destruct Hfail as [Ht | [Ht Hc]].
  - rewrite Ht. cbn. destruct e; try done.
  - destruct (live_connect_config setup_config) as [config|e']; [|discriminate].
    rewrite Hc. cbn. destruct e; try done.
Qed.

Lemma event_loop_ended schedule q tr :
  event_loop schedule q = (tr, Ended) ->
  written ByEgress tr
  = map frame_of (events_before_sentinel (q ++ produced schedule)).
Proof.
  revert q tr. induction schedule as [|t schedule IH]; intros q tr;
    [discriminate|].
  destruct t as [x|o]; cbn [event_loop produced].
  - destruct (event_loop schedule (q ++ [x])) as [tr' e'] eqn:Hrun.
    intros [= <- ->]. cbn.
    rewrite (IH _ _ Hrun). by rewrite <- app_assoc.
  - destruct q as [|[ev|] q']; [apply IH| |by intros [= <-]].
    destruct o; [|discriminate..].
    destruct (event_loop schedule q') as [tr' e'] eqn:Hrun.
    intros [= <- ->]. cbn. by rewrite (IH _ _ Hrun).
Qed.

Lemma supervise_ended_transmitted setup_config env tr :
  run_session setup_config env = (tr, Ended) ->
  transmitted (supervise setup_config env).1
  = setupComplete
    :: map frame_of (events_before_sentinel (produced (ticks env))).
Proof.
  intros Hrun.
  pose proof (run_session_transmitted setup_config env) as Ht.
  unfold supervise. rewrite Hrun in *. cbn in *.
  rewrite transmitted_app, Ht. cbn. rewrite app_nil_r.
  revert Hrun. unfold run_session.
  destruct (live_connect_config setup_config) as [config|e]; [|discriminate].
  destruct (connecting env); try discriminate.
  destruct (event_loop (ticks env) [Some SetupComplete]) as [tr' e'] eqn:Hloop.
  intros [= <- ->]. cbn.
  by rewrite (event_loop_ended _ _ _ Hloop).
Qed.

(** X18. When a session ends by the sentinel of the receive task, the client
    has been sent everything: the frames on the transport are
    [{"setupComplete": true}] and then the frame of every event that the
    receive task queued before the sentinel, each once and in the order of
    the queue.  Nothing else is written, the time-limit message included. *)
Theorem ended_session_delivered_everything ws env claims setup_config tr :
  verify_ws_token verify_firebase_token ws = Return claims ->
  await_setup (first env) = Return setup_config ->
  run_session setup_config env = (tr, Ended) ->
  transmitted (websocket_endpoint str verify_firebase_token ws env).1
  = setupComplete
    :: map frame_of (events_before_sentinel (produced (ticks env))).
Proof.
  intros Hv Hs Hrun. unfold websocket_endpoint. rewrite Hv, Hs.
  pose proof (supervise_ended_transmitted setup_config env tr Hrun) as H.
  destruct (supervise setup_config env) as [tr' r]. exact H.
Qed.



End EndpointRuns.

(** * Properties of the authentication *)

Section TokenOfAConnection.
Variable verify_firebase_token : string -> result (list (string * json)).

Lemma last_value_last k pre v :
  last_value k (pre ++ [(k, v)]) = Some v.
Proof.
  induction pre as [|[k' v'] pre IH]; cbn.
  - by rewrite String.eqb_refl.
  - by rewrite IH.
Qed.

Lemma verify_ws_token_cases ws :
  verify_ws_token verify_firebase_token ws
    = Raise (ValueError "Missing auth token") \/
  exists t,
    t <> "" /\ Tokens.carries ws t /\
    verify_ws_token verify_firebase_token ws = verify_firebase_token t.
Proof.
  unfold verify_ws_token.
  destruct (missing (last_value "token" (query_params ws))) eqn:Hm.
  - destruct (first_value "authorization" (headers ws)) as [h|] eqn:Hh.
    + change (default "" (Some h)) with h.
      destruct (String.prefix "bearer " (lower h)) eqn:Hp.
      * destruct (String.eqb_spec (from 7 h) "") as [_|Hne]; [by left|].
        right. exists (from 7 h). split; [exact Hne|split; [|reflexivity]].
        right. split; [exact Hm|]. by exists h.
      * left. revert Hm. unfold missing.
        destruct (last_value "token" (query_params ws)) as [t|]; [|done].
        by intros ->.
    + change (String.prefix "bearer " (lower (default "" None))) with false.
      cbn match. left. revert Hm. unfold missing.
      destruct (last_value "token" (query_params ws)) as [t|]; [|done].
      by intros ->.
  - destruct (last_value "token" (query_params ws)) as [t|] eqn:Hq;
      [|discriminate].
    cbn in Hm. rewrite Hm. right. exists t.
    split; [|split; [by left|reflexivity]].
    intros ->. discriminate.
Qed.

Lemma verify_ws_token_carried ws t :
  t <> "" -> Tokens.carries ws t ->
  verify_ws_token verify_firebase_token ws = verify_firebase_token t.
Proof.
  intros Hne [Hq | (Hm & h & Hh & Hp & ->)]; unfold verify_ws_token.
  - rewrite Hq. cbn [missing].
    destruct (String.eqb_spec t "") as [|_]; [done|].
    by destruct (String.eqb_spec t "").
  - rewrite Hm, Hh. change (default "" (Some h)) with h. rewrite Hp.
    by destruct (String.eqb_spec (from 7 h) "").
Qed.

(** X20. Whatever the connection carries, [verify_ws_token] either raises
    the missing-token error or hands a token that is not empty to
    [verify_firebase_token] and returns or raises what that does: it never
    returns claims of its own, and never asks for the verification of the
    empty string.  The token is the [token] of the query (the one given
    last, when the parameter is repeated), or, when that is absent or
    empty, what follows the first seven characters of the first
    [authorization] header, which starts with [bearer ] in any letter case;
    and whenever the connection carries such a token that is not empty, it
    is the one that is verified. *)
Theorem ws_token_is_verified_or_missing ws :
  (verify_ws_token verify_firebase_token ws
     = Raise (ValueError "Missing auth token") \/
   exists t,
     t <> "" /\ Tokens.carries ws t /\
     verify_ws_token verify_firebase_token ws = verify_firebase_token t) /\
  (forall t, t <> "" -> Tokens.carries ws t ->
     verify_ws_token verify_firebase_token ws = verify_firebase_token t) /\
  (forall pre t, t <> "" ->
     query_params ws = pre ++ [("token", t)] ->
     verify_ws_token verify_firebase_token ws = verify_firebase_token t).
Proof.
  split; [apply verify_ws_token_cases|].
  split; [intros t; apply verify_ws_token_carried|].
  intros pre t Hne Hq. apply verify_ws_token_carried; [exact Hne|].
  left. rewrite Hq. by apply last_value_last.
Qed.

Lemma bearer_scheme scheme t :
  lower scheme = "bearer " ->
  String.prefix "bearer " (lower (scheme +:+ t)) = true /\
  from 7 (scheme +:+ t) = t.
Proof.
  intros H.
  destruct scheme as [|c1 [|c2 [|c3 [|c4 [|c5 [|c6 [|c7 [|c8 rest]]]]]]]];
    cbn [lower] in H; try discriminate.
  injection H as H1 H2 H3 H4 H5 H6 H7.
  split; [|reflexivity].
  change (String.prefix "bearer "
            (String (lower_char c1) (String (lower_char c2)
              (String (lower_char c3) (String (lower_char c4)
                (String (lower_char c5) (String (lower_char c6)
                  (String (lower_char c7) (lower t)))))))) = true).
  rewrite H1, H2, H3, H4, H5, H6, H7. cbn. by destruct (lower t).
Qed.

(** X21. Where the token is taken from.  A token in the query that is not
    empty is the one that is verified, whatever the headers are; when the
    parameter is given several times, it is the value given last that
    counts, also for telling whether the query has a token at all.  Without
    one (no [token] in the query, or an empty one), a first header
    [authorization] made of the word [bearer] in any letter case, one space
    and a token gives that token. *)
Theorem query_token_takes_precedence ws :
  (forall t, last_value "token" (query_params ws) = Some t -> t <> "" ->
     verify_ws_token verify_firebase_token ws = verify_firebase_token t) /\
  (forall pre t, query_params ws = pre ++ [("token", t)] -> t <> "" ->
     verify_ws_token verify_firebase_token ws = verify_firebase_token t) /\
  (forall scheme t,
     missing (last_value "token" (query_params ws)) = true ->
     first_value "authorization" (headers ws) = Some (scheme +:+ t) ->
     lower scheme = "bearer " -> t <> "" ->
     verify_ws_token verify_firebase_token ws = verify_firebase_token t).
Proof.
  assert (forall t, last_value "token" (query_params ws) = Some t -> t <> "" ->
            verify_ws_token verify_firebase_token ws = verify_firebase_token t)
    as Hquery.
  { intros t Hq Hne. unfold verify_ws_token. rewrite Hq. cbn.
    destruct (String.eqb_spec t "") as [|_]; [done|]. cbn.
    by destruct (String.eqb_spec t ""). }
  split; [exact Hquery|split].
  - intros pre t Hq Hne. apply Hquery; [|exact Hne].
    rewrite Hq. apply last_value_last.
  - intros scheme t Hm Hh Hs Hne. unfold verify_ws_token.
    rewrite Hm, Hh. change (default "" (Some (scheme +:+ t))) with (scheme +:+ t).
    destruct (bearer_scheme scheme t Hs) as [-> ->].
    by destruct (String.eqb_spec t "").
Qed.

End TokenOfAConnection.

Section TokenVerification.
Variable key : Type.
Variable get_unverified_header : string -> Firebase.jwt_error + list (string * json).
Variable public_key : string -> result key.
Variable decode : string -> key -> Firebase.jwt_error + list (string * json).

Local Abbreviation verify :=
  (Firebase.verify_firebase_token key get_unverified_header public_key decode).

Lemma verify_firebase_token_checked certs id_token claims :
  verify certs id_token = Return claims ->
  Firebase.checked key get_unverified_header public_key decode
    certs id_token claims.
Proof.
  unfold Firebase.checked, Firebase.verify_firebase_token.
  destruct certs as [table|e]; [|discriminate]. cbn.
  destruct (get_unverified_header id_token) as [[]|header] eqn:Hh;
    try discriminate. cbn.
  destruct (assoc "kid" header) as [kid|] eqn:Hkid; [|discriminate]. cbn.
  unfold Firebase.unknown_key, Firebase.subscript.
  destruct (truthy kid) eqn:Ht; [|discriminate]. cbn.
  destruct kid as [| | | |kid| |]; try discriminate. cbn.
  destruct (assoc kid table) as [cert|] eqn:Hc; [|discriminate]. cbn.
  destruct cert as [| | | |pem| |]; try discriminate. cbn.
  destruct (public_key pem) as [k|e] eqn:Hk; [|discriminate]. cbn.
  destruct (decode id_token k) as [[]|decoded] eqn:Hd; try discriminate. cbn.
  destruct (truthy (default JNull (assoc "sub" decoded))) eqn:Hs;
    [|discriminate].
  intros [= <-]. exists table, header, kid, pem, k.
  repeat split; try done.
  intros ->. discriminate.
Qed.

(** X22. Claims are returned exactly for a token that passed the check of
    its signature and of its standard claims under a certificate of Google:
    the table of certificates was obtained, the header of the token names a
    key of the table by a string that is not empty, the certificate of that
    key gave a public key, [jwt.decode] returned these very claims under
    that key, and the claims have a subject that is not empty.  Nothing else
    makes the function return, and all of this does. *)
Theorem claims_only_after_signature_check certs id_token claims :
  verify certs id_token = Return claims <->
  exists table header kid pem k,
    certs = Return table /\
    get_unverified_header id_token = inr header /\
    assoc "kid" header = Some (JStr kid) /\ kid <> "" /\
    assoc kid table = Some (JStr pem) /\
    public_key pem = Return k /\
    decode id_token k = inr claims /\
    truthy (default JNull (assoc "sub" claims)) = true.
Proof.
  split; [apply verify_firebase_token_checked|].
  intros (table & header & kid & pem & k & -> & Hh & Hkid & Hne & Hc & Hk
          & Hd & Hs).
  unfold Firebase.verify_firebase_token. cbn. rewrite Hh. cbn.
  rewrite Hkid. cbn. unfold Firebase.unknown_key, Firebase.subscript. cbn.
  destruct (String.eqb_spec kid "") as [|_]; [done|]. cbn.
  rewrite Hc. cbn. rewrite Hk. cbn. rewrite Hd. cbn. by rewrite Hs.
Qed.


(** X24. The dependency of the REST routes lets a request through only with
    the claims of a bearer token that is not empty and that passed the check
    of its signature.  Every refusal it makes itself is a 401: a missing or
    empty token, and any [ValueError] of the verification; what is not a
    [ValueError] goes on as it is. *)
Theorem require_auth_answers_401 str certs credentials :
  match Firebase.require_auth key get_unverified_header public_key decode
          str certs credentials with
  | Firebase.Claims claims =>
      exists token,
        credentials = Some token /\ token <> "" /\
        Firebase.checked key get_unverified_header public_key decode
          certs token claims
  | Firebase.HTTPException status_code _ => status_code = 401
  | Firebase.Uncaught e =>
      is_ValueError e = false /\
      exists token, credentials = Some token /\ verify certs token = Raise e
  end.
Proof.
  unfold Firebase.require_auth.
  destruct credentials as [token|]; [|reflexivity].
  destruct (String.eqb_spec token "") as [|Hne]; [reflexivity|].
  destruct (Firebase.verify_firebase_token _ _ _ _ certs token)
    as [claims|e] eqn:Hv.
  - exists token. split; [reflexivity|split; [exact Hne|]].
    by apply verify_firebase_token_checked.
  - destruct (is_ValueError e) eqn:He; [reflexivity|].
    split; [exact He|]. by exists token.
Qed.

(** C6.  Not every failed verification is closed with 4001.
    [verify_firebase_token] turns into a [ValueError] the [DecodeError] of
    [get_unverified_header] (line 88) and the failures of [jwt.decode]
    (lines 110-117), and nothing else, although it is documented to raise
    [ValueError] on any failure.  When the library refuses the header of the
    token with another exception of its family, or the header names its key
    by a list, the verification raises an exception that is no
    [ValueError]: the handler of [main.py] line 95 does not take it, and the
    endpoint raises before it has accepted the connection.  There is no
    accept and no close with code 4001. *)
Theorem refused_header_is_not_closed_with_4001 {G : Genai}
    str table ws env token :
  token <> "" -> Tokens.carries ws token ->
  (exists msg,
     get_unverified_header token = inl (Firebase.InvalidTokenError msg)) \/
  (exists header x items,
     get_unverified_header token = inr header /\
     assoc "kid" header = Some (JArr (x :: items))) ->
  match verify (Return table) token with
  | Raise e =>
      is_ValueError e = false /\
      websocket_endpoint str (verify (Return table)) ws env = ([], Raise e)
  | Return _ => False
  end.
Proof.
  intros Hne Hc Hheader.
  assert (exists e, is_ValueError e = false /\
                    verify (Return table) token = Raise e) as (e & He & Hv).
  { unfold Firebase.verify_firebase_token. cbn.
    destruct Hheader as [(msg & ->) | (header & x & items & -> & Hkid)]; cbn.
    - by exists (OtherError msg).
    - rewrite Hkid. cbn. by exists TypeError. }
  rewrite Hv. split; [exact He|].
  unfold websocket_endpoint.
  rewrite (verify_ws_token_carried (verify (Return table)) ws token Hne Hc), Hv.
  by rewrite He.
Qed.

(** X25. No session without a signed token.  Either the connection carries a
    token that is not empty and that passed the check of its signature, or
    the endpoint does at most accept the connection and close it with code
    4001: it makes no queue, starts no task, opens no upstream connection
    and writes no frame. *)
Theorem session_requires_a_signed_token {G : Genai} str certs ws env :
  let tr := (websocket_endpoint str (verify certs) ws env).1 in
  (exists token claims,
     token <> "" /\ Tokens.carries ws token /\
     Firebase.checked key get_unverified_header public_key decode
       certs token claims) \/
  (tr = [] \/ exists reason, tr = [Accept; CloseTransport AUTH_FAILED reason]).
Proof.
  cbn zeta. unfold websocket_endpoint.
  destruct (verify_ws_token_cases (verify certs) ws) as [-> | (t & Hne & Hc & ->)].
  { right. right. by eexists. }
  destruct (Firebase.verify_firebase_token _ _ _ _ certs t)
    as [claims|e] eqn:Hv.
  - left. exists t, claims. split; [exact Hne|split; [exact Hc|]].
    by apply verify_firebase_token_checked.
  - right. destruct (is_ValueError e); [right; by eexists|by left].
Qed.

End TokenVerification.

Section CertificateCache.
Variable time : Type.
Variable before : time -> time -> bool.
Variable after_ttl : time -> time.

Local Abbreviation fetch :=
  (Firebase._fetch_google_certs time before after_ttl).

(** X26. The cache and what a call gives are always in step.  A call changes
    the cache only by storing a value it has fetched, with the expiry one
    time to live after the fetch; a fetch that fails leaves the cache as it
    was.  What a call returns is what the cache holds after it.  And a call
    raises only when it has nothing to serve (the cache is empty after it)
    or when the exception is no [Exception]. *)
Theorem cache_and_answer_stay_in_step now again stamp fetched c :
  let out := fetch now again stamp fetched c in
  (out.2 = c \/
   exists v, fetched = Return v /\
     out.2 = {| Firebase._certs := v;
                Firebase._certs_expiry := after_ttl stamp |}) /\
  (forall e, fetched = Raise e -> out.2 = c) /\
  (forall v, out.1 = Return v -> v = Firebase._certs out.2) /\
  (forall e, out.1 = Raise e ->
     truthy (Firebase._certs out.2) = false \/ is_Exception e = false).
Proof.
  cbn zeta. unfold Firebase._fetch_google_certs.
  destruct (truthy (Firebase._certs c) && before now (Firebase._certs_expiry c));
    [cbn; repeat split; [by left|congruence|discriminate]|].
  destruct (truthy (Firebase._certs c) && before again (Firebase._certs_expiry c));
    [cbn; repeat split; [by left|congruence|discriminate]|].
  destruct fetched as [v|e].
  - destruct (Firebase.len v) as [n|e'].
    + cbn. repeat split; [right; by exists v|discriminate|congruence|discriminate].
    + destruct (truthy v) eqn:Hv; cbn.
      * repeat split; [right; by exists v|discriminate|congruence|discriminate].
      * repeat split; [right; by exists v|discriminate|discriminate|].
        intros e0 _. by left.
  - destruct (is_Exception e) eqn:He; cbn.
    + destruct (truthy (Firebase._certs c)) eqn:Hc; cbn.
      * repeat split; [by left|congruence|discriminate].
      * repeat split; [by left|discriminate|]. intros e0 _. by left.
    + repeat split; [by left|discriminate|]. intros e0 [= <-]. by right.
Qed.

(** X27. A refresh is served until it expires, without another fetch.  When
    a call finds the cache empty or expired and fetches a table that is not
    empty, it returns it; and every later call whose clock reads a time
    before the expiry (the time of the fetch plus the time to live) returns
    the same table and leaves the cache as it is, whatever a fetch would
    give then. *)
Theorem refreshed_certs_are_served_until_expiry
    now again stamp v c now' again' stamp' fetched' :
  truthy (Firebase._certs c)
    && (before now (Firebase._certs_expiry c)
        || before again (Firebase._certs_expiry c)) = false ->
  truthy v = true ->
  before now' (after_ttl stamp) = true ->
  let first_call := fetch now again stamp (Return v) c in
  first_call.1 = Return v /\
  fetch now' again' stamp' fetched' first_call.2 = (Return v, first_call.2).
Proof.
  intros Hold Hv Hfresh. cbn zeta. unfold Firebase._fetch_google_certs.
  assert (truthy (Firebase._certs c) && before now (Firebase._certs_expiry c)
          = false) as ->.
  { destruct (truthy _), (before now _); try done. }
  assert (truthy (Firebase._certs c) && before again (Firebase._certs_expiry c)
          = false) as ->.
  { destruct (truthy _), (before now _), (before again _); try done. }
  destruct (Firebase.len v) as [n|e]; rewrite ?Hv; cbn;
    by rewrite Hv, Hfresh.
Qed.

End CertificateCache.

(** * Properties of the list of ingredients *)

Section IngredientsFacts.
Variable isspace : N -> bool.
Import Ingredients.

Local Abbreviation lstrip := (Ingredients.lstrip isspace).
Local Abbreviation rstrip := (Ingredients.rstrip isspace).
Local Abbreviation strip := (Ingredients.strip isspace).
Local Abbreviation clean := (Ingredients.clean isspace).

Lemma split_not_nil s : split s <> [].
Proof.
  destruct s as [|c rest]; cbn; [discriminate|].
  destruct (c =? comma)%N; [discriminate|]. by destruct (split rest).
Qed.

Lemma split_no_comma s : Forall (fun part => ~ In comma part) (split s).
Proof.
  induction s as [|c rest IH]; cbn.
  - repeat constructor. by intros [].
  - destruct (N.eqb_spec c comma) as [->|Hne].
    + constructor; [by intros []|exact IH].
    + destruct (split rest) as [|part parts]; [repeat constructor|].
      * intros [H|[]]. by apply Hne.
      * apply Forall_cons in IH as [Hp Hps]. constructor; [|exact Hps].
        intros [H|H]; [by apply Hne|by apply Hp].
Qed.

Lemma lstrip_In s c : In c (lstrip s) -> In c s.
Proof.
  induction s as [|x rest IH]; cbn; [done|].
  destruct (isspace x); [|done]. intros H. right. by apply IH.
Qed.

Lemma rstrip_In s c : In c (rstrip s) -> In c s.
Proof.
  revert c. induction s as [|x rest IH]; intros c; cbn; [done|].
  destruct (rstrip rest) as [|y kept].
  - destruct (isspace x); [done|]. intros [H|[]]. by left.
  - intros [H|H]; [by left|right; by apply IH].
Qed.

Lemma lstrip_head s c : head (lstrip s) = Some c -> isspace c = false.
Proof.
  induction s as [|x rest IH]; cbn; [done|].
  destruct (isspace x) eqn:Hx; [exact IH|]. cbn. by intros [= <-].
Qed.

Lemma rstrip_head s c :
  (forall x, head s = Some x -> isspace x = false) ->
  head (rstrip s) = Some c -> head s = Some c.
Proof.
  destruct s as [|x rest]; cbn; [done|]. intros Hx.
  destruct (rstrip rest); [|done].
  by rewrite (Hx x eq_refl).
Qed.

Lemma rstrip_last s c : last (rstrip s) = Some c -> isspace c = false.
Proof.
  induction s as [|x rest IH]; cbn; [done|].
  destruct (rstrip rest) as [|y kept].
  - destruct (isspace x) eqn:Hx; [done|]. cbn. by intros [= <-].
  - exact IH.
Qed.

Lemma strip_clean s :
  ~ In comma s -> Ingredients.nonempty (strip s) = true -> clean (strip s).
Proof.
  intros Hc Hne. unfold Ingredients.strip in *. repeat split.
  - intros H. by rewrite H in Hne.
  - intros H. by apply Hc, lstrip_In, rstrip_In.
  - intros c H. apply (lstrip_head s).
    apply rstrip_head; [|exact H]. intros x. apply lstrip_head.
  - intros c. apply rstrip_last.
Qed.

(** X28. Every name in the list of a scan is usable as it is: it is not
    empty, it holds no comma, and it has no white space at either end,
    whatever text the model answered with (none at all included). *)
Theorem ingredients_are_clean text :
  Forall clean (ingredients isspace text).
Proof.
  unfold ingredients.
  pose proof (split_no_comma (default [] text)) as H.
  induction H as [|part parts Hp _ IH]; cbn; [constructor|].
  destruct (Ingredients.nonempty (strip part)) eqn:Hne; [|exact IH].
  cbn. constructor; [by apply strip_clean|exact IH].
Qed.

Lemma lstrip_id s :
  (forall c, head s = Some c -> isspace c = false) -> lstrip s = s.
Proof. destruct s as [|x rest]; cbn; [done|]. intros H. by rewrite (H x). Qed.

Lemma rstrip_id s :
  (forall c, last s = Some c -> isspace c = false) -> rstrip s = s.
Proof.
  induction s as [|x rest IH]; cbn; [done|]. intros H.
  destruct rest as [|y rest'].
  - cbn. by rewrite (H x).
  - rewrite IH; [done|]. intros c Hc. apply H. exact Hc.
Qed.

Lemma strip_id s : clean s -> strip s = s.
Proof.
  intros (_ & _ & Hh & Hl). unfold Ingredients.strip.
  rewrite lstrip_id by exact Hh. by apply rstrip_id.
Qed.

Lemma split_app_comma name rest :
  ~ In comma name -> split (name ++ comma :: rest) = name :: split rest.
Proof.
  induction name as [|c name IH]; cbn; intros H.
  - reflexivity.
  - destruct (N.eqb_spec c comma) as [->|Hne]; [exfalso; apply H; by left|].
    rewrite IH; [done|]. intros Hin. apply H. by right.
Qed.

Lemma split_one name : ~ In comma name -> split name = [name].
Proof.
  induction name as [|c name IH]; cbn; intros H; [done|].
  destruct (N.eqb_spec c comma) as [->|Hne]; [exfalso; apply H; by left|].
  rewrite IH; [done|]. intros Hin. apply H. by right.
Qed.

Lemma split_join names :
  names <> [] -> Forall (fun name => ~ In comma name) names ->
  split (join names) = names.
Proof.
  intros Hne H. induction H as [|name rest Hn Hrest IH]; [done|].
  destruct rest as [|name' rest'].
  - by apply split_one.
  - change (join (name :: name' :: rest'))
      with (name ++ comma :: join (name' :: rest')).
    rewrite split_app_comma by exact Hn. by rewrite IH.
Qed.

(** X29. Nothing is lost or changed on the way: when the model answers with
    clean names joined by commas, the list of the scan is the list of these
    names, in their order. *)
Theorem clean_names_come_back names :
  Forall clean names ->
  ingredients isspace (Some (join names)) = names.
Proof.
  intros H. unfold ingredients. cbn [default from_option id].
  destruct names as [|name rest]; [reflexivity|].
  rewrite split_join; [|discriminate|].
  2: { eapply Forall_impl; [exact H|]. by intros s (_ & Hc & _). }
  induction H as [|s l Hs _ IH]; [reflexivity|].
  cbn [List.filter]. rewrite (strip_id s Hs).
  assert (Ingredients.nonempty s = true) as ->.
  { destruct Hs as (Hne & _). by destruct s. }
  cbn [map]. by rewrite (strip_id s Hs), IH.
Qed.

End IngredientsFacts.

(** ["salt,olive oil"] gives the two names. *)
Lemma clean_names_come_back_witness :
  let salt := [115; 97; 108; 116]%N in
  let olive_oil := [111; 108; 105; 118; 101; 32; 111; 105; 108]%N in
  Ingredients.ingredients Ingredients.ascii_space
    (Some (salt ++ Ingredients.comma :: olive_oil))
  = [salt; olive_oil].
Proof.
  intros salt olive_oil.
  apply (clean_names_come_back Ingredients.ascii_space [salt; olive_oil]).
  repeat constructor; try discriminate;
    try (intros c [= <-]; reflexivity);
    cbn; intros H; repeat (destruct H as [H|H]; [discriminate|]); exact H.
Defined.

(** * Closed examples of the further properties *)

(** A setup object with an instruction and a voice: the configuration has
    the three entries, each of its kind. *)
Lemma configuration_is_well_formed_witness :
  let sc := JObj [("systemInstruction", JStr "You are a chef");
                  ("speechConfig", JObj [("voiceConfig",
                     JObj [("prebuiltVoiceConfig",
                       JObj [("voiceName", JStr "Kore")])])])] in
  let cfg :=
    <["speech_config" := PrebuiltVoice (JStr "Kore")]>
      (<["system_instruction" :=
           SystemInstruction
             {| parts := [ {| text := JStr "You are a chef" |} ] |}]>
         default_config) in
  live_connect_config (G := strict) sc = Return cfg /\
  Fields.well_formed cfg /\
  exists ms, cfg !! "response_modalities" = Some (Modalities ms).
Proof.
  intros sc cfg.
  assert (live_connect_config (G := strict) sc = Return cfg) as Hrun
    by (vm_compute; reflexivity).
  split; [exact Hrun|].
  exact (configuration_is_well_formed (G := strict) sc cfg Hrun).
Defined.

(** Members the translator does not know, and the order of the members,
    make no difference. *)
Lemma translator_reads_only_its_fields_witness :
  live_connect_config (G := strict)
    (JObj [("temperature", JInt 1); ("systemInstruction", JStr "hi")])
  = live_connect_config (G := strict)
    (JObj [("systemInstruction", JStr "hi"); ("note", JNull)]).
Proof.
  apply (translator_reads_only_its_fields (G := strict)).
  repeat constructor.
Defined.

(** The instruction as a string and as an object with one part. *)
Lemma system_instruction_forms_agree_witness :
  live_connect_config (G := strict)
    (JObj [("systemInstruction", JStr "You are a chef")])
  = live_connect_config (G := strict)
    (JObj [("systemInstruction",
            JObj [("parts", JArr [JObj [("text", JStr "You are a chef")]])])]).
Proof.
  apply (system_instruction_forms_agree (G := strict) _ _ "You are a chef"
           [("parts", JArr [JObj [("text", JStr "You are a chef")]])]
           [("text", JStr "You are a chef")] []);
    [repeat constructor|reflexivity..].
Defined.

(** A [tools] that is a number, beside a request for the output
    transcription: the configuration is the one without [tools]. *)
Lemma tools_field_is_isolated_witness :
  let m1 := [("tools", JInt 5); ("outputAudioTranscription", JObj [])] in
  let m2 := [("outputAudioTranscription", JObj [])] in
  Fields.agree_on (Fields.fields_but "tools") m1 m2 /\
  match live_connect_config (G := strict) (JObj m1),
        live_connect_config (G := strict) (JObj m2) with
  | Return c1, Return c2 => forall k, k <> "tools" -> c1 !! k = c2 !! k
  | Raise e1, Raise e2 => e1 = e2
  | _, _ => False
  end.
Proof.
  intros m1 m2.
  assert (Fields.agree_on (Fields.fields_but "tools") m1 m2) as H
    by repeat constructor.
  split; [exact H|].
  exact (tools_field_is_isolated (G := strict) m1 m2 H).
Defined.

(** [{"outputAudioTranscription": false}] switches the output
    transcription on. *)
Lemma transcription_enabled_by_presence_witness :
  let sc := JObj [("outputAudioTranscription", JBool false)] in
  let cfg := <["output_audio_transcription" := AudioTranscriptionConfig]>
               default_config in
  live_connect_config (G := strict) sc = Return cfg /\
  cfg !! "output_audio_transcription" = Some AudioTranscriptionConfig /\
  cfg !! "input_audio_transcription" = None.
Proof.
  intros sc cfg.
  assert (live_connect_config (G := strict) sc = Return cfg) as Hrun
    by (vm_compute; reflexivity).
  split; [exact Hrun|].
  exact (transcription_enabled_by_presence (G := strict) sc cfg Hrun).
Defined.

(** A [voiceConfig] that is a string: the translator completes as it does
    on the empty setup object, and no voice is set. *)
Lemma voice_is_set_when_the_path_resolves_witness :
  let m1 := [("speechConfig", JObj [("voiceConfig", JStr "Kore")])] in
  live_connect_config (G := strict) (JObj m1) = Return default_config /\
  default_config !! "speech_config" = None.
Proof.
  intros m1.
  assert (live_connect_config (G := strict) (JObj m1) = Return default_config)
    as Hrun.
  { rewrite (proj1 (proj2 (voice_is_set_when_the_path_resolves (G := strict)))
               m1 [] TypeError ltac:(repeat constructor) eq_refl eq_refl).
    reflexivity. }
  split; [exact Hrun|].
  exact (proj2 (proj2 (voice_is_set_when_the_path_resolves (G := strict)))
           (JObj m1) default_config Hrun).
Defined.

(** A request for text responses replaces the audio default. *)
Lemma audio_is_the_default_modality_witness :
  let sc := JObj [("responseModalities", JArr [JStr "TEXT"])] in
  let cfg := <["response_modalities" := Modalities ["TEXT"]]> default_config in
  live_connect_config (G := strict) sc = Return cfg /\
  exists v items ms,
    getitem sc "responseModalities" = Return v /\
    iter v = Return items /\
    comprehension (to_Modality (Genai := strict)) items = Return ms /\
    cfg !! "response_modalities" = Some (Modalities ms).
Proof.
  intros sc cfg.
  assert (live_connect_config (G := strict) sc = Return cfg) as Hrun
    by (vm_compute; reflexivity).
  split; [exact Hrun|].
  exact (audio_is_the_default_modality (G := strict) sc cfg Hrun).
Defined.

(** The same chunk taken twice from the queue, with an upstream that accepts
    the first call and is closed at the second: both calls are made, the
    third chunk is not forwarded, and the task ends with the exception. *)
Lemma send_audio_forwards_in_order_witness :
  let outcome n := match n with
                   | 1%nat => Raise (OtherError "connection closed")
                   | _ => Return tt
                   end in
  let chunk := [Byte.x01; Byte.x02] in
  send_audio outcome 16000 [chunk; chunk; [Byte.x03]]
  = ([send_realtime_input chunk 16000; send_realtime_input chunk 16000],
     Crashed (OtherError "connection closed")).
Proof.
  intros outcome chunk.
  refine (proj2 (send_audio_forwards_in_order outcome 16000
                   [chunk; chunk; [Byte.x03]])
            1%nat (OtherError "connection closed") _ _ eq_refl).
  - cbn. lia.
  - intros [|i] Hi; [reflexivity|lia].
Defined.

(** The text ["ping"] (a JSON string) ends the ingress task with
    [AttributeError]. *)
Lemma non_object_text_ends_ingress_witness :
  exists e,
    Ingress.on_text (Return (JStr "ping")) = Raise e /\
    (e = TypeError \/ e = AttributeError) /\
    is_Exception e = true /\
    forall pre post last,
      Ingress.receive_from_client
        (pre ++ TextMessage (Return (JStr "ping")) :: post) last
      = Ingress.receive_from_client pre e.
Proof. exact (non_object_text_ends_ingress (JStr "ping") eq_refl). Defined.

(** A text that is not JSON between two chunks of audio *)
Lemma dropped_messages_leave_no_trace_witness :
  let a := BytesMessage [Byte.x01] in
  let b := BytesMessage [Byte.x02] in
  Ingress.receive_from_client
    ([a] ++ TextMessage (Raise JSONDecodeError) :: [b]) WebSocketDisconnect
  = Ingress.receive_from_client ([a] ++ [b]) WebSocketDisconnect.
Proof.
  intros a b.
  apply (dropped_messages_leave_no_trace [a]
           (TextMessage (Raise JSONDecodeError)) [b] WebSocketDisconnect).
  right. right. left. reflexivity.
Defined.

(** A content turn without [turnComplete] *)
Lemma content_turn_is_forwarded_as_sent_witness :
  control_path (G := strict)
    (JObj [("clientContent", JObj [("turns", JStr "next step")])])
  = Return (Some (send (JStr "next step") (JBool false))).
Proof.
  exact (content_turn_is_forwarded_as_sent (G := strict)
           [("clientContent", JObj [("turns", JStr "next step")])]
           [("turns", JStr "next step")] eq_refl).
Defined.

(** [{"toolResponse": {}}] leads to no upstream call. *)
Lemma tool_response_without_records_witness :
  control_path (G := strict) (JObj [("toolResponse", JObj [])]) = Return None.
Proof.
  exact (proj1 (tool_response_without_records (G := strict)
                  [("toolResponse", JObj [])] [] eq_refl eq_refl)
           (or_introl eq_refl)).
Defined.

(** The setup object of [env_bad_setup] makes the translator raise: the
    client is sent nothing and the transport is closed with code 1000. *)
Lemma early_failure_is_a_silent_normal_close_witness :
  let tr := (websocket_endpoint (G := strict) sample_str sample_verify
               client RunSamples.env_bad_setup).1 in
  transmitted tr = [] /\
  Observers.closes tr = [(NORMAL_CLOSURE, "")] /\
  running [] tr = [] /\
  Observers.connects tr = [].
Proof.
  intros tr.
  pose proof (early_failure_is_a_silent_normal_close (G := strict) sample_str
    sample_verify client RunSamples.env_bad_setup [("sub", JStr "user-1")]
    (JObj [("contextWindowCompression", JBool true)]) TypeError
    eq_refl eq_refl (or_introl eq_refl) ltac:(discriminate))
    as (H1 & H2 & H3 & H4).
  split; [exact H1|split; [exact H2|split; [exact H3|exact (H4 eq_refl)]]].
Defined.

(** The run of [env_ended]: the client gets the setup-complete frame, the
    turn-complete event and the error of the upstream, in this order. *)
Lemma ended_session_delivered_everything_witness :
  transmitted (websocket_endpoint (G := strict) sample_str sample_verify
                 client RunSamples.env_ended).1
  = [setupComplete;
     TextFrame (JObj [("serverContent", JObj [("turnComplete", JBool true)])]);
     TextFrame (JObj [("error", JStr "upstream closed")])].
Proof.
  refine (ended_session_delivered_everything (G := strict) sample_str
            sample_verify client RunSamples.env_ended
            [("sub", JStr "user-1")] (JObj []) _ eq_refl eq_refl _).
  vm_compute. reflexivity.
Defined.


(** The token ["good"] passes the check under the certificate of the key
    that its header names. *)
Lemma claims_only_after_signature_check_witness :
  Firebase.checked string AuthSamples.sample_header
    AuthSamples.sample_public_key AuthSamples.sample_decode
    (Return AuthSamples.sample_certs) "good"
    [("sub", JStr "user-1"); ("aud", JStr "cookingai-ec043")].
Proof.
  exact (proj1 (claims_only_after_signature_check string
                  AuthSamples.sample_header AuthSamples.sample_public_key
                  AuthSamples.sample_decode (Return AuthSamples.sample_certs)
                  "good"
                  [("sub", JStr "user-1"); ("aud", JStr "cookingai-ec043")])
           eq_refl).
Defined.


(** A cold cache, a fetch at second 101, and a call at second 2000 while
    the network is down: the table of the fetch is served. *)
Lemma refreshed_certs_are_served_until_expiry_witness :
  let v := JObj AuthSamples.sample_certs in
  let fetch := Firebase._fetch_google_certs Z Z.ltb AuthSamples.sample_after_ttl in
  let first_call := fetch 100 100 101 (Return v) AuthSamples.cold in
  first_call.1 = Return v /\
  fetch 2000 2000 2001 (Raise (OtherError "network down")) first_call.2
  = (Return v, first_call.2).
Proof.
  intros v fetch first_call.
  exact (refreshed_certs_are_served_until_expiry Z Z.ltb
           AuthSamples.sample_after_ttl 100 100 101 v AuthSamples.cold
           2000 2000 2001 (Raise (OtherError "network down"))
           eq_refl eq_refl eq_refl).
Defined.

(** C10.  Two blocks with declarations and one without the key: the entry
    holds the declarations of the second block. *)
Lemma tools_last_reached_block_wins_witness :
  let block n := JObj [("functionDeclarations",
                   JArr [JObj [("name", JStr n)]])] in
  let fds n := [ {| fd_name := JStr n; fd_description := JNull;
                    fd_parameters := JNull |} ] in
  let blocks := [block "scan"; block "timer"; JObj []] in
  let cfg := <["tools" := Tools [ {| function_declarations := fds "timer" |} ]]>
               default_config in
  live_connect_config (G := strict) (JObj [("tools", JArr blocks)])
    = Return cfg /\
  cfg !! "tools" = Some (Tools [ {| function_declarations := fds "timer" |} ]).
Proof.
  intros block fds blocks cfg.
  assert (live_connect_config (G := strict) (JObj [("tools", JArr blocks)])
          = Return cfg) as Hrun by (vm_compute; reflexivity).
  split; [exact Hrun|].
  exact (proj2 (tools_last_reached_block_wins (G := strict)
                  [("tools", JArr blocks)] blocks eq_refl) cfg Hrun).
Defined.

(** C10, counterexample.  The list holds a block with the declaration of
    [scan], the number 5 and a block with the declaration of [timer].  The
    last block with [functionDeclarations] is the one of [timer], and it
    parses; but the loop ends at the number, and the configuration carries
    the declaration of [scan]. *)
Lemma tools_block_behind_a_malformed_element_is_lost :
  let block n := JObj [("functionDeclarations",
                   JArr [JObj [("name", JStr n)]])] in
  let fds n := [ {| fd_name := JStr n; fd_description := JNull;
                    fd_parameters := JNull |} ] in
  let blocks := [block "scan"; JInt 5; block "timer"] in
  let cfg := <["tools" := Tools [ {| function_declarations := fds "scan" |} ]]>
               default_config in
  live_connect_config (G := strict) (JObj [("tools", JArr blocks)])
    = Return cfg /\
  block_declarations (G := strict) (block "timer") = Return (Some (fds "timer")) /\
  cfg !! "tools" = Some (Tools [ {| function_declarations := fds "scan" |} ]) /\
  cfg !! "tools" <> Some (Tools [ {| function_declarations := fds "timer" |} ]).
Proof.
  intros block fds blocks cfg.
  split; [vm_compute; reflexivity|].
  split; [reflexivity|].
  split; [reflexivity|].
  unfold cfg. rewrite lookup_insert_eq. intros [=].
Qed.

(** C6.  The token of the connection has a header whose key id is a
    list: the library refuses it, the verification raises an exception that
    is no [ValueError], and the endpoint raises without an accept or a
    close. *)
Lemma refused_header_is_not_closed_with_4001_witness :
  websocket_endpoint (G := strict) sample_str
    (Firebase.verify_firebase_token string AuthSamples.validating_header
       AuthSamples.sample_public_key AuthSamples.sample_decode
       (Return AuthSamples.sample_certs))
    AuthSamples.intruder env_silent
  = ([], Raise (OtherError "Key ID header parameter must be a string")).
Proof.
  pose proof (refused_header_is_not_closed_with_4001 (G := strict) string
    AuthSamples.validating_header AuthSamples.sample_public_key
    AuthSamples.sample_decode sample_str AuthSamples.sample_certs
    AuthSamples.intruder env_silent "list-kid"
    ltac:(discriminate) (or_introl eq_refl)
    (or_introl (ex_intro _ _ eq_refl))) as H.
  exact (proj2 H).
Defined.
